(** * Disaggregation calculator: a shallow embedding of
    [openquake/calculators/disaggregation.py]

    The arithmetic kernels of the calculator ([agg_probs], the magnitude bin
    edges, the interpolation of target intensities) are written once, over an
    interface [Arith] of the operations the Python source applies to numbers.
    The interface has two instances:
    - [float], the IEEE-754 binary64 numbers that CPython and numpy compute
      with (Rocq's primitive floats, round to nearest even);
    - [Qc], the rationals, standing for exact arithmetic.
    Statements about what the program returns are made on [float]; algebraic
    laws that hold only without rounding are stated on [Qc]. *)

From Stdlib Require Import ZArith QArith Qcanon Qround Floats Lia Permutation.
From stdpp Require Import base tactics option list strings pretty.

Set Warnings "-inexact-float".
Set Default Proof Using "Type".

(** ** Python exceptions and the error monad *)

Inductive exn : Type :=
  | IndexError
  | KeyError
  | StopIteration
  | TypeError
  | AttributeError
  | OverflowError
  | ValueError
  | MatrixTooLarge (sid : nat) (matrix_size : Z)
  | SystemExit (msg : string).

Inductive outcome (A : Type) : Type :=
  | Ok (a : A)
  | Raise (e : exn).
Arguments Ok {A} a.
Arguments Raise {A} e.

Definition rbind {A B} (r : outcome A) (k : A -> outcome B) : outcome B :=
  match r with
  | Ok a => k a
  | Raise e => Raise e
  end.

Notation "x <-! r ;; k" := (rbind r (fun x => k))
  (at level 100, r at next level, right associativity, only parsing).

(** A Python [for] loop whose body may raise: the loop state is threaded
    through the items, and the first exception stops the loop. *)
Fixpoint for_loop {A S} (body : S -> A -> outcome S) (items : list A) (s : S)
  : outcome S :=
  match items with
  | [] => Ok s
  | x :: rest => s' <-! body s x ;; for_loop body rest s'
  end.

Definition is_ok {A} (r : outcome A) : bool :=
  match r with Ok _ => true | Raise _ => false end.

Definition of_option {A} (e : exn) (o : option A) : outcome A :=
  match o with Some a => Ok a | None => Raise e end.

(** ** The arithmetic interface *)

Class Arith (F : Type) : Type := {
  zero : F;
  one : F;
  add : F -> F -> F;
  sub : F -> F -> F;
  mul : F -> F -> F;
  div : F -> F -> F;
  (** [ltb x y] is Python's [x < y], [leb x y] is [x <= y], [eqb] is [==]. *)
  ltb : F -> F -> bool;
  leb : F -> F -> bool;
  eqb : F -> F -> bool;
  is_nan : F -> bool;
  (** [numpy.floor]: the result is still a number of type [F]. *)
  floor : F -> F;
  ceil : F -> F;
  (** Python's [int(x)]: truncation, [OverflowError] on an infinity and
      [ValueError] on a NaN. *)
  to_int : F -> outcome Z;
  (** the conversion numpy applies to an integer that meets a float *)
  of_int : Z -> F;
}.

(** *** Instance: binary64 *)

Module F64.
Local Open Scope float_scope.

(** The integer part of a finite double, rounded towards minus infinity. *)
Definition floor_Z (x : float) : outcome Z :=
  match Prim2SF x with
  | S754_zero _ => Ok 0%Z
  | S754_finite s m e =>
      let v := (if s then Z.neg m else Z.pos m) in
      Ok (if (0 <=? e)%Z then Z.shiftl v e else Z.shiftr v (- e))
  | S754_infinity _ => Raise OverflowError
  | S754_nan => Raise ValueError
  end.

(** int64 (or Python int) to double: correctly rounded. *)
Definition of_Z (z : Z) : float :=
  SF2Prim (binary_normalize prec emax z 0 false).

(** [numpy.floor]: a double of exponent at least 0 is already integral;
    infinities, NaN and zeros are returned unchanged. *)
Definition floor (x : float) : float :=
  match Prim2SF x with
  | S754_finite _ _ e =>
      if (0 <=? e)%Z then x
      else match floor_Z x with Ok z => of_Z z | Raise _ => x end
  | _ => x
  end.

Definition ceil (x : float) : float := - floor (- x).

(** [int(x)] truncates towards zero. *)
Definition to_int (x : float) : outcome Z :=
  if x <? 0 then z <-! floor_Z (- x) ;; Ok (- z)%Z
  else floor_Z x.
End F64.

#[export] Instance float_arith : Arith float := {|
  zero := 0%float;
  one := 1%float;
  add := PrimFloat.add;
  sub := PrimFloat.sub;
  mul := PrimFloat.mul;
  div := PrimFloat.div;
  ltb := PrimFloat.ltb;
  leb := PrimFloat.leb;
  eqb := PrimFloat.eqb;
  is_nan := PrimFloat.is_nan;
  floor := F64.floor;
  ceil := F64.ceil;
  to_int := F64.to_int;
  of_int := F64.of_Z;
|}.

(** *** Instance: exact rationals *)

Definition Qc_of_Z (z : Z) : Qc := Q2Qc (inject_Z z).

#[export] Instance Qc_arith : Arith Qc := {|
  zero := 0%Qc;
  one := 1%Qc;
  add := Qcplus;
  sub := Qcminus;
  mul := Qcmult;
  div := Qcdiv;
  ltb := fun x y => bool_decide (x < y)%Qc;
  leb := fun x y => bool_decide (x <= y)%Qc;
  eqb := fun x y => bool_decide (x = y);
  is_nan := fun _ => false;
  floor := fun x => Qc_of_Z (Qfloor x);
  ceil := fun x => Qc_of_Z (Qceiling x);
  to_int := fun x => Ok (Z.quot (Qnum x) (Z.pos (Qden x)));
  of_int := Qc_of_Z;
|}.

(** ** numpy values

    A value is a Python scalar or an n-dimensional array, kept as its shape
    and its cells in row-major order.  Arithmetic is element-wise; a scalar
    is broadcast over an array.  Two arrays combine when their shapes are
    equal; numpy's general broadcasting between different array shapes is
    not used by the calculator and is reported as [ValueError] here. *)

Section Values.
Context {F : Type} `{Arith F}.

Inductive value : Type :=
  | Scalar (x : F)
  | Array (shp : list nat) (cells : list F).

Definition shape (v : value) : list nat :=
  match v with Scalar _ => [] | Array s _ => s end.

Definition vmap (f : F -> F) (v : value) : value :=
  match v with
  | Scalar x => Scalar (f x)
  | Array s c => Array s (map f c)
  end.

(** [1. - v] *)
Definition vcompl (v : value) : value := vmap (sub one) v.

(** [a * b] *)
Definition vmul (a b : value) : outcome value :=
  match a, b with
  | Scalar x, Scalar y => Ok (Scalar (mul x y))
  | Scalar x, Array s c => Ok (Array s (map (mul x) c))
  | Array s c, Scalar y => Ok (Array s (map (fun x => mul x y) c))
  | Array s c, Array s' c' =>
      if decide (s = s') then Ok (Array s (zip_with mul c c'))
      else Raise ValueError
  end.

(** [numpy.zeros(shp)] *)
Definition zeros (shp : list nat) : value :=
  Array shp (replicate (foldr Nat.mul 1 shp) zero).

(** <<
    def agg_probs( *probs ):
        acc = 1. - probs[0]
        for prob in probs[1:]:
            acc *= 1. - prob
        return 1. - acc
    >> *)
Definition agg_probs (probs : list value) : outcome value :=
  match probs with
  | [] => Raise IndexError
  | p0 :: rest =>
      acc <-! for_loop (fun acc prob => vmul acc (vcompl prob)) rest (vcompl p0) ;;
      Ok (vcompl acc)
  end.
End Values.

Arguments value F : clear implicits.

(** ** Python dictionaries

    A [dict] keeps its items in insertion order; assigning to a key that is
    present replaces the value in place, assigning to a new key appends. *)

Section Dict.
Context {K V : Type} `{EqDecision K}.

Fixpoint dget (k : K) (d : list (K * V)) : option V :=
  match d with
  | [] => None
  | (k', v) :: rest => if decide (k = k') then Some v else dget k rest
  end.

Fixpoint dset (k : K) (v : V) (d : list (K * V)) : list (K * V) :=
  match d with
  | [] => [(k, v)]
  | (k', v') :: rest =>
      if decide (k = k') then (k, v) :: rest else (k', v') :: dset k v rest
  end.

Definition keys (d : list (K * V)) : list K := map fst d.
End Dict.

(** ** The cross-task aggregator *)

Section Aggregator.
Context {F : Type} `{Arith F}.
(** [K] is the type of the keys [(sid, rlz, poe, imt)]. *)
Context {K : Type} `{EqDecision K}.

(** What a task returns: the entry ['trti'] and the items
    [(sid, rlz, poe, imt) -> matrix], in the order of the dictionary. *)
Record task_result : Type := {
  trti : nat;
  items : list (K * value F);
}.

(** Modelled from the spec: [AccumDict(accum={})] of [openquake.baselib],
    the accumulator, "mapping from key [(site, realization, poe, imt)] to a
    mapping [trti -> matrix]": reading a key that is missing stores an
    empty mapping under it and returns it. *)
Definition accum_get (key : K) (acc : list (K * list (nat * value F)))
  : list (nat * value F) :=
  default [] (dget key acc).

(** <<
    def agg_result(self, acc, result):
        trti = result.pop('trti')
        for key, val in result.items():
            acc[key][trti] = agg_probs(acc[key].get(trti, 0), val)
        return acc
    >>
    [agg_item] is the body of the loop. *)
Definition agg_item (trti : nat) (acc : list (K * list (nat * value F)))
    (kv : K * value F) : outcome (list (K * list (nat * value F))) :=
  let dic := accum_get kv.1 acc in
  v <-! agg_probs [default (Scalar zero) (dget trti dic); kv.2] ;;
  Ok (dset kv.1 (dset trti v dic) acc).

Definition agg_result (acc : list (K * list (nat * value F)))
    (result : task_result) : outcome (list (K * list (nat * value F))) :=
  for_loop (agg_item (trti result)) (items result) acc.

(** The reduction of the task results, in their order of arrival, from
    the empty accumulator. *)
Definition reduce (results : list task_result)
  : outcome (list (K * list (nat * value F))) :=
  for_loop agg_result results [].

(** [acc[key][trti]], when both are present. *)
Definition acc_lookup (acc : list (K * list (nat * value F)))
    (key : K) (t : nat) : option (value F) :=
  dget key acc ≫= dget t.

(** [mat[trti] = m] on a tensor whose slices have shape [slice_shape]:
    an array of that shape is copied, a scalar fills the slice. *)
Definition assign_slice (slice_shape : list nat) (m : value F)
  : outcome (value F) :=
  match m with
  | Scalar x => Ok (Array slice_shape (replicate (foldr Nat.mul 1 slice_shape) x))
  | Array s c =>
      if decide (s = slice_shape) then Ok (Array s c) else Raise ValueError
  end.

(** <<
    def _to_matrix(matrices, num_trts):
        trti = next(iter(matrices))
        mat = numpy.zeros((num_trts,) + matrices[trti].shape)
        for trti in matrices:
            mat[trti] = matrices[trti]
        return mat
    >>
    The tensor of shape [(num_trts,) + shp] is the list of its [num_trts]
    slices of shape [shp]; [store_slice] is the body of the loop. *)
Definition store_slice (matrices : list (nat * value F)) (num_trts : nat)
    (shp : list nat) (mat : list (value F)) (t : nat)
  : outcome (list (value F)) :=
  m <-! of_option KeyError (dget t matrices) ;;
  if decide (t < num_trts) then
    s <-! assign_slice shp m ;; Ok (<[t := s]> mat)
  else Raise IndexError.

Definition _to_matrix (matrices : list (nat * value F)) (num_trts : nat)
  : outcome (list (value F)) :=
  match matrices with
  | [] => Raise StopIteration
  | (_, m0) :: _ =>
      let shp := shape m0 in
      for_loop (store_slice matrices num_trts shp)
        (keys matrices) (replicate num_trts (zeros shp))
  end.
End Aggregator.

Arguments task_result F K : clear implicits.

(** ** Hazard curves and the feasibility of the target probabilities *)

(** What the calculator logs. *)
Inductive logrec (F : Type) : Type :=
  (** [logging.warning(POE_TOO_BIG, sid, poe, max_poe, rlz, imt)] *)
  | PoeTooBig (sid : nat) (poe max_poe : F) (rlz : nat) (imt : string)
  (** [logging.info('hazard curve contains all zero probabilities; ...')] *)
  | AllZeroCurve (sid rlz : nat) (imt : option string)
  (** [logging.warning('Doing the disaggregation on' % self.sitecol)] *)
  | DoingTheDisaggregationOn
  (** [logging.info('nbins=%s for site=#%d', shape_dic, sid)] *)
  | NBins (shape : list Z) (sid : nat)
  (** [logging.warning('site #%d: poe_agg=%s is quite different ...')] *)
  | PoeAggDiffers (site_id : nat) (poe_agg poe : F).
Arguments PoeTooBig {F}.
Arguments AllZeroCurve {F}.
Arguments DoingTheDisaggregationOn {F}.
Arguments NBins {F}.
Arguments PoeAggDiffers {F}.

Section Curves.
Context {F : Type} `{Arith F}.

(** [numpy.maximum]: a NaN operand is propagated. *)
Definition maximum (a b : F) : F :=
  if is_nan a then a else if is_nan b then b else if ltb a b then b else a.

(** [a.max()]: [ValueError] on an empty array. *)
Definition np_max (a : list F) : outcome F :=
  match a with
  | [] => Raise ValueError
  | x :: rest => Ok (fold_left maximum rest x)
  end.

(** <<
    def _check_curve(sid, rlz, curve, imtls, poes_disagg):
        bad = 0
        for imt in imtls:
            max_poe = curve[imt].max()
            for poe in poes_disagg:
                if poe > max_poe:
                    logging.warning(POE_TOO_BIG, sid, poe, max_poe, rlz, imt)
                    bad += 1
        return bool(bad)
    >>
    A curve is a record with one array of probabilities per IMT; [imtls]
    maps each IMT to its intensity levels. *)
Definition _check_curve (sid rlz : nat) (curve : list (string * list F))
    (imtls : list (string * list F)) (poes_disagg : list F)
  : outcome (bool * list (logrec F)) :=
  st <-! for_loop (fun (st : nat * list (logrec F)) imt =>
      hz <-! of_option KeyError (dget imt curve) ;;
      max_poe <-! np_max hz ;;
      Ok (fold_left (fun (st : nat * list (logrec F)) poe =>
            if ltb max_poe poe
            then (S st.1, st.2 ++ [PoeTooBig sid poe max_poe rlz imt])
            else st)
          poes_disagg st))
    (keys imtls) (0, []) ;;
  Ok (negb (st.1 =? 0), st.2).

(** The first IMT of [imts] whose probabilities are all [== 0.0]. *)
Fixpoint all_zero_imt (poes : list (string * list F)) (imts : list string)
  : outcome (option string) :=
  match imts with
  | [] => Ok None
  | imt :: rest =>
      hz <-! of_option KeyError (dget imt poes) ;;
      if forallb (fun x => eqb x zero) hz then Ok (Some imt)
      else all_zero_imt poes rest
  end.

(** <<
    def get_curve(self, sid, rlz_by_sid):
        ...
        rlz = rlz_by_sid[sid]
        try:
            pmap = pgetter.get(rlz)
        except ValueError:  # empty pmaps
            logging.info(...)
            return
        if sid not in pmap:
            return
        poes = pmap[sid].convert(imtls)
        for imt_str in imtls:
            if all(x == 0.0 for x in poes[imt_str]):
                logging.info(...)
                return
        return poes
    >>
    [pgetter_get] is what the getter of the hazard-curve store answers for
    a realization: a map from site ids to curves, already converted to one
    array per IMT, or an exception.  [ordinal] is the attribute access
    [rlz.ordinal], evaluated before [logging.info] is called. *)
Definition get_curve
    (pgetter_get : nat -> outcome (list (nat * list (string * list F))))
    (ordinal : nat -> outcome nat)
    (imtls : list (string * list F)) (sid : nat) (rlz_by_sid : list nat)
  : outcome (option (list (string * list F)) * list (logrec F)) :=
  rlz <-! of_option IndexError (rlz_by_sid !! sid) ;;
  match pgetter_get rlz with
  | Raise ValueError =>
      o <-! ordinal rlz ;; Ok (None, [AllZeroCurve sid o None])
  | Raise e => Raise e
  | Ok pmap =>
      match dget sid pmap with
      | None => Ok (None, [])
      | Some poes =>
          z <-! all_zero_imt poes (keys imtls) ;;
          match z with
          | Some imt =>
              o <-! ordinal rlz ;; Ok (None, [AllZeroCurve sid o (Some imt)])
          | None => Ok (Some poes, [])
          end
      end
  end.

(** The realizations [full_disaggregation] hands to [get_curve] are plain
    integers ([best_rlz], [numpy.zeros(self.N, int)] or
    [[oq.rlz_index] * self.N]): they have no attribute [ordinal]. *)
Definition int_ordinal (rlz : nat) : outcome nat := Raise AttributeError.

(** The loop of [check_poes_disagg] that collects [ok_sites], and its
    body [check_site]. *)
Definition check_site (imtls : list (string * list F)) (poes_disagg : list F)
    (curves : list (option (list (string * list F)))) (rlzs : list nat)
    (st : list nat * list (logrec F)) (sid : nat)
  : outcome (list nat * list (logrec F)) :=
  c <-! of_option IndexError (curves !! sid) ;;
  match c with
  | None => Ok (st.1 ++ [sid], st.2)
  | Some curve =>
      rlz <-! of_option IndexError (rlzs !! sid) ;;
      r <-! _check_curve sid rlz curve imtls poes_disagg ;;
      Ok (if r.1 : bool then st.1 else st.1 ++ [sid], st.2 ++ r.2)
  end.

Definition collect_ok_sites (sids : list nat)
    (imtls : list (string * list F)) (poes_disagg : list F)
    (curves : list (option (list (string * list F)))) (rlzs : list nat)
  : outcome (list nat * list (logrec F)) :=
  for_loop (check_site imtls poes_disagg curves rlzs) sids ([], []).

(** <<
    def check_poes_disagg(self, curves, rlzs):
        oq = self.oqparam
        ok_sites = []
        for sid in self.sitecol.sids:
            if curves[sid] is None:
                ok_sites.append(sid)
                continue
            bad = _check_curve(sid, rlzs[sid], curves[sid],
                               oq.imtls, oq.poes_disagg)
            if not bad:
                ok_sites.append(sid)
        if not ok_sites:
            raise SystemExit('Cannot do any disaggregation')
        elif len(ok_sites) < self.N:
            logging.warning('Doing the disaggregation on' % self.sitecol)
        return ok_sites
    >>
    The format string of the last warning has no conversion, so Python's
    [%] raises [TypeError] unless its right operand is a mapping; the class
    of [self.sitecol] is not part of this file, hence the parameter
    [sitecol_is_mapping]. *)
Definition check_poes_disagg (sitecol_is_mapping : bool)
    (sids : list nat) (N : nat)
    (imtls : list (string * list F)) (poes_disagg : list F)
    (curves : list (option (list (string * list F)))) (rlzs : list nat)
  : outcome (list nat * list (logrec F)) :=
  st <-! collect_ok_sites sids imtls poes_disagg curves rlzs ;;
  match st.1 with
  | [] => Raise (SystemExit "Cannot do any disaggregation")
  | _ :: _ =>
      if length st.1 <? N then
        if sitecol_is_mapping then Ok (st.1, st.2 ++ [DoingTheDisaggregationOn])
        else Raise TypeError
      else Ok st
  end.
End Curves.

(** ** Target intensities *)

Section Interp.
Context {F : Type} `{Arith F}.

(** The number of leading elements [a] of [arr] with [key >= a]. *)
Fixpoint count_leading (key : F) (arr : list F) : nat :=
  match arr with
  | [] => 0
  | a :: rest => if leb a key then S (count_leading key rest) else 0
  end.

(** One point of [numpy.interp(x, xp, fp)], as numpy's [arr_interp]
    computes it: a single sample point is handled apart, a NaN is returned
    as it is, a point outside the samples gets the first or the last value,
    and inside them the value is [slope * (x - xp[j]) + fp[j]].  The index
    [j] is the one numpy's search returns for a
    key inside the range of [xp]: the scan
    [for (i = 1; i < len && key >= arr[i]; ++i); return i - 1], which
    numpy replaces by a bisection with the same answer on long increasing
    arrays. *)
Definition interp_point (xp fp : list F) (d : F) (x : F) : F :=
  let n := length xp in
  if n =? 1 then
    if ltb x (nth 0 xp d) then nth 0 fp d
    else if ltb (nth 0 xp d) x then nth (n - 1) fp d
    else nth 0 fp d
  else if is_nan x then x
  else if ltb (nth (n - 1) xp d) x then nth (n - 1) fp d
  else if ltb x (nth 0 xp d) then nth 0 fp d
  else
    let j := count_leading x (tail xp) in
    if j =? n - 1 then nth j fp d
    else if eqb (nth j xp d) x then nth j fp d
    else
      let slope :=
        div (sub (nth (S j) fp d) (nth j fp d))
            (sub (nth (S j) xp d) (nth j xp d)) in
      add (mul slope (sub x (nth j xp d))) (nth j fp d).

(** [numpy.interp(xs, xp, fp)] *)
Definition interp (xs xp fp : list F) : outcome (list F) :=
  match xp with
  | [] => Raise ValueError
  | d :: _ =>
      if length fp =? length xp then Ok (map (interp_point xp fp d) xs)
      else Raise ValueError
  end.
End Interp.

(** [poes_disagg] as [full_disaggregation] passes it on: the requested
    probabilities, or the tuple [(None,)] when intensities were given. *)
Inductive poes_arg : Type :=
  | NoPoes
  | Poes (ps : list float).

(** [hdf5.ArrayWrapper(iml2, dict(poes_disagg=..., imts=..., rlzi=...))] *)
Record iml2_wrapper : Type := {
  iml2 : list (list float);
  aw_poes_disagg : poes_arg;
  aw_imts : list string;
  aw_rlzi : nat;
}.

Definition enumerate {A} (l : list A) : list (nat * A) :=
  zip (seq 0 (length l)) l.

(** <<
    def _iml2s(rlzs, iml_disagg, imtls, poes_disagg, curves):
        M = len(imtls)
        P = len(poes_disagg)
        imts = [from_string(imt) for imt in imtls]
        lst = []
        for s, curve in enumerate(curves):
            iml2 = numpy.empty((M, P))
            iml2.fill(numpy.nan)
            if poes_disagg == (None,):
                for m, imt in enumerate(imtls):
                    iml2[m, 0] = imtls[imt]
            elif curve:
                for m, imt in enumerate(imtls):
                    poes = curve[imt][::-1]
                    imls = imtls[imt][::-1]
                    iml2[m] = numpy.interp(poes_disagg, poes, imls)
            aw = hdf5.ArrayWrapper(
                iml2, dict(poes_disagg=poes_disagg, imts=imts, rlzi=rlzs[s]))
            lst.append(aw)
        return lst
    >>
    [iml_disagg] is not read by the function.
    [site_iml2] is the body of the loop over the sites; [fill_level] and
    [fill_interp] are the bodies of the two loops over the IMTs. *)
Definition fill_level (arr : list (list float))
    (mi : nat * (string * list float)) : outcome (list (list float)) :=
  match mi.2.2 with
  | [x] => Ok (alter (fun row => <[0 := x]> row) mi.1 arr)
  | _ => Raise ValueError
  end.

Definition fill_interp (ps : list float) (curve : list (string * list float))
    (arr : list (list float)) (mi : nat * (string * list float))
  : outcome (list (list float)) :=
  hz <-! of_option KeyError (dget mi.2.1 curve) ;;
  row <-! interp ps (reverse hz) (reverse mi.2.2) ;;
  Ok (<[mi.1 := row]> arr).

(** The bytes of a double are all zero for [+0.0] only: a negative zero
    has its sign bit set. *)
Definition zero_bytes (x : float) : bool :=
  match PrimFloat.classify x with
  | PZero => true
  | _ => false
  end.

(** The truth value of a curve in [elif curve:]: numpy reads it off the
    bytes of the record, which is true when one of its values is not
    [+0.0] (so a [-0.0] or a NaN makes the curve true). *)
Definition curve_truthy (curve : list (string * list float)) : bool :=
  existsb (fun field => existsb (fun x => negb (zero_bytes x)) field.2) curve.

Definition site_iml2 (rlzs : list nat) (imtls : list (string * list float))
    (poes_disagg : poes_arg) (lst : list iml2_wrapper)
    (sc : nat * option (list (string * list float)))
  : outcome (list iml2_wrapper) :=
  let M := length imtls in
  let P := match poes_disagg with NoPoes => 1 | Poes ps => length ps end in
  let empty := replicate M (replicate P PrimFloat.nan) in
  filled <-!
    match poes_disagg, sc.2 with
    | NoPoes, _ => for_loop fill_level (enumerate imtls) empty
    | Poes ps, Some curve =>
        if curve_truthy curve
        then for_loop (fill_interp ps curve) (enumerate imtls) empty
        else Ok empty
    | Poes _, None => Ok empty
    end ;;
  rlzi <-! of_option IndexError (rlzs !! sc.1) ;;
  Ok (lst ++ [{| iml2 := filled; aw_poes_disagg := poes_disagg;
                 aw_imts := keys imtls; aw_rlzi := rlzi |}]).

Definition _iml2s (rlzs : list nat) (imtls : list (string * list float))
    (poes_disagg : poes_arg) (curves : list (option (list (string * list float))))
  : outcome (list iml2_wrapper) :=
  for_loop (site_iml2 rlzs imtls poes_disagg) (enumerate curves) [].

(** The inputs [full_disaggregation] builds for [_iml2s]: a realization
    for every site and, in every curve, an array of probabilities per IMT,
    as long as the list of levels of the IMT, which is not empty. *)
Definition curves_usable (rlzs : list nat) (imtls : list (string * list float))
    (curves : list (option (list (string * list float)))) : Prop :=
  length curves <= length rlzs
  /\ forall s curve imt levels,
       curves !! s = Some (Some curve) -> (imt, levels) ∈ imtls ->
       levels <> []
       /\ exists hz, dget imt curve = Some hz /\ length hz = length levels.

(** ** Bin edges *)

Section MagEdges.
Context {F : Type} `{Arith F}.

(** [numpy.arange(start, stop)] on integers *)
Definition arange (start stop : Z) : list Z := seqZ start (stop - start).

(** <<
    mag_edges = oq.mag_bin_width * numpy.arange(
        int(numpy.floor(min_mag / oq.mag_bin_width)),
        int(numpy.ceil(max_mag / oq.mag_bin_width) + 1))
    >> *)
Definition mag_edges (mag_bin_width min_mag max_mag : F) : outcome (list F) :=
  start <-! to_int (floor (div min_mag mag_bin_width)) ;;
  stop <-! to_int (add (ceil (div max_mag mag_bin_width)) one) ;;
  Ok (map (fun k => mul mag_bin_width (of_int k)) (arange start stop)).
End MagEdges.

(** [self.bin_edges = mag_edges, dist_edges, lon_edges, lat_edges, eps_edges]:
    the edges of longitude and latitude are kept by site id. *)
Record bin_edges (F : Type) : Type := {
  mags : list F;
  dists : list F;
  lons : list (nat * list F);
  lats : list (nat * list F);
  eps : list F;
}.
Arguments mags {F}.
Arguments dists {F}.
Arguments lons {F}.
Arguments lats {F}.
Arguments eps {F}.

(** numpy keeps a list of Python integers as an array of 64-bit signed
    integers, and [numpy.prod] multiplies them in that type: the product
    wraps around modulo [2^64]. *)
Definition wrap64 (z : Z) : Z := ((z + 2 ^ 63) mod 2 ^ 64 - 2 ^ 63)%Z.

Definition np_prod_int64 (shape : list Z) : Z :=
  fold_left (fun acc n => wrap64 (acc * n)) shape 1%Z.

Section SaveBinEdges.
Context {F : Type}.

(** A one-dimensional array as a value. *)
Definition vec (cells : list F) : value F := Array [length cells] cells.

(** Modelled from the spec: [disagg.get_bins] of [openquake.hazardlib],
    which picks, for a site, the "5-tuple [(mag_edges, dist_edges,
    lon_edges[sid], lat_edges[sid], eps_edges)]". *)
Definition get_bins (b : bin_edges F) (sid : nat) : outcome (list (list F)) :=
  lon <-! of_option KeyError (dget sid (lons b)) ;;
  lat <-! of_option KeyError (dget sid (lats b)) ;;
  Ok [mags b; dists b; lon; lat; eps b].

(** The first loop of [save_bin_edges]: the size check of every site. *)
Definition check_matrix_sizes (b : bin_edges F) (sids : list nat)
    (trts : list string) : outcome (list (logrec F)) :=
  for_loop (fun log sid =>
      bins <-! get_bins b sid ;;
      let shape :=
        map (fun bin => (Z.of_nat (length bin) - 1)%Z) bins
          ++ [Z.of_nat (length trts)] in
      let log := if decide (sid = 0) then log ++ [NBins shape sid] else log in
      let matrix_size := np_prod_int64 shape in
      if (10 ^ 7 <? matrix_size)%Z then Raise (MatrixTooLarge sid matrix_size)
      else Ok log)
    sids [].

(** <<
    def save_bin_edges(self):
        b = self.bin_edges
        for sid in self.sitecol.sids:
            bins = disagg.get_bins(b, sid)
            shape = [len(bin) - 1 for bin in bins] + [len(self.trts)]
            shape_dic = dict(zip(BIN_NAMES, shape))
            if sid == 0:
                logging.info('nbins=%s for site=#%d', shape_dic, sid)
            matrix_size = numpy.prod(shape)
            if matrix_size > 1E7:
                raise ValueError(
                    'The disaggregation matrix for site #%d is too large '
                    '(%d elements): fix the binnning!' % (sid, matrix_size))
        self.datastore['disagg-bins/mags'] = b[0]
        self.datastore['disagg-bins/dists'] = b[1]
        for sid in self.sitecol.sids:
            self.datastore['disagg-bins/lons/sid-%d' % sid] = b[2][sid]
            self.datastore['disagg-bins/lats/sid-%d' % sid] = b[3][sid]
        self.datastore['disagg-bins/eps'] = b[4]
    >>
    The [ValueError] of the size check is the exception [MatrixTooLarge]. *)
Definition save_bin_edges (b : bin_edges F) (sids : list nat)
    (trts : list string) (datastore : list (string * value F))
  : outcome (list (string * value F) * list (logrec F)) :=
  log <-! check_matrix_sizes b sids trts ;;
  let ds := dset "disagg-bins/mags" (vec (mags b)) datastore in
  let ds := dset "disagg-bins/dists" (vec (dists b)) ds in
  ds <-! for_loop (fun ds sid =>
      lon <-! of_option KeyError (dget sid (lons b)) ;;
      let ds := dset ("disagg-bins/lons/sid-" +:+ pretty sid) (vec lon) ds in
      lat <-! of_option KeyError (dget sid (lats b)) ;;
      Ok (dset ("disagg-bins/lats/sid-" +:+ pretty sid) (vec lat) ds))
    sids ds ;;
  Ok (dset "disagg-bins/eps" (vec (eps b)) ds, log).
End SaveBinEdges.

(** ** Extraction of the PMFs *)

(** [key.endswith(suffix)] *)
Definition endswith (key suffix : string) : bool :=
  String.prefix (String.rev suffix) (String.rev key).

(** What a function of [disagg.pmf_map] receives: the tensor with its
    leading TRT axis, as the list of its slices, or a single matrix that
    has no TRT axis. *)
Inductive pmf_arg (F : Type) : Type :=
  | Tensor6 (matrix : list (value F))
  | Matrix5 (aggmatrix : value F).
Arguments Tensor6 {F}.
Arguments Matrix5 {F}.

(** The attributes [_save_result] attaches to the group of an output; the
    bin edges, the TRT labels and the location, which are copied from the
    calculator, are left out. *)
Record result_attrs (F : Type) : Type := {
  attr_site_id : nat;
  attr_rlzi : nat;
  attr_imt : string;
  attr_iml : F;
  attr_poe_agg : list F;
  attr_poe : option F;
}.
Arguments attr_site_id {F}.
Arguments attr_rlzi {F}.
Arguments attr_imt {F}.
Arguments attr_iml {F}.
Arguments attr_poe_agg {F}.
Arguments attr_poe {F}.

Section SaveResult.
Local Abbreviation F := float.
(** [disagg.pmf_map] of [openquake.hazardlib]: the PMF kinds, in order,
    each with the function that extracts it. *)
Variable pmf_map : list (string * (pmf_arg F -> value F)).
(** [numpy.prod] over all the cells of an array, and [numpy.mean] of a
    list: numpy's own reductions, whatever the order in which they round. *)
Variable np_prod : value F -> F.
Variable np_mean : list F -> F.

(** [not disagg_outputs or key in disagg_outputs] *)
Definition requested (disagg_outputs : list string) (key : string) : bool :=
  match disagg_outputs with
  | [] => true
  | _ :: _ => bool_decide (key ∈ disagg_outputs)
  end.

(** [matrix if key.endswith('TRT') else aggmatrix] *)
Definition pmf_input (key : string) (matrix : list (value F))
    (aggmatrix : value F) : pmf_arg F :=
  if endswith key "TRT" then Tensor6 matrix else Matrix5 aggmatrix.

(** <<
    poe_agg = []
    aggmatrix = agg_probs( *matrix )
    for key, fn in disagg.pmf_map.items():
        if not disagg_outputs or key in disagg_outputs:
            pmf = fn(matrix if key.endswith('TRT') else aggmatrix)
            self.datastore[disp_name + key] = pmf
            poe_agg.append(1. - numpy.prod(1. - pmf))
    >>
    [store_pmf] is the body of the loop. *)
Definition store_pmf (disagg_outputs : list string) (disp_name : string)
    (matrix : list (value F)) (aggmatrix : value F)
    (st : list (string * value F) * list F)
    (kf : string * (pmf_arg F -> value F))
  : list (string * value F) * list F :=
  if requested disagg_outputs kf.1 then
    let pmf := kf.2 (pmf_input kf.1 matrix aggmatrix) in
    (dset (disp_name +:+ kf.1) pmf st.1,
     st.2 ++ [sub one (np_prod (vcompl pmf))])
  else st.

(** The aggregate probability of one PMF kind: [1. - numpy.prod(1. - pmf)]. *)
Definition kind_poe_agg (matrix : list (value F)) (aggmatrix : value F)
    (kf : string * (pmf_arg F -> value F)) : F :=
  sub one (np_prod (vcompl (kf.2 (pmf_input kf.1 matrix aggmatrix)))).

Definition extract_pmfs (disagg_outputs : list string) (disp_name : string)
    (matrix : list (value F)) (datastore : list (string * value F))
  : outcome (list (string * value F) * list F) :=
  aggmatrix <-! agg_probs matrix ;;
  Ok (fold_left (store_pmf disagg_outputs disp_name matrix aggmatrix)
        pmf_map (datastore, [])).

(** Python's truth value of [poe]: [None] and zero are false. *)
Definition truthy (poe : option F) : bool :=
  match poe with
  | None => false
  | Some p => negb (eqb p zero)
  end.

(** [self.datastore.hdf5[name]], for a [name] that ends with ['/']: the
    datastore holds its datasets under their full names, and h5py finds
    the group [name] when the file has a dataset under it, that is, a
    dataset whose full name starts with [name]. *)
Definition hdf5_group (datastore : list (string * value F)) (name : string)
  : bool :=
  existsb (fun kv => String.prefix name kv.1) datastore.

(** [dskey + '/' + DISAGG_RES_FMT % dict(imt=imt_str, sid='sid-%d' % site_id,
    poe='poe-%d' % self.poe_id[poe])] *)
Definition disp_name (dskey imt_str : string) (site_id poe_id : nat) : string :=
  dskey +:+ "/" +:+ imt_str +:+ "-sid-" +:+ pretty site_id
        +:+ "-poe-" +:+ pretty poe_id +:+ "/".

(** <<
    def _save_result(self, dskey, site_id, rlz_id, poe, imt_str, matrix):
        ...
        with self.monitor('extracting PMFs'):
            (the extraction above)
        attrs = self.datastore.hdf5[disp_name].attrs
        attrs['site_id'] = site_id
        ...
        attrs['poe_agg'] = poe_agg
        if poe:
            attrs['poe'] = poe
            poe_agg = numpy.mean(attrs['poe_agg'])
            if abs(1 - poe_agg / poe) > .1:
                logging.warning(
                    'site #%d: poe_agg=%s is quite different from the expected'
                    ' poe=%s; ...', site_id, poe_agg, poe)
    >>
    [poe_id] is [self.poe_id[poe]] and [iml] is
    [self.imldict[site_id, rlz_id, poe, imt_str]].  The lookup
    [self.datastore.hdf5[disp_name]] raises [KeyError] when the group is
    not in the file, which is the case when the loop has stored no PMF
    and nothing was under [disp_name] before. *)
Definition _save_result (disagg_outputs : list string)
    (datastore : list (string * value F)) (dskey : string)
    (site_id rlz_id : nat) (poe : option F) (poe_id : nat) (iml : F)
    (imt_str : string) (matrix : list (value F))
  : outcome (list (string * value F) * result_attrs F * list (logrec F)) :=
  let name := disp_name dskey imt_str site_id poe_id in
  st <-! extract_pmfs disagg_outputs name matrix datastore ;;
  if hdf5_group st.1 name then
    let attrs poe' := {| attr_site_id := site_id; attr_rlzi := rlz_id;
                         attr_imt := imt_str; attr_iml := iml;
                         attr_poe_agg := st.2; attr_poe := poe' |} in
    match poe with
    | Some p =>
        if truthy poe then
          let poe_agg := np_mean st.2 in
          if ltb 0.1%float (PrimFloat.abs (sub one (div poe_agg p)))
          then Ok (st.1, attrs poe, [PoeAggDiffers site_id poe_agg p])
          else Ok (st.1, attrs poe, [])
        else Ok (st.1, attrs None, [])
    | None => Ok (st.1, attrs None, [])
    end
  else Raise KeyError.
End SaveResult.

(** ** Vocabulary of the statements about [check_poes_disagg] *)

Section FeasibilitySpec.
Context {F : Type} `{Arith F}.
Implicit Types (curve imtls : list (string * list F)) (poes : list F).

(** The warnings [_check_curve] logs for one IMT whose curve has the
    maximum [max_poe]. *)
Definition imt_warnings (sid rlz : nat) (imt : string) (max_poe : F) poes
  : list (logrec F) :=
  map (fun poe => PoeTooBig sid poe max_poe rlz imt)
      (List.filter (fun poe => ltb max_poe poe) poes).

Definition curve_warnings (sid rlz : nat) curve poes (imts : list string)
  : list (logrec F) :=
  flat_map (fun imt =>
      match dget imt curve with
      | Some (x :: rest) => imt_warnings sid rlz imt (fold_left maximum rest x) poes
      | _ => []
      end) imts.

(** The curve has a non-empty array for every IMT. *)
Definition curve_complete curve (imts : list string) : Prop :=
  forall imt, imt ∈ imts -> exists x rest, dget imt curve = Some (x :: rest).

(** Some requested probability exceeds the maximum of the curve of some IMT. *)
Definition exceeds_curve curve poes (imts : list string) : Prop :=
  exists imt hz max_poe poe,
    imt ∈ imts /\ dget imt curve = Some hz /\ np_max hz = Ok max_poe
    /\ poe ∈ poes /\ ltb max_poe poe = true.

(** The site has a curve, and some requested probability exceeds it. *)
Definition infeasible (curves : list (option (list (string * list F))))
    imtls poes (sid : nat) : Prop :=
  exists curve, curves !! sid = Some (Some curve)
    /\ exceeds_curve curve poes (keys imtls).

(** The inputs [full_disaggregation] builds: a slot in [curves] for every
    site id and, for a site that has a curve, a realization and a complete
    curve. *)
Definition curves_cover (sids : list nat)
    (curves : list (option (list (string * list F)))) (rlzs : list nat)
    imtls : Prop :=
  forall sid, sid ∈ sids -> exists c, curves !! sid = Some c
    /\ forall curve, c = Some curve ->
         is_Some (rlzs !! sid) /\ curve_complete curve (keys imtls).

(** Whether the loop of [check_poes_disagg] keeps the site. *)
Definition site_ok (curves : list (option (list (string * list F))))
    (rlzs : list nat) imtls poes (sid : nat) : bool :=
  match curves !! sid with
  | Some (Some curve) =>
      length (curve_warnings sid (default 0 (rlzs !! sid)) curve poes
                (keys imtls)) =? 0
  | _ => true
  end.

Definition site_warnings (curves : list (option (list (string * list F))))
    (rlzs : list nat) imtls poes (sids : list nat) : list (logrec F) :=
  flat_map (fun sid =>
      match curves !! sid with
      | Some (Some curve) =>
          curve_warnings sid (default 0 (rlzs !! sid)) curve poes (keys imtls)
      | _ => []
      end) sids.
End FeasibilitySpec.

(** ** Vocabulary of the statements about the reduction *)

Section ReduceSpec.
Context {F : Type} `{Arith F}.
Context {K : Type} `{EqDecision K}.

(** [1 - (1 - x) * (1 - y)], what [agg_probs] computes in a cell. *)
Definition agg2 (x y : F) : F := sub one (mul (sub one x) (sub one y)).

(** The updates [acc[key][trti] = ...] a list of task results makes, in
    order: one per item of every result. *)
Definition steps (results : list (task_result F K))
  : list (nat * (K * value F)) :=
  flat_map (fun r => map (pair (trti r)) (items r)) results.

Definition step (acc : list (K * list (nat * value F)))
    (x : nat * (K * value F)) : outcome (list (K * list (nat * value F))) :=
  agg_item x.1 acc x.2.

(** Every matrix a task reports under a key has the shape of that key. *)
Definition well_shaped (shape_of : K -> list nat)
    (results : list (task_result F K)) : Prop :=
  forall r key v, r ∈ results -> (key, v) ∈ items r ->
    exists cells, v = Array (shape_of key) cells.

(** The accumulator seen as the cells stored under each [(key, trti)]. *)
Definition cells_of (v : value F) : list F :=
  match v with Scalar x => [x] | Array _ c => c end.

Definition represents (shape_of : K -> list nat)
    (acc : list (K * list (nat * value F)))
    (g : K -> nat -> option (list F)) : Prop :=
  forall key t, acc_lookup acc key t = Array (shape_of key) <$> g key t.

Definition combine_cells (old : option (list F)) (c : list F) : list F :=
  match old with None => c | Some a => zip_with agg2 a c end.

Definition cells_step (g : K -> nat -> option (list F))
    (x : nat * (K * list F)) : K -> nat -> option (list F) :=
  fun key t =>
    if decide (x.2.1 = key /\ x.1 = t) then Some (combine_cells (g key t) x.2.2)
    else g key t.

Definition cells_steps (xs : list (nat * (K * value F)))
  : list (nat * (K * list F)) :=
  map (fun x => (x.1, (x.2.1, cells_of x.2.2))) xs.
End ReduceSpec.

(** The task result that reports the one-cell matrix [[x]] under key [0]
    for the TRT of index [0]. *)
Definition one_cell_task {F : Type} (x : F) : task_result F nat :=
  {| trti := 0; items := [(0, Array [1] [x])] |}.


(** Stand-ins for what is not in this file, for the worked examples: a
    function of [pmf_map] that returns the matrix it is given, or the first
    slice of a tensor, and reductions that go through the cells in order. *)
Definition probe_pmf (arg : pmf_arg float) : value float :=
  match arg with
  | Tensor6 slices => default (Scalar 0%float) (head slices)
  | Matrix5 m => m
  end.

Definition seq_prod (v : value float) : float :=
  fold_left PrimFloat.mul (cells_of v) 1%float.

Definition seq_mean (l : list float) : float :=
  (fold_left PrimFloat.add l 0 / F64.of_Z (Z.of_nat (length l)))%float.

(** Bin edges fine enough for [65536] bins of magnitude, of distance, of
    longitude and of latitude, and one bin of epsilon, for the site [0]. *)
Definition fine_edges : list float :=
  map (fun k => (0.0001 * F64.of_Z k)%float) (seqZ 0 65537).

Definition fine_bin_edges : bin_edges float :=
  {| mags := fine_edges; dists := fine_edges;
     lons := [(0, fine_edges)]; lats := [(0, fine_edges)];
     eps := [-3; 3]%float |}.

(** ** The rest of [full_disaggregation] *)

Section GetCurves.
Context {F : Type} `{Arith F}.

(** <<
    curves = [self.get_curve(sid, rlzs) for sid in self.sitecol.sids]
    >>
    [get_curve] builds a getter for the site it is given, so the answer
    of the hazard-curve store is a function of the site and of the
    realization. *)
Definition get_curves
    (pgetter_get : nat -> nat -> outcome (list (nat * list (string * list F))))
    (ordinal : nat -> outcome nat)
    (imtls : list (string * list F)) (sids : list nat) (rlzs : list nat)
  : outcome (list (option (list (string * list F))) * list (logrec F)) :=
  for_loop (fun st sid =>
      r <-! get_curve (pgetter_get sid) ordinal imtls sid rlzs ;;
      Ok (st.1 ++ [r.1], st.2 ++ r.2))
    sids ([], []).
End GetCurves.

Section DistEdges.
Context {F : Type} `{Arith F}.

(** Python's [max] of the items of an iterable: [ValueError] when there is
    none; an item replaces the maximum so far when it is [>] than it. *)
Definition py_max (l : list F) : outcome F :=
  match l with
  | [] => Raise ValueError
  | x :: rest => Ok (fold_left (fun m y => if ltb m y then y else m) rest x)
  end.

(** <<
    maxdist = max(oq.maximum_distance(trt, max_mag) for trt in trts)
    dist_edges = oq.distance_bin_width * numpy.arange(
        0, int(numpy.ceil(maxdist / oq.distance_bin_width) + 1))
    >>
    [maxdists] is the list of the [oq.maximum_distance(trt, max_mag)], in
    the order of [trts]. *)
Definition dist_edges (distance_bin_width : F) (maxdists : list F)
  : outcome (list F) :=
  maxdist <-! py_max maxdists ;;
  stop <-! to_int (add (ceil (div maxdist distance_bin_width)) one) ;;
  Ok (map (fun k => mul distance_bin_width (of_int k)) (arange 0 stop)).

(** <<
    lon_edges, lat_edges = {}, {}  # by sid
    for sid, bb in zip(self.sitecol.sids, bbs):
        lon_edges[sid], lat_edges[sid] = disagg.lon_lat_bins(
            bb, oq.coordinate_bin_width)
    >>
    [lon_lat_bins] of [openquake.hazardlib] is given as the function from a
    bounding box and a bin width to the two arrays of edges. *)
Definition lon_lat_edges {B : Type} (lon_lat_bins : B -> F -> list F * list F)
    (sids : list nat) (bbs : list B) (coordinate_bin_width : F)
  : list (nat * list F) * list (nat * list F) :=
  fold_left (fun st sb =>
      let e := lon_lat_bins sb.2 coordinate_bin_width in
      (dset sb.1 e.1 st.1, dset sb.1 e.2 st.2))
    (zip sids bbs) ([], []).
End DistEdges.

(** The unary minus of Python. *)
Class Negate (F : Type) : Type := neg : F -> F.
#[export] Instance float_negate : Negate float := PrimFloat.opp.
#[export] Instance Qc_negate : Negate Qc := Qcopp.

Section EpsEdges.
Context {F : Type} `{Arith F} `{Negate F}.

(** [numpy.linspace(start, stop, num)], with the end point:
    <<
    div = num - 1
    start = asanyarray(start) * 1.0
    stop = asanyarray(stop) * 1.0
    delta = stop - start
    y = arange(0, num, dtype=float)
    if num > 1:
        step = delta / div
        if step == 0:
            y /= div
            y *= delta
        else:
            y *= step
    else:
        y = y * delta
    y += start
    if num > 1:
        y[-1] = stop
    >>
    and [ValueError] for a negative number of samples. *)
Definition linspace (start stop : F) (num : Z) : outcome (list F) :=
  if (num <? 0)%Z then Raise ValueError
  else
    let div_ := of_int (num - 1) in
    let start := mul start one in
    let stop := mul stop one in
    let delta := sub stop start in
    let y := map of_int (arange 0 num) in
    let y :=
      if (1 <? num)%Z then
        let step := div delta div_ in
        if eqb step zero then map (fun v => mul (div v div_) delta) y
        else map (fun v => mul v step) y
      else map (fun v => mul v delta) y in
    let y := map (fun v => add v start) y in
    Ok (if (1 <? num)%Z then <[length y - 1 := stop]> y else y).

(** [eps_edges = numpy.linspace(-tl, tl, oq.num_epsilon_bins + 1)] *)
Definition eps_edges (tl : F) (num_epsilon_bins : Z) : outcome (list F) :=
  linspace (neg tl) tl (num_epsilon_bins + 1).
End EpsEdges.

Section ImlDict.
Context {F P : Type} `{EqDecision P}.

(** <<
    self.imldict = {}  # sid, rlzi, poe, imt -> iml
    for s in self.sitecol.sids:
        iml2 = iml2s[s]
        r = rlzs[s]
        logging.info('Site #%d, disaggregating for rlz=#%d', s, r)
        for p, poe in enumerate(oq.poes_disagg or [None]):
            for m, imt in enumerate(oq.imtls):
                self.imldict[s, r, poe, imt] = iml2[m, p]
    >>
    [P] is the type of the requested probabilities as keys of a
    dictionary; [None] is the key used when there is none.  The arrays
    [iml2] are given as their rows.  The second component of the state is
    the list of the pairs [(s, r)] that were logged. *)
Definition poe_keys (poes_disagg : list P) : list (option P) :=
  match poes_disagg with
  | [] => [None]
  | _ :: _ => Some <$> poes_disagg
  end.

(** <<
    if oq.iml_disagg:
        self.poe_id = {None: 0}
        ...
    else:
        self.poe_id = {poe: i for i, poe in enumerate(oq.poes_disagg)}
    >>
    [iml_disagg] is the truth value of [oq.iml_disagg]. *)
Definition poe_id (iml_disagg : bool) (poes_disagg : list P)
  : list (option P * nat) :=
  if iml_disagg then [(None, 0)]
  else fold_left (fun d ip => dset (Some ip.2) ip.1 d) (enumerate poes_disagg) [].

Definition store_iml (s r : nat) (iml2 : list (list F)) (p : nat)
    (poe : option P) (d : list (nat * nat * option P * string * F))
    (mi : nat * string)
  : outcome (list (nat * nat * option P * string * F)) :=
  row <-! of_option IndexError (iml2 !! mi.1) ;;
  x <-! of_option IndexError (row !! p) ;;
  Ok (dset (s, r, poe, mi.2) x d).

Definition imldict_site (iml2s : list (list (list F))) (rlzs : list nat)
    (poes_disagg : list P) (imts : list string)
    (st : list (nat * nat * option P * string * F) * list (nat * nat))
    (s : nat)
  : outcome (list (nat * nat * option P * string * F) * list (nat * nat)) :=
  iml2 <-! of_option IndexError (iml2s !! s) ;;
  r <-! of_option IndexError (rlzs !! s) ;;
  d <-! for_loop (fun d pp =>
          for_loop (store_iml s r iml2 pp.1 pp.2) (enumerate imts) d)
        (enumerate (poe_keys poes_disagg)) st.1 ;;
  Ok (d, st.2 ++ [(s, r)]).

Definition build_imldict (sids : list nat) (iml2s : list (list (list F)))
    (rlzs : list nat) (poes_disagg : list P) (imts : list string)
  : outcome (list (nat * nat * option P * string * F) * list (nat * nat)) :=
  for_loop (imldict_site iml2s rlzs poes_disagg imts) sids ([], []).
End ImlDict.

(** ** The task ([compute_disagg]) *)

Section ComputeDisagg.
Context {F P SC : Type} `{EqDecision P}.
(** [sitecol.filtered(ok_sites)] and [disagg.build_matrices(rupdata,
    sitecol, cmaker, iml2s, ...)], which are not in this file: the second
    yields, per site, the matrices by [(poe, imt, rlz)]; what it reads
    besides the sites and the intensities is fixed for a task. *)
Variable filtered : SC -> list nat -> SC.
Variable build_matrices : SC -> list iml2_wrapper ->
  outcome (list (nat * list (P * string * nat * value F))).

(** [[iml2s[s] for s in ok_sites]] *)
Definition select_sites {A} (iml2s : list A) (ok_sites : list nat)
  : outcome (list A) :=
  for_loop (fun sel s => x <-! of_option IndexError (iml2s !! s) ;;
                         Ok (sel ++ [x])) ok_sites [].

(** [result[sid, rlz, poe, imt] = matrix], for the items of one site. *)
Definition store_site (result : list (nat * nat * P * string * value F))
    (sr : nat * list (P * string * nat * value F))
  : list (nat * nat * P * string * value F) :=
  fold_left (fun d kv => dset (sr.1, kv.1.2, kv.1.1.1, kv.1.1.2) kv.2 d)
    sr.2 result.

(** <<
    def compute_disagg(dstore, slc, cmaker, iml2s, trti, bin_edges, monitor):
        ...
        ok_sites = dstore.get_attr('sitecol', 'ok_sites')
        sitecol = dstore['sitecol']
        if len(ok_sites):
            sitecol = sitecol.filtered(ok_sites)
            iml2s = [iml2s[s] for s in ok_sites]
        ...
        result = {'trti': trti}
        ...
        for sid, res in disagg.build_matrices(
                rupdata, sitecol, cmaker, iml2s, oqparam.truncation_level,
                oqparam.num_epsilon_bins, bin_edges, pne_mon, mat_mon):
            for (poe, imt, rlz), matrix in res.items():
                result[sid, rlz, poe, imt] = matrix
        return result  # sid, rlz, poe, imt -> array
    >> *)
Definition compute_disagg (ok_sites : list nat) (sitecol : SC)
    (iml2s : list iml2_wrapper) (trti : nat)
  : outcome (task_result F (nat * nat * P * string)) :=
  args <-! match ok_sites with
           | [] => Ok (sitecol, iml2s)
           | _ :: _ =>
               sel <-! select_sites iml2s ok_sites ;;
               Ok (filtered sitecol ok_sites, sel)
           end ;;
  res <-! build_matrices args.1 args.2 ;;
  Ok {| trti := trti; items := fold_left store_site res [] |}.
End ComputeDisagg.

(** ** Saving the results ([post_execute]) *)

Section PostExecute.
Context {F : Type} `{Arith F}.
Context {K : Type} `{EqDecision K}.

(** [results = {k: _to_matrix(v, T) for k, v in results.items()}] *)
Definition to_matrices (results : list (K * list (nat * value F))) (T : nat)
  : outcome (list (K * list (value F))) :=
  for_loop (fun out kv => mat <-! _to_matrix kv.2 T ;; Ok (dset kv.1 mat out))
    results [].
End PostExecute.

(** ** Vocabulary of the statements about the pipeline *)

Section PipelineSpec.
Context {F : Type} `{Arith F}.

(** [1 - (1 - p1) ... (1 - pn)], the formula of the docstring of
    [agg_probs]. *)
Definition compl_prod (ps : list F) : F :=
  sub one (fold_left (fun acc p => mul acc (sub one p)) ps one).

(** The cells of index [i] of a list of arrays, in order. *)
Definition column (i : nat) (cs : list (list F)) : list F :=
  omap (fun c => c !! i) cs.

(** An array that has as many cells as its shape says. *)
Definition full_array (shp : list nat) (v : value F) : Prop :=
  exists c, v = Array shp c /\ length c = foldr Nat.mul 1 shp.

(** The true number of cells of the matrix of a site: the product of the
    numbers of bins, as an integer without bounds. *)
Definition matrix_cells (b : bin_edges F) (trts : list string) (sid : nat)
  : option Z :=
  match get_bins b sid with
  | Ok bins =>
      Some (foldr Z.mul 1%Z
              (map (fun bin => (Z.of_nat (length bin) - 1)%Z) bins
                 ++ [Z.of_nat (length trts)]))
  | Raise _ => None
  end.
End PipelineSpec.

(** The character [c] occurs in the string [s]. *)
Fixpoint occurs (c : Ascii.ascii) (s : string) : bool :=
  match s with
  | EmptyString => false
  | String c' s' => Ascii.eqb c c' || occurs c s'
  end.

Section WritesSpec.
Context {K V : Type} `{EqDecision K}.

(** A piece of code that takes the dictionary [d] to [d'] only writes:
    every item of [d'] was in [d] or is one of the items [W], no key is
    lost or duplicated, and the keys [T] are in [d']. *)
Definition dict_writes (W : K -> V -> Prop) (T : K -> Prop)
    (d d' : list (K * V)) : Prop :=
  (forall k x, dget k d' = Some x -> dget k d = Some x \/ W k x)
  /\ (forall k, k ∈ keys d -> k ∈ keys d')
  /\ (NoDup (keys d) -> NoDup (keys d'))
  /\ (forall k, T k -> k ∈ keys d').
End WritesSpec.

Section DenseSpec.
Context {F K : Type} `{EqDecision K}.

(** The entries of the accumulator are dictionaries that are not empty,
    of matrices of the shape of their key, under TRT indices in range. *)
Definition acc_dense (shape_of : K -> list nat) (T : nat)
    (acc : list (K * list (nat * value F))) : Prop :=
  NoDup (keys acc)
  /\ forall key dic, dget key acc = Some dic ->
       dic <> []
       /\ forall t m, dget t dic = Some m ->
            t < T /\ exists c, m = Array (shape_of key) c.

(** Two accumulators that hold the same matrices. *)
Definition same_cells (acc acc' : list (K * list (nat * value F))) : Prop :=
  forall key t, acc_lookup acc key t = acc_lookup acc' key t.
End DenseSpec.

(** * Properties *)

(** ** Dictionaries and loops *)

Section DictFacts.
Context {K V : Type} `{EqDecision K}.
Implicit Types (d : list (K * V)) (k : K) (v : V).

Lemma dget_dset_eq k v d : dget k (dset k v d) = Some v.
Proof.
  induction d as [|[k' v'] d IH]; simpl.
  - by rewrite decide_True.
  - destruct (decide (k = k')) as [->|Hne]; simpl.
    + by rewrite decide_True.
    + by rewrite decide_False.
Qed.

Lemma dget_dset_ne k k' v d : k <> k' -> dget k' (dset k v d) = dget k' d.
Proof.
  intros Hne. induction d as [|[k0 v0] d IH]; simpl.
  - by rewrite decide_False.
  - destruct (decide (k = k0)) as [->|Hne0]; simpl.
    + by rewrite !decide_False.
    + destruct (decide (k' = k0)); [done|apply IH].
Qed.

Lemma dget_Some_keys k d : is_Some (dget k d) <-> k ∈ keys d.
Proof.
  induction d as [|[k' v'] d IH]; simpl.
  - split; [intros [? [=]]|by intros ?%elem_of_nil].
  - destruct (decide (k = k')) as [->|Hne].
    + split; [intros _; apply list_elem_of_here|by eexists].
    + rewrite IH. split; [by apply list_elem_of_further|].
      by intros [?|?]%elem_of_cons.
Qed.

Lemma dget_elem_of k v d : dget k d = Some v -> (k, v) ∈ d.
Proof.
  induction d as [|[k' v'] d IH]; simpl; [done|].
  destruct (decide (k = k')) as [->|Hne].
  - intros [= ->]. apply list_elem_of_here.
  - intros ?. by apply list_elem_of_further, IH.
Qed.
End DictFacts.

Lemma rbind_Ok {A B} (r : outcome A) (k : A -> outcome B) (b : B) :
  rbind r k = Ok b <-> exists a, r = Ok a /\ k a = Ok b.
Proof.
  destruct r as [a|e]; simpl.
  - split; [by exists a|by intros (? & [= <-] & ?)].
  - split; [done|by intros (? & [=] & _)].
Qed.

Lemma for_loop_app {A S} (body : S -> A -> outcome S) (l1 l2 : list A) (s : S) :
  for_loop body (l1 ++ l2) s = rbind (for_loop body l1 s) (for_loop body l2).
Proof.
  revert s. induction l1 as [|x l1 IH]; intros s; simpl; [done|].
  destruct (body s x); simpl; [apply IH|done].
Qed.

(** ** Densification ([_to_matrix]) and the separation of the TRT slots *)

Section ToMatrix.
Context {F : Type} `{Arith F}.

(** The loop of [_to_matrix] over any list of keys that are in range and
    hold arrays of the expected shape: it ends, and every slot named in the
    list holds the matrix of that key; the other slots are untouched. *)
Lemma store_slice_loop (matrices : list (nat * value F)) (T : nat)
    (shp : list nat) (ks : list nat) (mat : list (value F)) :
  length mat = T ->
  (forall t, t ∈ ks -> t < T /\ exists c, dget t matrices = Some (Array shp c)) ->
  exists mat', for_loop (store_slice matrices T shp) ks mat = Ok mat'
    /\ length mat' = T
    /\ (forall t, t ∈ ks -> mat' !! t = dget t matrices)
    /\ (forall t, t ∉ ks -> mat' !! t = mat !! t).
Proof.
  revert mat. induction ks as [|k ks IH]; intros mat Hlen Hks.
  - exists mat. repeat split; [done|]. by intros t ?%elem_of_nil.
  - destruct (Hks k) as (Hk & c & Hc); [apply list_elem_of_here|].
    destruct (IH (<[k := Array shp c]> mat)) as (mat' & Hrun & Hlen' & Hin & Hout).
    { by rewrite length_insert. }
    { intros t Ht. apply Hks. by apply list_elem_of_further. }
    exists mat'. split; [|split; [done|split]].
    + simpl. unfold store_slice at 1. rewrite Hc. simpl.
      rewrite decide_True by done. simpl. by rewrite decide_True.
    + intros t [->|Ht]%elem_of_cons; [|by apply Hin].
      destruct (decide (k ∈ ks)) as [Hkin|Hkout]; [by apply Hin|].
      rewrite Hout by done. rewrite list_lookup_insert_eq by lia. done.
    + intros t Ht. rewrite Hout.
      * apply list_lookup_insert_ne. intros ->. apply Ht, list_elem_of_here.
      * intros ?. by apply Ht, list_elem_of_further.
Qed.

Context {K : Type} `{EqDecision K}.



End ToMatrix.


(** ** Feasibility of the target probabilities ([check_poes_disagg]) *)

Section Feasibility.
Context {F : Type} `{Arith F}.
Implicit Types (curve imtls : list (string * list F)) (poes : list F).

Lemma poes_loop (sid rlz : nat) (imt : string) (max_poe : F) poes
    (st : nat * list (logrec F)) :
  fold_left (fun (st : nat * list (logrec F)) poe =>
      if ltb max_poe poe
      then (S st.1, st.2 ++ [PoeTooBig sid poe max_poe rlz imt])
      else st) poes st
  = (st.1 + length (imt_warnings sid rlz imt max_poe poes),
     st.2 ++ imt_warnings sid rlz imt max_poe poes).
Proof.
  revert st. unfold imt_warnings.
  induction poes as [|poe poes IH]; intros [n log]; simpl.
  - by rewrite Nat.add_0_r, app_nil_r.
  - destruct (ltb max_poe poe); rewrite IH; simpl; [|done].
    by rewrite <- app_assoc, Nat.add_succ_r.
Qed.

Lemma check_curve_run (sid rlz : nat) curve imtls poes :
  curve_complete curve (keys imtls) ->
  _check_curve sid rlz curve imtls poes
  = Ok (negb (length (curve_warnings sid rlz curve poes (keys imtls)) =? 0),
        curve_warnings sid rlz curve poes (keys imtls)).
Proof.
  unfold _check_curve. generalize (keys imtls) as imts. intros imts Hc.
  enough (Hloop : forall st : nat * list (logrec F),
    for_loop (fun (st : nat * list (logrec F)) imt =>
        hz <-! of_option KeyError (dget imt curve) ;;
        max_poe <-! np_max hz ;;
        Ok (fold_left (fun (st : nat * list (logrec F)) poe =>
              if ltb max_poe poe
              then (S st.1, st.2 ++ [PoeTooBig sid poe max_poe rlz imt])
              else st) poes st)) imts st
    = Ok (st.1 + length (curve_warnings sid rlz curve poes imts),
          st.2 ++ curve_warnings sid rlz curve poes imts)).
  { by rewrite Hloop. }
  induction imts as [|imt imts IH]; intros [n log]; simpl.
  - by rewrite Nat.add_0_r, app_nil_r.
  - destruct (Hc imt) as (x & rest & Hget); [apply list_elem_of_here|].
    rewrite Hget. simpl. rewrite poes_loop, IH.
    + simpl. by rewrite length_app, <- app_assoc, Nat.add_assoc.
    + intros i Hi. apply Hc. by apply list_elem_of_further.
Qed.

Lemma curve_warnings_nil (sid rlz : nat) curve poes (imts : list string) :
  curve_complete curve imts ->
  curve_warnings sid rlz curve poes imts <> [] <-> exceeds_curve curve poes imts.
Proof.
  intros Hc. unfold exceeds_curve. induction imts as [|imt imts IH]; simpl.
  - split; [done|]. by intros (? & ? & ? & ? & ?%elem_of_nil & _).
  - destruct (Hc imt) as (x & rest & Hget); [apply list_elem_of_here|].
    rewrite Hget.
    assert (Hc' : curve_complete curve imts).
    { intros i Hi. apply Hc. by apply list_elem_of_further. }
    specialize (IH Hc'). split.
    + intros Hne.
      destruct (imt_warnings sid rlz imt (fold_left maximum rest x) poes)
        as [|w ws] eqn:Hw.
      * simpl in Hne. apply IH in Hne as (i & hz & mx & poe & Hi & ?).
        exists i, hz, mx, poe. split; [by apply list_elem_of_further|done].
      * unfold imt_warnings in Hw.
        destruct (List.filter _ poes) as [|poe ps] eqn:Hf; [done|].
        assert (Hin : In poe (List.filter
                  (fun poe => ltb (fold_left maximum rest x) poe) poes)).
        { rewrite Hf. by left. }
        apply filter_In in Hin as [Hin Hlt].
        exists imt, (x :: rest), (fold_left maximum rest x), poe.
        repeat split; [apply list_elem_of_here|done|by apply list_elem_of_In|done].
    + intros (i & hz & mx & poe & Hi & Hhz & Hmx & Hpoe & Hlt).
      apply elem_of_cons in Hi as [->|Hi].
      * rewrite Hget in Hhz. injection Hhz as <-. simpl in Hmx.
        injection Hmx as <-.
        assert (Hin : In poe (List.filter
                  (fun poe => ltb (fold_left maximum rest x) poe) poes)).
        { apply filter_In. split; [by apply list_elem_of_In|done]. }
        unfold imt_warnings.
        destruct (List.filter _ poes); [done|]. done.
      * intros [_ Heq]%app_eq_nil. revert Heq. apply IH.
        by exists i, hz, mx, poe.
Qed.

Lemma curve_warnings_shape (sid rlz : nat) curve poes (imts : list string) w :
  w ∈ curve_warnings sid rlz curve poes imts ->
  exists poe max_poe imt, w = PoeTooBig sid poe max_poe rlz imt.
Proof.
  unfold curve_warnings. rewrite list_elem_of_In, in_flat_map.
  intros (imt & _ & Hw). destruct (dget imt curve) as [[|x rest]|]; [done| |done].
  unfold imt_warnings in Hw. apply in_map_iff in Hw as (poe & <- & _). eauto.
Qed.

Lemma collect_ok_sites_run (sids : list nat) imtls poes
    (curves : list (option (list (string * list F)))) (rlzs : list nat) :
  curves_cover sids curves rlzs imtls ->
  collect_ok_sites sids imtls poes curves rlzs
  = Ok (List.filter (site_ok curves rlzs imtls poes) sids,
        site_warnings curves rlzs imtls poes sids).
Proof.
  unfold collect_ok_sites. intros Hwf.
  enough (Hloop : forall st : list nat * list (logrec F),
    for_loop (check_site imtls poes curves rlzs) sids st
    = Ok (st.1 ++ List.filter (site_ok curves rlzs imtls poes) sids,
          st.2 ++ site_warnings curves rlzs imtls poes sids)).
  { by rewrite Hloop. }
  induction sids as [|sid sids IH]; intros [oks log].
  - simpl. by rewrite !app_nil_r.
  - assert (Hwf' : curves_cover sids curves rlzs imtls).
    { intros i Hi. apply Hwf. by apply list_elem_of_further. }
    destruct (Hwf sid) as (c & Hc & Hcurve); [apply list_elem_of_here|].
    assert (Hfilter : List.filter (site_ok curves rlzs imtls poes) (sid :: sids)
              = if site_ok curves rlzs imtls poes sid
                then sid :: List.filter (site_ok curves rlzs imtls poes) sids
                else List.filter (site_ok curves rlzs imtls poes) sids) by done.
    rewrite Hfilter. unfold site_ok at 1, site_warnings.
    cbn [for_loop flat_map]. fold (site_warnings curves rlzs imtls poes sids).
    unfold check_site at 1. rewrite Hc. cbn [of_option rbind]. destruct c as [curve|].
    + destruct (Hcurve curve eq_refl) as ([rlz Hrlz] & Hcomplete).
      rewrite Hrlz. cbn [of_option rbind default].
      rewrite check_curve_run by done. cbn [rbind fst snd].
      etransitivity; [apply (IH Hwf')|]. cbn [fst snd id].
      destruct (length _ =? 0); cbn [negb]; by rewrite <- !app_assoc.
    + etransitivity; [apply (IH Hwf')|]. cbn [fst snd].
      by rewrite <- app_assoc, app_nil_l.
Qed.

Lemma site_ok_spec (sids : list nat) imtls poes
    (curves : list (option (list (string * list F)))) (rlzs : list nat) sid :
  curves_cover sids curves rlzs imtls -> sid ∈ sids ->
  site_ok curves rlzs imtls poes sid = true
  <-> ~ infeasible curves imtls poes sid.
Proof.
  intros Hwf Hsid. destruct (Hwf sid Hsid) as (c & Hc & Hcurve).
  unfold site_ok, infeasible. rewrite Hc. destruct c as [curve|].
  - destruct (Hcurve curve eq_refl) as (_ & Hcomplete).
    rewrite Nat.eqb_eq, length_zero_iff_nil. split.
    + intros Hnil (curve' & [= <-] & Hex).
      by apply (curve_warnings_nil sid (default 0 (rlzs !! sid))) in Hex.
    + intros Hno.
      destruct (curve_warnings sid (default 0 (rlzs !! sid)) curve poes
                  (keys imtls)) as [|w ws] eqn:Hw; [done|].
      exfalso. apply Hno. exists curve. split; [done|].
      apply (curve_warnings_nil sid (default 0 (rlzs !! sid))); [done|].
      by rewrite Hw.
  - split; [|done]. by intros _ (curve & [=] & _).
Qed.

(** C3. In probability mode, on the inputs [full_disaggregation] builds,
    the loop of [check_poes_disagg] keeps a site out of [ok_sites] exactly
    when the site has a hazard curve and, for some IMT and some requested
    probability, that probability is strictly greater than the maximum of
    the curve of that IMT; such a site gets a [POE_TOO_BIG] warning in the
    log and the loop goes on.  [check_poes_disagg] raises
    [SystemExit('Cannot do any disaggregation')] if and only if [ok_sites]
    is empty; when it is not, no [SystemExit] is raised at all. *)
Theorem check_poes_disagg_flags_infeasible_sites (sitecol_is_mapping : bool)
    (sids : list nat) (N : nat) imtls poes
    (curves : list (option (list (string * list F)))) (rlzs : list nat) :
  curves_cover sids curves rlzs imtls ->
  exists ok_sites log,
    collect_ok_sites sids imtls poes curves rlzs = Ok (ok_sites, log)
    /\ (forall sid, sid ∈ ok_sites
          <-> sid ∈ sids /\ ~ infeasible curves imtls poes sid)
    /\ (forall sid, sid ∈ sids -> infeasible curves imtls poes sid ->
          exists poe max_poe rlz imt,
            PoeTooBig sid poe max_poe rlz imt ∈ log)
    /\ (check_poes_disagg sitecol_is_mapping sids N imtls poes curves rlzs
          = Raise (SystemExit "Cannot do any disaggregation")
        <-> ok_sites = [])
    /\ (ok_sites <> [] -> forall msg,
          check_poes_disagg sitecol_is_mapping sids N imtls poes curves rlzs
            <> Raise (SystemExit msg)).
Proof.
  intros Hwf. eexists _, _. split; [by apply collect_ok_sites_run|].
  split; [|split; [|split]].
  - intros sid. rewrite list_elem_of_In, filter_In, <- list_elem_of_In. split.
    + intros [Hsid Hok]. split; [done|]. by eapply site_ok_spec.
    + intros [Hsid Hok]. split; [done|]. by eapply site_ok_spec.
  - intros sid Hsid (curve & Hc & Hex).
    destruct (Hwf sid Hsid) as (c & Hc' & Hcurve). rewrite Hc in Hc'.
    injection Hc' as <-. destruct (Hcurve curve eq_refl) as (_ & Hcomplete).
    apply (curve_warnings_nil sid (default 0 (rlzs !! sid))) in Hex; [|done].
    destruct (curve_warnings sid (default 0 (rlzs !! sid)) curve poes
                (keys imtls)) as [|w ws] eqn:Hw; [done|].
    destruct (curve_warnings_shape sid (default 0 (rlzs !! sid)) curve poes
                (keys imtls) w) as (poe & mx & imt & ->).
    { rewrite Hw. apply list_elem_of_here. }
    exists poe, mx, (default 0 (rlzs !! sid)), imt.
    unfold site_warnings. rewrite list_elem_of_In, in_flat_map.
    exists sid. split; [by apply list_elem_of_In|].
    rewrite Hc, Hw. by left.
  - unfold check_poes_disagg. rewrite collect_ok_sites_run by done. simpl.
    destruct (List.filter _ sids) as [|s oks]; [done|].
    split; [|done].
    destruct (length (s :: oks) <? N); [destruct sitecol_is_mapping|]; done.
  - intros Hne msg.
    unfold check_poes_disagg. rewrite collect_ok_sites_run by done. simpl.
    destruct (List.filter _ sids) as [|s oks]; [done|].
    destruct (length (s :: oks) <? N); [destruct sitecol_is_mapping|]; done.
Qed.

End Feasibility.

(** With the integer realizations of [full_disaggregation], reading
    [rlz.ordinal] fails: for empty curves and for a curve of zeros
    [get_curve] raises [AttributeError] where it means to return [None]. *)
Remark get_curve_int_ordinal {F : Type} `{Arith F}
    (pgetter_get : nat -> outcome (list (nat * list (string * list F))))
    (imtls : list (string * list F)) (s rlz : nat) (rlz_by_sid : list nat) :
  rlz_by_sid !! s = Some rlz ->
  (pgetter_get rlz = Raise ValueError ->
     get_curve pgetter_get int_ordinal imtls s rlz_by_sid = Raise AttributeError)
  /\ (forall pmap crv imt, pgetter_get rlz = Ok pmap -> dget s pmap = Some crv ->
        all_zero_imt crv (keys imtls) = Ok (Some imt) ->
        get_curve pgetter_get int_ordinal imtls s rlz_by_sid
          = Raise AttributeError).
Proof.
  intros Hrlz. unfold get_curve. rewrite Hrlz. cbn [of_option rbind]. split.
  - by intros ->.
  - by intros pmap crv imt -> -> ->.
Qed.

Lemma check_poes_disagg_flags_infeasible_sites_witness :
  exists ok_sites log,
    collect_ok_sites [0; 1] [("PGA", [0.1; 0.2]%float)] [0.02%float]
      [Some [("PGA", [0.004; 0.005]%float)]; None] [0; 0] = Ok (ok_sites, log)
    /\ ok_sites <> [].
Proof.
  destruct (check_poes_disagg_flags_infeasible_sites true [0; 1] 2
              [("PGA", [0.1; 0.2]%float)] [0.02%float]
              [Some [("PGA", [0.004; 0.005]%float)]; None] [0; 0])
    as (oks & log & Hrun & _ & _ & Hexit & _).
  - intros sid Hin.
    repeat (apply elem_of_cons in Hin as [->|Hin]); [| |by apply elem_of_nil in Hin].
    + eexists. split; [done|]. intros curve [= <-]. split; [by eexists|].
      intros imt Himt. apply elem_of_cons in Himt as [->|Himt];
        [by eexists _, _|by apply elem_of_nil in Himt].
    + eexists. split; [done|]. by intros curve [=].
  - exists oks, log. split; [done|]. intros Hnil. apply Hexit in Hnil.
    vm_compute in Hnil. discriminate Hnil.
Defined.


(** ** The algebra of [agg_probs] *)

(** Multiplication of doubles is commutative: the specification of the
    product is symmetric in its operands. *)
Lemma SFmul_comm (prec emax : Z) (x y : spec_float) :
  SFmul prec emax x y = SFmul prec emax y x.
Proof.
  destruct x as [sx|sx| |sx mx ex], y as [sy|sy| |sy my ey]; simpl;
    rewrite ?(xorb_comm sx sy); try reflexivity.
  by rewrite (Pos.mul_comm mx my), (Z.add_comm ex ey).
Qed.

Lemma float_mul_comm (x y : float) : (x * y = y * x)%float.
Proof.
  apply Prim2SF_inj. rewrite !mul_spec. apply SFmul_comm.
Qed.

Section ValueAlgebra.
Context {F : Type} `{Arith F}.
Implicit Types (a b c : value F) (x y z : F).

Lemma zip_with_comm_ext (f : F -> F -> F) (l k : list F) :
  (forall x y, f x y = f y x) -> zip_with f l k = zip_with f k l.
Proof.
  intros Hf. revert k. induction l as [|x l IH]; intros [|y k]; simpl; [done..|].
  by rewrite Hf, IH.
Qed.

Lemma vmul_comm a b :
  (forall x y, mul x y = mul y x) -> vmul a b = vmul b a.
Proof.
  intros Hmul. destruct a as [x|s c], b as [y|s' c']; simpl.
  - by rewrite Hmul.
  - f_equal. f_equal. apply map_ext. intros; apply Hmul.
  - f_equal. f_equal. apply map_ext. intros; apply Hmul.
  - destruct (decide (s = s')) as [->|Hne].
    + rewrite decide_True by done. by rewrite (zip_with_comm_ext mul c c').
    + by rewrite decide_False.
Qed.

(** [agg_probs(a, b)] unfolded. *)
Lemma agg_probs_pair a b :
  agg_probs [a; b] = (m <-! vmul (vcompl a) (vcompl b) ;; Ok (vcompl m)).
Proof. simpl. by destruct (vmul (vcompl a) (vcompl b)). Qed.

Lemma agg_probs_comm a b :
  (forall x y, mul x y = mul y x) -> agg_probs [a; b] = agg_probs [b; a].
Proof. intros Hmul. by rewrite !agg_probs_pair, (vmul_comm _ _ Hmul). Qed.

(** On two arrays of one shape [agg_probs] is [agg2], cell by cell. *)
Lemma agg_probs_arrays (s : list nat) (ca cb : list F) :
  agg_probs [Array s ca; Array s cb] = Ok (Array s (zip_with agg2 ca cb)).
Proof.
  simpl. rewrite decide_True by done. simpl. do 2 f_equal.
  revert cb. induction ca as [|x ca IH]; intros [|y cb]; simpl; [done..|].
  by rewrite IH.
Qed.


(** On the default [0] of [acc[key].get(trti, 0)] and an array. *)
Lemma agg_probs_zero_array (s : list nat) (cb : list F) :
  agg_probs [Scalar zero; Array s cb] = Ok (Array s (map (agg2 zero) cb)).
Proof. simpl. by rewrite !map_map. Qed.

End ValueAlgebra.

(** ** Order independence of the reduction, in exact arithmetic *)

Section ExactReduce.
Context {F : Type} `{Arith F}.
Context {K : Type} `{EqDecision K}.
Implicit Types (acc : list (K * list (nat * value F))) (x y z : F).

(** The laws of arithmetic the section relies on; they hold without
    rounding. *)
Hypothesis mul_comm : forall x y, mul x y = mul y x.
Hypothesis mul_assoc : forall x y z, mul (mul x y) z = mul x (mul y z).
Hypothesis compl_invol : forall x, sub one (sub one x) = x.
Hypothesis mul_one_l : forall x, mul (sub one zero) x = x.

Lemma agg2_comm x y : agg2 x y = agg2 y x.
Proof using mul_comm. unfold agg2. by rewrite mul_comm. Qed.

Lemma agg2_zero x : agg2 zero x = x.
Proof using compl_invol mul_one_l. unfold agg2. by rewrite mul_one_l. Qed.

Lemma agg2_right_comm x y z : agg2 (agg2 x y) z = agg2 (agg2 x z) y.
Proof using mul_comm mul_assoc compl_invol.
  unfold agg2. rewrite !compl_invol. f_equal.
  rewrite !mul_assoc. f_equal. apply mul_comm.
Qed.

Lemma vcompl_invol (a : value F) : vcompl (vcompl a) = a.
Proof using compl_invol.
  destruct a as [x|s c]; simpl; [by rewrite compl_invol|].
  f_equal. rewrite map_map. rewrite <- (map_id c) at 2.
  apply map_ext. intros; apply compl_invol.
Qed.

Lemma zip_with_mul_assoc (c1 c2 c3 : list F) :
  zip_with mul (zip_with mul c1 c2) c3 = zip_with mul c1 (zip_with mul c2 c3).
Proof using mul_assoc.
  revert c2 c3. induction c1 as [|x c1 IH]; intros [|y c2] [|z c3]; simpl; try done.
  by rewrite mul_assoc, IH.
Qed.

Lemma vmul_assoc (a b c : value F) :
  rbind (vmul a b) (fun m => vmul m c) = rbind (vmul b c) (fun m => vmul a m).
Proof using mul_assoc.
  destruct a as [x|s1 c1], b as [y|s2 c2], c as [z|s3 c3]; simpl.
  - by rewrite mul_assoc.
  - rewrite map_map. do 2 f_equal. apply map_ext. intros; apply mul_assoc.
  - rewrite !map_map. do 2 f_equal. apply map_ext. intros; apply mul_assoc.
  - destruct (decide (s2 = s3)) as [->|Hne]; simpl; [|done]. do 2 f_equal.
    clear -mul_assoc. revert c3.
    induction c2 as [|u c2 IH]; intros [|v c3]; simpl; try done.
    by rewrite mul_assoc, IH.
  - rewrite !map_map. do 2 f_equal. apply map_ext. intros; apply mul_assoc.
  - destruct (decide (s1 = s3)) as [->|Hne]; simpl; [|done]. do 2 f_equal.
    clear -mul_assoc. revert c3.
    induction c1 as [|u c1 IH]; intros [|v c3]; simpl; try done.
    by rewrite mul_assoc, IH.
  - destruct (decide (s1 = s2)) as [->|Hne]; simpl; [|done]. do 2 f_equal.
    clear -mul_assoc. revert c2.
    induction c1 as [|u c1 IH]; intros [|v c2]; simpl; try done.
    by rewrite mul_assoc, IH.
  - destruct (decide (s1 = s2)) as [->|Hne12]; simpl.
    + destruct (decide (s2 = s3)) as [->|Hne23]; simpl; [|done].
      rewrite decide_True by done. by rewrite zip_with_mul_assoc.
    + destruct (decide (s2 = s3)) as [->|Hne23]; simpl; [|done].
      by rewrite decide_False.
Qed.

(** Associativity of the aggregation, on scalars and arrays alike. *)
Lemma agg_probs_assoc (a b c : value F) :
  rbind (agg_probs [a; b]) (fun ab => agg_probs [ab; c])
  = rbind (agg_probs [b; c]) (fun bc => agg_probs [a; bc]).
Proof using mul_assoc compl_invol.
  rewrite !agg_probs_pair.
  transitivity (rbind (rbind (vmul (vcompl a) (vcompl b))
                        (fun m => vmul m (vcompl c)))
                  (fun m => Ok (vcompl m))).
  - destruct (vmul (vcompl a) (vcompl b)) as [m|e]; cbn [rbind]; [|done].
    by rewrite agg_probs_pair, vcompl_invol.
  - rewrite vmul_assoc.
    destruct (vmul (vcompl b) (vcompl c)) as [m|e]; cbn [rbind]; [|done].
    by rewrite agg_probs_pair, vcompl_invol.
Qed.

Lemma for_loop_map {A B S} (f : A -> B) (body : S -> B -> outcome S)
    (l : list A) (s : S) :
  for_loop body (map f l) s = for_loop (fun s a => body s (f a)) l s.
Proof.
  revert s. induction l as [|a l IH]; intros s; simpl; [done|].
  destruct (body s (f a)); simpl; [apply IH|done].
Qed.

(** The reduction is one loop over the updates of all the results. *)
Lemma reduce_steps (results : list (task_result F K)) acc :
  for_loop agg_result results acc = for_loop step (steps results) acc.
Proof.
  revert acc. induction results as [|r rs IH]; intros acc; [done|].
  unfold steps. cbn [for_loop flat_map]. fold (steps rs).
  rewrite for_loop_app. unfold agg_result at 1. rewrite for_loop_map.
  unfold step at 1. cbn [fst snd].
  destruct (for_loop _ (items r) acc); cbn [rbind]; [apply IH|done].
Qed.

Lemma dget_accum_get acc (key : K) (t : nat) :
  dget t (accum_get key acc) = acc_lookup acc key t.
Proof. unfold accum_get, acc_lookup. by destruct (dget key acc). Qed.

(** What an update writes. *)
Lemma agg_item_lookup (t : nat) acc (key : K) (v v' : value F) :
  agg_probs [default (Scalar zero) (acc_lookup acc key t); v] = Ok v' ->
  exists acc', agg_item t acc (key, v) = Ok acc'
    /\ forall key' t', acc_lookup acc' key' t'
         = if decide (key = key' /\ t = t') then Some v'
           else acc_lookup acc key' t'.
Proof.
  intros Hagg. unfold agg_item. cbn [fst snd]. rewrite dget_accum_get, Hagg.
  eexists. split; [done|]. intros key' t'. unfold acc_lookup at 1.
  destruct (decide (key = key')) as [<-|Hk].
  - rewrite dget_dset_eq. cbn. destruct (decide (t = t')) as [<-|Ht].
    + rewrite dget_dset_eq. by rewrite decide_True.
    + rewrite dget_dset_ne by done. rewrite dget_accum_get.
      rewrite decide_False; [done|]. by intros [_ ?].
  - rewrite dget_dset_ne by done. rewrite decide_False; [done|]. by intros [? _].
Qed.

(** An update of a well-shaped accumulator by a matrix of the right shape
    succeeds, and acts on the cells as [cells_step]. *)
Lemma agg_item_cells (shape_of : K -> list nat) (t : nat) acc
    (g : K -> nat -> option (list F)) (key : K) (c : list F) :
  represents shape_of acc g ->
  exists acc', agg_item t acc (key, Array (shape_of key) c) = Ok acc'
    /\ represents shape_of acc' (cells_step g (t, (key, c))).
Proof using compl_invol mul_one_l.
  intros Hrep.
  destruct (agg_item_lookup t acc key (Array (shape_of key) c)
              (Array (shape_of key) (combine_cells (g key t) c)))
    as (acc' & Hrun & Hlook).
  - rewrite Hrep. destruct (g key t) as [a|]; cbn [fmap option_fmap option_map default].
    + apply agg_probs_arrays.
    + rewrite agg_probs_zero_array. do 2 f_equal. cbn [combine_cells].
      rewrite <- (map_id c) at 2. apply map_ext. intros; apply agg2_zero.
  - exists acc'. split; [done|]. intros key' t'. rewrite Hlook.
    unfold cells_step. cbn [fst snd].
    destruct (decide (key = key' /\ t = t')) as [[<- <-]|Hne]; [done|].
    apply Hrep.
Qed.

Lemma for_loop_step_cells (shape_of : K -> list nat)
    (xs : list (nat * (K * value F))) acc (g : K -> nat -> option (list F)) :
  (forall t key v, (t, (key, v)) ∈ xs -> exists c, v = Array (shape_of key) c) ->
  represents shape_of acc g ->
  exists acc', for_loop step xs acc = Ok acc'
    /\ represents shape_of acc' (fold_left cells_step (cells_steps xs) g).
Proof using compl_invol mul_one_l.
  revert acc g. induction xs as [|[t [key v]] xs IH]; intros acc g Hxs Hrep.
  - by exists acc.
  - destruct (Hxs t key v) as [c ->]; [apply list_elem_of_here|].
    destruct (agg_item_cells shape_of t acc g key c Hrep) as (acc1 & Hrun1 & Hrep1).
    destruct (IH acc1 (cells_step g (t, (key, c)))) as (acc' & Hrun & Hrep');
      [|done|].
    { intros t' key' v' Hin. eapply Hxs. by apply list_elem_of_further. }
    exists acc'. split; [|done].
    cbn [for_loop]. unfold step at 1. cbn [fst snd]. by rewrite Hrun1.
Qed.

Lemma zip_with_agg2_right_comm (a c1 c2 : list F) :
  zip_with agg2 (zip_with agg2 a c1) c2 = zip_with agg2 (zip_with agg2 a c2) c1.
Proof using mul_comm mul_assoc compl_invol.
  revert c1 c2. induction a as [|x a IH]; intros [|y c1] [|z c2]; simpl; try done.
  by rewrite agg2_right_comm, IH.
Qed.

Lemma cells_step_swap (g : K -> nat -> option (list F))
    (x y : nat * (K * list F)) (key : K) (t : nat) :
  cells_step (cells_step g x) y key t = cells_step (cells_step g y) x key t.
Proof using mul_comm mul_assoc compl_invol.
  unfold cells_step.
  destruct (decide (y.2.1 = key /\ y.1 = t)) as [Hy|Hy],
           (decide (x.2.1 = key /\ x.1 = t)) as [Hx|Hx]; try done.
  f_equal. destruct (g key t) as [a|]; cbn [combine_cells].
  - apply zip_with_agg2_right_comm.
  - apply zip_with_comm_ext, agg2_comm.
Qed.

Lemma cells_step_ext (g g' : K -> nat -> option (list F))
    (x : nat * (K * list F)) :
  (forall key t, g key t = g' key t) ->
  forall key t, cells_step g x key t = cells_step g' x key t.
Proof. intros Hg key t. unfold cells_step. by rewrite Hg. Qed.

Lemma fold_cells_step_ext (l : list (nat * (K * list F)))
    (g g' : K -> nat -> option (list F)) :
  (forall key t, g key t = g' key t) ->
  forall key t, fold_left cells_step l g key t = fold_left cells_step l g' key t.
Proof.
  revert g g'. induction l as [|x l IH]; intros g g' Hg; [done|].
  cbn [fold_left]. apply IH. by apply cells_step_ext.
Qed.

(** The cells reached do not depend on the order of the updates. *)
Lemma fold_cells_step_perm (l l' : list (nat * (K * list F))) :
  Permutation l l' ->
  forall (g : K -> nat -> option (list F)) key t,
    fold_left cells_step l g key t = fold_left cells_step l' g key t.
Proof using mul_comm mul_assoc compl_invol.
  induction 1 as [|x l l' _ IH|x y l|l l' l'' _ IH1 _ IH2]; intros g key t.
  - done.
  - cbn [fold_left]. apply IH.
  - cbn [fold_left]. apply fold_cells_step_ext. intros; apply cells_step_swap.
  - by rewrite IH1.
Qed.

Lemma steps_perm (rs rs' : list (task_result F K)) :
  Permutation rs rs' -> Permutation (steps rs) (steps rs').
Proof. intros Hp. unfold steps. by apply Permutation_flat_map. Qed.

Lemma well_shaped_steps (shape_of : K -> list nat) (rs : list (task_result F K)) :
  well_shaped shape_of rs ->
  forall t key v, (t, (key, v)) ∈ steps rs -> exists c, v = Array (shape_of key) c.
Proof.
  intros Hws t key v. unfold steps. rewrite list_elem_of_In, in_flat_map.
  intros (r & Hr & Hin). apply in_map_iff in Hin as (kv & [= <- ->] & Hkv).
  apply (Hws r); by apply list_elem_of_In.
Qed.

(** The accumulator the reduction ends with holds, under every
    [(key, trti)], the same matrix whatever the order of arrival. *)
Lemma reduce_perm (shape_of : K -> list nat) (rs rs' : list (task_result F K)) :
  Permutation rs rs' -> well_shaped shape_of rs ->
  exists acc acc', reduce rs = Ok acc /\ reduce rs' = Ok acc'
    /\ forall key t, acc_lookup acc key t = acc_lookup acc' key t.
Proof using mul_comm mul_assoc compl_invol mul_one_l.
  intros Hperm Hws.
  assert (Hws' : well_shaped shape_of rs').
  { intros r key v Hr. apply (Hws r key v). by rewrite Hperm. }
  assert (Hempty : represents shape_of ([] : list (K * list (nat * value F)))
            (fun _ _ => None)) by done.
  destruct (for_loop_step_cells shape_of (steps rs) [] _
              (well_shaped_steps _ _ Hws) Hempty) as (acc & Hrun & Hrep).
  destruct (for_loop_step_cells shape_of (steps rs') [] _
              (well_shaped_steps _ _ Hws') Hempty) as (acc' & Hrun' & Hrep').
  exists acc, acc'. unfold reduce. rewrite !reduce_steps.
  split; [done|split; [done|]]. intros key t. rewrite Hrep, Hrep'. f_equal.
  apply fold_cells_step_perm. unfold cells_steps.
  by apply Permutation_map, steps_perm.
Qed.
End ExactReduce.

(** *** Exact arithmetic: the rationals *)

Lemma Qc_compl_invol (x : Qc) : sub one (sub one x) = x.
Proof. simpl. ring. Qed.

Lemma Qc_mul_one_l (x : Qc) : mul (sub one zero) x = x.
Proof. simpl. ring. Qed.

Lemma Qc_mul_assoc (x y z : Qc) : mul (mul x y) z = mul x (mul y z).
Proof. simpl. ring. Qed.

Lemma Qc_mul_comm (x y : Qc) : mul x y = mul y x.
Proof. simpl. ring. Qed.

(** *** Binary64: one is neutral for the product *)

Lemma SFmul_one_l (x : spec_float) :
  valid_binary x = true ->
  SF64mul (S754_finite false 4503599627370496 (-52)) x = x.
Proof.
  destruct x as [s|s| |s m e]; try reflexivity.
  unfold valid_binary, SpecFloat.valid_binary, bounded, canonical_mantissa.
  intros [Hc Hb]%andb_prop. apply Z.eqb_eq in Hc.
  unfold SF64mul, SFmul. cbn [xorb].
  replace (4503599627370496 * m)%positive
    with (Pos.iter xO m 52) by (cbv [Pos.iter Pos.mul]; reflexivity).
  cbv [Pos.iter].
  unfold binary_round_aux, shr_fexp, Zdigits2. cbn [digits2_pos].
  match goal with
  | |- context [(Z.pos ?p + (-52 + e))%Z] =>
      replace (Z.pos p + (-52 + e))%Z with (Z.pos (digits2_pos m) + e)%Z by lia
  end.
  rewrite Hc. replace (e - (-52 + e))%Z with 52%Z by lia.
  cbn [shr shr_record_of_loc SpecFloat.iter_pos shr_1 orb shr_m shr_r shr_s
       loc_of_shr_record round_nearest_even].
  replace (-52 + e + 52)%Z with e by lia.
  cbn [Zdigits2]. rewrite Hc, Z.sub_diag. cbn [shr shr_record_of_loc shr_m].
  by rewrite Hb.
Qed.

Lemma float_mul_one_l (x : float) : (1 * x = x)%float.
Proof.
  apply Prim2SF_inj. rewrite mul_spec.
  assert (H1 : Prim2SF 1 = S754_finite false 4503599627370496 (-52))
    by (vm_compute; reflexivity).
  rewrite H1. apply SFmul_one_l, Prim2SF_valid.
Qed.


(** *** The claims *)

(** C1, as amended. [agg_probs] is commutative on doubles and on exact
    numbers, for scalars and for matrices.  In exact arithmetic it is also
    associative, and the accumulator that folding the task results with
    [agg_result] ends with holds the same matrix under every [(key, trti)]
    whatever the order in which the results arrive. *)
Theorem agg_probs_commutative_and_exactly_associative :
  (forall a b : value float, agg_probs [a; b] = agg_probs [b; a])
  /\ (forall a b : value Qc, agg_probs [a; b] = agg_probs [b; a])
  /\ (forall a b c : value Qc,
        rbind (agg_probs [a; b]) (fun ab => agg_probs [ab; c])
        = rbind (agg_probs [b; c]) (fun bc => agg_probs [a; bc]))
  /\ (forall (K : Type) (HK : EqDecision K) (shape_of : K -> list nat)
        (rs rs' : list (task_result Qc K)),
        Permutation rs rs' -> well_shaped shape_of rs ->
        exists acc acc', reduce rs = Ok acc /\ reduce rs' = Ok acc'
          /\ forall key t, acc_lookup acc key t = acc_lookup acc' key t).
Proof.
  split; [|split; [|split]].
  - intros a b. apply agg_probs_comm, float_mul_comm.
  - intros a b. apply agg_probs_comm, Qc_mul_comm.
  - intros a b c. apply agg_probs_assoc; [apply Qc_mul_assoc|apply Qc_compl_invol].
  - intros K HK shape_of rs rs'.
    apply reduce_perm;
      [apply Qc_mul_comm|apply Qc_mul_assoc|apply Qc_compl_invol|apply Qc_mul_one_l].
Qed.

Lemma agg_probs_commutative_and_exactly_associative_witness :
  exists acc acc',
    reduce [one_cell_task (Q2Qc (1 # 10)); one_cell_task (Q2Qc (3 # 10))] = Ok acc
    /\ reduce [one_cell_task (Q2Qc (3 # 10)); one_cell_task (Q2Qc (1 # 10))] = Ok acc'
    /\ acc_lookup acc 0 0 = acc_lookup acc' 0 0.
Proof.
  destruct agg_probs_commutative_and_exactly_associative as (_ & _ & _ & Hperm).
  destruct (Hperm nat _ (fun _ => [1])
              [one_cell_task (Q2Qc (1 # 10)); one_cell_task (Q2Qc (3 # 10))]
              [one_cell_task (Q2Qc (3 # 10)); one_cell_task (Q2Qc (1 # 10))])
    as (acc & acc' & Hrun & Hrun' & Heq).
  - apply perm_swap.
  - intros r key v Hr Hin.
    repeat (apply elem_of_cons in Hr as [->|Hr]); [| |by apply elem_of_nil in Hr];
      apply elem_of_cons in Hin as [[= -> ->]|Hin];
      try (by apply elem_of_nil in Hin); by eexists.
  - exists acc, acc'. split; [done|split; [done|apply Heq]].
Defined.

(** C1 fails as stated on the doubles the program computes with:
    [agg_probs(agg_probs(0.1, 0.2), 0.4)] is [0.56799999999999995] while
    [agg_probs(0.1, agg_probs(0.2, 0.4))] is [0.56800000000000006]; and
    folding the results [0.1], [0.1], [0.3] of three tasks leaves
    [0.43300000000000005] in the accumulator, while folding them in the
    order [0.3], [0.1], [0.1] leaves [0.43299999999999994]. *)
Lemma agg_probs_binary64_not_associative :
  rbind (agg_probs [Scalar 0.1; Scalar 0.2]%float)
        (fun ab => agg_probs [ab; Scalar 0.4%float])
  <> rbind (agg_probs [Scalar 0.2; Scalar 0.4]%float)
           (fun bc => agg_probs [Scalar 0.1%float; bc])
  /\ reduce [one_cell_task 0.1; one_cell_task 0.1; one_cell_task 0.3]%float
     <> reduce [one_cell_task 0.3; one_cell_task 0.1; one_cell_task 0.1]%float.
Proof. split; vm_compute; intros [=]. Qed.



(** ** Magnitude bin edges *)

Lemma Qc_of_Z_this (z : Z) : this (Qc_of_Z z) = inject_Z z.
Proof. unfold Qc_of_Z. simpl. apply Qred_identity. simpl. apply Z.gcd_1_r. Qed.

Lemma Qc_to_int_of_Z (z : Z) : to_int (Qc_of_Z z) = Ok z.
Proof.
  cbn [to_int Qc_arith]. rewrite Qc_of_Z_this. cbn [Qnum Qden inject_Z].
  by rewrite Z.quot_1_r.
Qed.

Lemma Qc_of_Z_succ (z : Z) : (Qc_of_Z z + 1)%Qc = Qc_of_Z (z + 1).
Proof.
  apply Qc_is_canon. unfold Qcplus. rewrite !Qc_of_Z_this.
  unfold Q2Qc. simpl this. rewrite Qred_correct, inject_Z_plus. reflexivity.
Qed.

Lemma Qc_of_Z_lt (a b : Z) : (a < b)%Z -> (Qc_of_Z a < Qc_of_Z b)%Qc.
Proof.
  intros Hab. unfold Qclt. rewrite !Qc_of_Z_this. by rewrite <- Zlt_Qlt.
Qed.

Lemma Qc_multiple_lt (w : Qc) (a b : Z) :
  (0 < w)%Qc -> (a < b)%Z -> (w * Qc_of_Z a < w * Qc_of_Z b)%Qc.
Proof.
  intros Hw Hab. rewrite !(Qcmult_comm w).
  apply Qcmult_lt_compat_r; [done|by apply Qc_of_Z_lt].
Qed.

Lemma Qc_div_le (w x y : Qc) : (0 < w)%Qc -> (x <= y)%Qc -> (x / w <= y / w)%Qc.
Proof.
  intros Hw Hxy. unfold Qcdiv. apply Qcmult_le_compat_r; [done|].
  apply Qclt_le_weak. change (0 < Qred (/ this w))%Q.
  rewrite Qred_correct. apply Qinv_lt_0_compat. exact Hw.
Qed.

(** C4, as amended. For a positive bin width [w] and magnitudes
    [min_mag <= max_mag],
    in exact arithmetic, [mag_edges] is the list of the multiples [w * k]
    for the consecutive integers [k] from [floor(min_mag / w)] to
    [ceil(max_mag / w)] included, and it is strictly increasing.  On the
    doubles the program computes with, [w = 0.2], [min_mag = 5.0] and
    [max_mag = 5.3] give exactly the three edges [5.0], [5.2], [5.4]. *)
Theorem mag_edges_are_consecutive_multiples (w min_mag max_mag : Qc) :
  (0 < w)%Qc -> (min_mag <= max_mag)%Qc ->
  let lo := Qfloor (min_mag / w)%Qc in
  let hi := Qceiling (max_mag / w)%Qc in
  let edges := map (fun k => (w * Qc_of_Z k)%Qc) (seqZ lo (hi - lo + 1)) in
  (lo <= hi)%Z
  /\ mag_edges w min_mag max_mag = Ok edges
  /\ (forall i j a b, i < j -> edges !! i = Some a -> edges !! j = Some b ->
        (a < b)%Qc)
  /\ mag_edges 0.2%float 5.0%float 5.3%float = Ok [5.0; 5.2; 5.4]%float.
Proof.
  intros Hw Hle lo hi edges.
  assert (Hlohi : (lo <= hi)%Z).
  { subst lo hi. etransitivity; [|rewrite Zle_Qle; apply Qle_floor_ceiling].
    apply Qfloor_resp_le. by apply Qc_div_le. }
  split; [done|split; [|split]].
  - unfold mag_edges. cbn [floor ceil div add one Qc_arith].
    fold lo hi. rewrite Qc_to_int_of_Z. cbn [rbind].
    rewrite Qc_of_Z_succ, Qc_to_int_of_Z. cbn [rbind]. unfold arange.
    subst edges. do 3 f_equal. lia.
  - intros i j a b Hij. subst edges.
    change (map ?f ?l) with (f <$> l). rewrite !list_lookup_fmap.
    intros (ka & [-> _]%lookup_seqZ & ->)%fmap_Some
           (kb & [-> _]%lookup_seqZ & ->)%fmap_Some.
    apply Qc_multiple_lt; [done|lia].
  - vm_compute. reflexivity.
Qed.

Lemma mag_edges_are_consecutive_multiples_witness :
  mag_edges (Q2Qc (1 # 5)) (Q2Qc 5) (Q2Qc (53 # 10))
  = Ok (map (fun k => (Q2Qc (1 # 5) * Qc_of_Z k)%Qc) (seqZ 25 3)).
Proof.
  destruct (mag_edges_are_consecutive_multiples (Q2Qc (1 # 5)) (Q2Qc 5)
              (Q2Qc (53 # 10))) as (_ & Hrun & _); [done|by vm_compute|].
  exact Hrun.
Defined.

(** C4 fails as stated on the doubles the program computes with.  For
    [w = 5e-17] and [min_mag = max_mag = 5] the quotient is [1e17], and
    [numpy.ceil(max_mag / w) + 1] is rounded back to [1e17]: the range of
    [numpy.arange] is empty and there is no edge at all.  For [w = 0.2],
    [min_mag = 4.6] and [max_mag = 5.8] the quotient [4.6 / 0.2] is
    rounded to [22.999999999999996], whose floor is [22]: the program
    returns eight edges, from [4.4000000000000004], where the multiples
    of [0.2] from [4.6] to [5.8] are seven. *)
Lemma mag_edges_binary64_not_the_multiples :
  mag_edges 5e-17%float 5%float 5%float = Ok []
  /\ mag_edges 0.2%float 4.6%float 5.8%float
     = Ok [4.4000000000000004; 4.6000000000000005; 4.8000000000000007; 5;
           5.2; 5.4; 5.6000000000000005; 5.8000000000000007]%float
  /\ (4.4000000000000004 <? 4.6)%float = true
  /\ exists edges,
       mag_edges (Q2Qc (1 # 5)) (Q2Qc (23 # 5)) (Q2Qc (29 # 5)) = Ok edges
       /\ length edges = 7 /\ head edges = Some (Q2Qc (23 # 5)).
Proof.
  split; [by vm_compute|]. split; [by vm_compute|]. split; [by vm_compute|].
  eexists. split; [vm_compute; reflexivity|]. split; [done|].
  cbn [head]. f_equal. all: by apply Qc_is_canon.
Qed.

(** ** Target intensities ([_iml2s]) *)

Lemma enumerate_lookup {A} (l : list A) (i : nat) :
  enumerate l !! i = pair i <$> l !! i.
Proof.
  unfold enumerate. rewrite lookup_zip_with.
  destruct (l !! i) as [x|] eqn:Hx.
  - rewrite lookup_seq_lt by (by eapply lookup_lt_Some). done.
  - by destruct (seq 0 (length l) !! i).
Qed.

Lemma elem_of_enumerate {A} (l : list A) (m : nat) (x : A) :
  (m, x) ∈ enumerate l <-> l !! m = Some x.
Proof.
  rewrite list_elem_of_lookup. split.
  - intros [i Hi]. rewrite enumerate_lookup in Hi.
    by destruct (l !! i) eqn:Hx; simplify_eq/=.
  - intros Hm. exists m. by rewrite enumerate_lookup, Hm.
Qed.

Lemma enumerate_fst {A} (l : list A) : (enumerate l).*1 = seq 0 (length l).
Proof. unfold enumerate. apply fst_zip. by rewrite length_seq. Qed.

(** The loop that fills the rows of [iml2] by interpolation. *)
Lemma fill_interp_loop (ps : list float) (curve : list (string * list float))
    (l : list (nat * (string * list float))) (arr arr' : list (list float)) :
  NoDup (l.*1) ->
  (forall m x, (m, x) ∈ l -> m < length arr) ->
  for_loop (fill_interp ps curve) l arr = Ok arr' ->
  length arr' = length arr
  /\ (forall m imt levels, (m, (imt, levels)) ∈ l ->
        exists hz row, dget imt curve = Some hz
          /\ interp ps (reverse hz) (reverse levels) = Ok row
          /\ arr' !! m = Some row)
  /\ (forall m, m ∉ l.*1 -> arr' !! m = arr !! m).
Proof.
  revert arr. induction l as [|[m0 [imt0 levels0]] l IH]; intros arr Hnd Hlt.
  - intros [= <-]. split; [done|split; [|done]].
    by intros m imt levels ?%elem_of_nil.
  - cbn [for_loop]. intros (arr1 & Hstep & Hrest)%rbind_Ok.
    unfold fill_interp in Hstep. cbn [fst snd] in Hstep.
    apply rbind_Ok in Hstep as (hz0 & Hhz0 & Hstep).
    apply rbind_Ok in Hstep as (row0 & Hrow0 & [= <-]).
    destruct (dget imt0 curve) as [hz|] eqn:Hget; [|done].
    injection Hhz0 as ->.
    apply NoDup_cons in Hnd as [Hm0 Hnd].
    destruct (IH (<[m0 := row0]> arr) Hnd) as (Hlen & Hin & Hout); [|done|].
    { intros m x Hmx. rewrite length_insert. apply (Hlt m x).
      by apply list_elem_of_further. }
    rewrite length_insert in Hlen. split; [done|split].
    + intros m imt levels [[= -> -> ->]|Hml]%elem_of_cons.
      * exists hz0, row0. split; [done|split; [done|]].
        rewrite Hout by done. apply list_lookup_insert_eq.
        apply (Hlt m0 (imt0, levels0)), list_elem_of_here.
      * by apply Hin.
    + intros m Hm. cbn [fmap list_fmap fst] in Hm.
      apply not_elem_of_cons in Hm as [Hne Hm].
      rewrite Hout by done. by apply list_lookup_insert_ne.
Qed.

(** The loop over the sites appends one wrapper per curve, in order. *)
Lemma site_iml2_loop (rlzs : list nat) (imtls : list (string * list float))
    (poes_disagg : poes_arg)
    (l : list (nat * option (list (string * list float))))
    (lst out : list iml2_wrapper) :
  for_loop (site_iml2 rlzs imtls poes_disagg) l lst = Ok out ->
  exists new, out = lst ++ new
    /\ Forall2 (fun sc aw => site_iml2 rlzs imtls poes_disagg [] sc = Ok [aw]) l new.
Proof.
  revert lst. induction l as [|sc l IH]; intros lst.
  - intros [= <-]. exists []. by rewrite app_nil_r.
  - cbn [for_loop]. intros (lst1 & Hstep & Hrest)%rbind_Ok.
    destruct (IH _ Hrest) as (new & -> & Hall).
    unfold site_iml2 in Hstep.
    apply rbind_Ok in Hstep as (filled & Hfilled & Hstep).
    apply rbind_Ok in Hstep as (rlzi & Hrlzi & [= <-]).
    eexists (_ :: new). split; [by rewrite <- app_assoc|].
    constructor; [|done]. unfold site_iml2. by rewrite Hfilled, Hrlzi.
Qed.

Lemma interp_two_points (x x0 x1 y0 y1 : Qc) :
  (x0 < x1)%Qc -> (x0 <= x)%Qc -> (x <= x1)%Qc ->
  interp [x] [x0; x1] [y0; y1]
  = Ok [(y0 + (x - x0) * ((y1 - y0) / (x1 - x0)))%Qc].
Proof.
  intros H01 H0 H1. unfold interp, interp_point.
  cbn [length Nat.eqb map is_nan Qc_arith nth Nat.sub tail count_leading
       ltb leb eqb add sub mul div].
  rewrite (bool_decide_eq_false_2 (x1 < x)%Qc) by by apply Qcle_not_lt.
  rewrite (bool_decide_eq_false_2 (x < x0)%Qc) by by apply Qcle_not_lt.
  assert (Hne : (x1 - x0)%Qc <> 0%Qc).
  { intros Heq. apply (Qclt_not_eq _ _ H01). symmetry.
    rewrite <- (Qcplus_0_l x0), <- Heq. ring. }
  destruct (decide (x1 <= x)%Qc) as [Hx1|Hx1].
  - rewrite bool_decide_eq_true_2 by done. cbn [Nat.eqb].
    assert (x = x1) as -> by by apply Qcle_antisym.
    do 2 f_equal. field. done.
  - rewrite bool_decide_eq_false_2 by done. cbn [Nat.eqb].
    destruct (decide (x0 = x)) as [<-|Hx0].
    + rewrite bool_decide_eq_true_2 by done. do 2 f_equal. field. done.
    + rewrite bool_decide_eq_false_2 by done. do 2 f_equal. field. done.
Qed.

Lemma interp_runs (xs xp fp : list float) :
  xp <> [] -> length fp = length xp -> exists row, interp xs xp fp = Ok row.
Proof.
  intros Hne Hlen. unfold interp. destruct xp as [|d xp]; [done|].
  apply Nat.eqb_eq in Hlen. rewrite Hlen. by eexists.
Qed.

Lemma fill_interp_runs (ps : list float) (curve : list (string * list float))
    (l : list (nat * (string * list float))) (arr : list (list float)) :
  (forall m imt levels, (m, (imt, levels)) ∈ l ->
     levels <> [] /\ exists hz, dget imt curve = Some hz
                               /\ length hz = length levels) ->
  exists arr', for_loop (fill_interp ps curve) l arr = Ok arr'.
Proof.
  revert arr. induction l as [|[m [imt levels]] l IH]; intros arr Hl.
  - by exists arr.
  - destruct (Hl m imt levels) as (Hne & hz & Hhz & Hlen); [apply list_elem_of_here|].
    destruct (interp_runs ps (reverse hz) (reverse levels)) as [row Hrow].
    { intros Hnil. apply (f_equal length) in Hnil.
      rewrite length_reverse, Hlen in Hnil. by destruct levels. }
    { by rewrite !length_reverse. }
    destruct (IH (<[m := row]> arr)) as [arr' Hrun].
    { intros m' imt' levels' Hin. apply (Hl m'). by apply list_elem_of_further. }
    exists arr'. cbn [for_loop]. unfold fill_interp at 1. cbn [fst snd].
    rewrite Hhz. cbn [of_option rbind]. by rewrite Hrow.
Qed.

Lemma site_iml2_runs (rlzs : list nat) (imtls : list (string * list float))
    (ps : list float) (l : list (nat * option (list (string * list float))))
    (lst : list iml2_wrapper) :
  (forall s c, (s, c) ∈ l -> is_Some (rlzs !! s)
     /\ forall curve imt levels, c = Some curve -> (imt, levels) ∈ imtls ->
          levels <> [] /\ exists hz, dget imt curve = Some hz
                                    /\ length hz = length levels) ->
  exists out, for_loop (site_iml2 rlzs imtls (Poes ps)) l lst = Ok out.
Proof.
  revert lst. induction l as [|[s c] l IH]; intros lst Hl.
  - by exists lst.
  - destruct (Hl s c) as ([rlzi Hrlzi] & Hc); [apply list_elem_of_here|].
    assert (Hfill : exists filled,
      match c with
      | Some curve =>
          if curve_truthy curve
          then for_loop (fill_interp ps curve) (enumerate imtls)
                 (replicate (length imtls) (replicate (length ps) PrimFloat.nan))
          else Ok (replicate (length imtls) (replicate (length ps) PrimFloat.nan))
      | None => Ok (replicate (length imtls) (replicate (length ps) PrimFloat.nan))
      end = Ok filled).
    { destruct c as [curve|]; [|by eexists].
      destruct (curve_truthy curve); [|by eexists].
      apply fill_interp_runs. intros m imt levels Hin%elem_of_enumerate.
      apply (Hc curve); [done|]. by eapply list_elem_of_lookup_2. }
    destruct Hfill as [filled Hfilled].
    destruct (IH (lst ++ [{| iml2 := filled; aw_poes_disagg := Poes ps;
                              aw_imts := keys imtls; aw_rlzi := rlzi |}]))
      as [out Hout].
    { intros s' c' Hin. apply Hl. by apply list_elem_of_further. }
    exists out. cbn [for_loop]. unfold site_iml2 at 1. cbn [fst snd].
    rewrite Hfilled. cbn [rbind]. rewrite Hrlzi. cbn [of_option rbind].
    exact Hout.
Qed.

(** C5. In probability mode, on the inputs [full_disaggregation] builds,
    [_iml2s] returns one array of target intensities per site and, for a
    site that has a hazard curve (one that is true in [elif curve:], as the
    curves of [get_curve] are), row [m] of the array is
    [numpy.interp(poes_disagg, curve[imt][::-1], imtls[imt][::-1])] for the
    [m]-th IMT.  Between two points of the reversed curve the interpolation
    is linear.  For the curve [poes = [0.05, 0.01]], [imls = [0.1, 0.2]] and
    the target [0.02] it gives [7/40 = 0.175] without rounding; on doubles
    [_iml2s] returns [0.17500000000000002], which is [0.175] to one unit in
    the last place ([2^-55]). *)
Theorem iml2s_interpolates_reversed_curve (rlzs : list nat)
    (imtls : list (string * list float)) (ps : list float)
    (curves : list (option (list (string * list float)))) :
  curves_usable rlzs imtls curves ->
  (exists out, _iml2s rlzs imtls (Poes ps) curves = Ok out
     /\ length out = length curves
     /\ forall s curve m imt levels,
          curves !! s = Some (Some curve) -> curve_truthy curve = true ->
          imtls !! m = Some (imt, levels) ->
          exists aw hz row,
            out !! s = Some aw /\ dget imt curve = Some hz
            /\ interp ps (reverse hz) (reverse levels) = Ok row
            /\ iml2 aw !! m = Some row)
  /\ (forall x x0 x1 y0 y1 : Qc,
        (x0 < x1)%Qc -> (x0 <= x)%Qc -> (x <= x1)%Qc ->
        interp [x] [x0; x1] [y0; y1]
        = Ok [(y0 + (x - x0) * ((y1 - y0) / (x1 - x0)))%Qc])
  /\ interp [Q2Qc (2 # 100)] (reverse [Q2Qc (5 # 100); Q2Qc (1 # 100)])
       (reverse [Q2Qc (1 # 10); Q2Qc (2 # 10)]) = Ok [Q2Qc (175 # 1000)]
  /\ _iml2s [0] [("PGA", [0.1; 0.2]%float)] (Poes [0.02%float])
       [Some [("PGA", [0.05; 0.01]%float)]]
     = Ok [{| iml2 := [[0.17500000000000002%float]];
              aw_poes_disagg := Poes [0.02%float];
              aw_imts := ["PGA"]; aw_rlzi := 0 |}]
  /\ (PrimFloat.abs (0.17500000000000002 - 0.175) <=? 0x1p-55)%float = true.
Proof.
  intros [Hlen Hcurves].
  split; [|split; [apply interp_two_points|split; [|split]]].
  - destruct (site_iml2_runs rlzs imtls ps (enumerate curves) []) as [out Hrun].
    { intros s c Hsc%elem_of_enumerate. split.
      - apply lookup_lt_is_Some. apply lookup_lt_Some in Hsc. lia.
      - intros curve imt levels -> Hin. by apply (Hcurves s curve). }
    exists out. split; [done|].
    apply site_iml2_loop in Hrun as (new & -> & Hall). rewrite app_nil_l.
    split.
    { apply Forall2_length in Hall. rewrite <- Hall. unfold enumerate.
      rewrite length_zip_with, length_seq. lia. }
    intros s curve m imt levels Hs Htrue Hm.
    assert (Hsc : enumerate curves !! s = Some (s, Some curve)).
    { by rewrite enumerate_lookup, Hs. }
    destruct (Forall2_lookup_l _ _ _ _ _ Hall Hsc) as (aw & Haw & Hsite).
    unfold site_iml2 in Hsite. cbn [fst snd] in Hsite. rewrite Htrue in Hsite.
    apply rbind_Ok in Hsite as (filled & Hfilled & Hsite).
    apply rbind_Ok in Hsite as (rlzi & _ & [= <-]).
    apply fill_interp_loop in Hfilled as (_ & Hrows & _).
    + destruct (Hrows m imt levels) as (hz & row & ? & ? & ?);
        [by apply elem_of_enumerate|].
      exists {| iml2 := filled; aw_poes_disagg := Poes ps;
                aw_imts := keys imtls; aw_rlzi := rlzi |}, hz, row. done.
    + rewrite enumerate_fst. apply NoDup_seq.
    + intros i x Hix%elem_of_enumerate. rewrite length_replicate.
      by eapply lookup_lt_Some.
  - vm_compute. do 2 f_equal. by apply Qc_is_canon.
  - vm_compute. reflexivity.
  - vm_compute. reflexivity.
Qed.

Lemma iml2s_interpolates_reversed_curve_witness :
  exists out aw row,
    _iml2s [0] [("PGA", [0.1; 0.2]%float)] (Poes [0.02%float])
       [Some [("PGA", [0.05; 0.01]%float)]] = Ok out
    /\ out !! 0 = Some aw
    /\ interp [0.02%float] (reverse [0.05; 0.01]%float) (reverse [0.1; 0.2]%float)
       = Ok row
    /\ iml2 aw !! 0 = Some row.
Proof.
  destruct (iml2s_interpolates_reversed_curve [0] [("PGA", [0.1; 0.2]%float)]
              [0.02%float] [Some [("PGA", [0.05; 0.01]%float)]])
    as ((out & Hrun & _ & Hrows) & _).
  - split; [done|]. intros s curve imt levels Hs Hin.
    destruct s as [|s]; [|by destruct s]. injection Hs as <-.
    apply elem_of_cons in Hin as [[= -> ->]|Hin]; [|by apply elem_of_nil in Hin].
    split; [done|]. by eexists.
  - destruct (Hrows 0 [("PGA", [0.05; 0.01]%float)] 0 "PGA" [0.1; 0.2]%float)
      as (aw & hz & row & Haw & [= <-] & Hrow & Himl2);
      [done|by vm_compute|done|].
    exists out, aw, row. done.
Defined.

(** The double [_iml2s] returns in that example is the neighbour of the
    double [0.175], not that double itself. *)
Remark iml2s_example_is_next_to_0_175 :
  _iml2s [0] [("PGA", [0.1; 0.2]%float)] (Poes [0.02%float])
    [Some [("PGA", [0.05; 0.01]%float)]]
  <> Ok [{| iml2 := [[0.175%float]]; aw_poes_disagg := Poes [0.02%float];
            aw_imts := ["PGA"]; aw_rlzi := 0 |}].
Proof. vm_compute. intros [=]. Qed.

(** ** Extraction of the PMFs ([_save_result]) *)

Lemma string_app_inj (s k k' : string) : s +:+ k = s +:+ k' -> k = k'.
Proof. induction s as [|c s IH]; simpl; [done|]. intros [= ?]. by apply IH. Qed.

Section Extraction.
Variable pmf_map : list (string * (pmf_arg float -> value float)).
Variable np_prod : value float -> float.
Variable np_mean : list float -> float.
Implicit Types (matrix : list (value float)) (aggmatrix : value float)
  (ds : list (string * value float)).

Lemma store_pmf_loop (disagg_outputs : list string) (disp : string)
    matrix aggmatrix (l : list (string * (pmf_arg float -> value float)))
    (st : list (string * value float) * list float) :
  NoDup (keys l) ->
  let st' := fold_left (store_pmf np_prod disagg_outputs disp matrix aggmatrix) l st in
  (forall key fn, (key, fn) ∈ l -> requested disagg_outputs key = true ->
      dget (disp +:+ key) st'.1 = Some (fn (pmf_input key matrix aggmatrix)))
  /\ (forall key, key ∉ keys l -> dget (disp +:+ key) st'.1 = dget (disp +:+ key) st.1).
Proof.
  revert st. induction l as [|[k f] l IH]; intros st Hnd; cbn zeta.
  - split; [by intros key fn ?%elem_of_nil|done].
  - apply NoDup_cons in Hnd as [Hk Hnd]. cbn [fold_left].
    destruct (IH (store_pmf np_prod disagg_outputs disp matrix aggmatrix st (k, f)) Hnd)
      as (Hin & Hout).
    assert (Hhead : requested disagg_outputs k = true ->
              dget (disp +:+ k)
                (store_pmf np_prod disagg_outputs disp matrix aggmatrix st (k, f)).1
              = Some (f (pmf_input k matrix aggmatrix))).
    { intros Hreq. unfold store_pmf. cbn [fst snd]. rewrite Hreq. cbn [fst].
      apply dget_dset_eq. }
    split.
    + intros key fn [[= -> ->]|Hl]%elem_of_cons Hreq; [|by apply Hin].
      rewrite Hout by done. by apply Hhead.
    + intros key Hkey. apply not_elem_of_cons in Hkey as [Hne Hkey].
      rewrite Hout by done. unfold store_pmf. cbn [fst snd].
      destruct (requested disagg_outputs k); [|done]. cbn [fst].
      apply dget_dset_ne. intros Heq. by apply string_app_inj in Heq.
Qed.

Lemma store_pmf_poe_agg (disagg_outputs : list string) (disp : string)
    matrix aggmatrix (l : list (string * (pmf_arg float -> value float)))
    (st : list (string * value float) * list float) :
  (fold_left (store_pmf np_prod disagg_outputs disp matrix aggmatrix) l st).2
  = st.2 ++ map (kind_poe_agg np_prod matrix aggmatrix)
              (List.filter (fun kf => requested disagg_outputs kf.1) l).
Proof.
  revert st. induction l as [|[k f] l IH]; intros st.
  - by rewrite app_nil_r.
  - cbn [fold_left]. rewrite IH. unfold store_pmf at 1. cbn [fst snd List.filter].
    destruct (requested disagg_outputs k); [|done].
    cbn [snd map]. by rewrite <- app_assoc.
Qed.

(** C2, as amended. When the tensor composes across its TRT axis into
    [aggmatrix = agg_probs( *matrix )], every requested PMF kind is stored:
    a kind whose name ends with ['TRT'] is computed from the TRT-stacked
    tensor itself, and every other kind is computed from [aggmatrix], the
    tensor with its TRT axis marginalized by complementary-probability
    composition. *)
Theorem pmf_kinds_use_tensor_or_aggmatrix (disagg_outputs : list string)
    (disp : string) matrix aggmatrix ds :
  NoDup (keys pmf_map) ->
  agg_probs matrix = Ok aggmatrix ->
  exists ds' poe_agg,
    extract_pmfs pmf_map np_prod disagg_outputs disp matrix ds = Ok (ds', poe_agg)
    /\ forall key fn, (key, fn) ∈ pmf_map ->
         requested disagg_outputs key = true ->
         dget (disp +:+ key) ds'
         = Some (fn (if endswith key "TRT" then Tensor6 matrix
                     else Matrix5 aggmatrix)).
Proof.
  intros Hnd Hagg. unfold extract_pmfs. rewrite Hagg. cbn [rbind].
  destruct (store_pmf_loop disagg_outputs disp matrix aggmatrix pmf_map (ds, []) Hnd)
    as (Hin & _).
  eexists _, _. split; [by rewrite <- surjective_pairing|]. exact Hin.
Qed.

(** A dataset stored under a name that starts with [disp] makes the
    group [disp] exist. *)
Lemma prefix_app (s k : string) : String.prefix s (s +:+ k) = true.
Proof.
  induction s as [|c s IH]; [by destruct k|].
  change (String c s +:+ k) with (String c (s +:+ k)). cbn [String.prefix].
  by destruct (Ascii.ascii_dec c c).
Qed.

Lemma hdf5_group_dset (disp key : string) (pmf : value float) ds :
  hdf5_group (dset (disp +:+ key) pmf ds) disp = true.
Proof.
  unfold hdf5_group. induction ds as [|[k v] ds IH]; cbn [dset existsb fst].
  - by rewrite prefix_app.
  - destruct (decide (disp +:+ key = k)) as [<-|Hne]; cbn [existsb fst].
    + by rewrite prefix_app.
    + rewrite IH. apply orb_true_r.
Qed.

(** The group of an output exists after the loop when it existed before
    or when the loop has stored a PMF. *)
Lemma store_pmf_group (disagg_outputs : list string) (disp : string)
    matrix aggmatrix (l : list (string * (pmf_arg float -> value float)))
    (st : list (string * value float) * list float) :
  hdf5_group
    (fold_left (store_pmf np_prod disagg_outputs disp matrix aggmatrix) l st).1
    disp
  = hdf5_group st.1 disp || existsb (fun kf => requested disagg_outputs kf.1) l.
Proof.
  revert st. induction l as [|[k f] l IH]; intros st; cbn [fold_left existsb].
  - by rewrite orb_false_r.
  - rewrite IH. unfold store_pmf at 1. cbn [fst snd].
    destruct (requested disagg_outputs k); cbn [orb]; [|done].
    cbn [fst]. by rewrite hdf5_group_dset, orb_true_r.
Qed.

Lemma existsb_filter_nil {A} (f : A -> bool) (l : list A) :
  existsb f l = false <-> List.filter f l = [].
Proof.
  induction l as [|x l IH]; cbn [existsb List.filter]; [done|].
  destruct (f x); cbn [orb]; [by split|done].
Qed.

(** What [_save_result] does once the tensor composes: [KeyError] when
    the group of the output is not in the file, and otherwise the
    attributes and the log of the sanity check. *)
Lemma save_result_run (disagg_outputs : list string) ds
    (dskey : string) (site_id rlz_id : nat) (poe : option float)
    (poe_id : nat) (iml : float) (imt_str : string) matrix aggmatrix :
  agg_probs matrix = Ok aggmatrix ->
  let disp := disp_name dskey imt_str site_id poe_id in
  let written := List.filter (fun kf => requested disagg_outputs kf.1) pmf_map in
  let poe_aggs := map (kind_poe_agg np_prod matrix aggmatrix) written in
  let ds' :=
    (fold_left (store_pmf np_prod disagg_outputs disp matrix aggmatrix)
       pmf_map (ds, [])).1 in
  _save_result pmf_map np_prod np_mean disagg_outputs ds dskey site_id rlz_id
    poe poe_id iml imt_str matrix
  = if hdf5_group ds disp
       || existsb (fun kf => requested disagg_outputs kf.1) pmf_map
    then
      Ok (ds',
          {| attr_site_id := site_id; attr_rlzi := rlz_id;
             attr_imt := imt_str; attr_iml := iml; attr_poe_agg := poe_aggs;
             attr_poe := if truthy poe then poe else None |},
          match poe with
          | Some p =>
              if truthy poe
                 && (0.1 <? PrimFloat.abs (1 - np_mean poe_aggs / p))%float
              then [PoeAggDiffers site_id (np_mean poe_aggs) p]
              else []
          | None => []
          end)
    else Raise KeyError.
Proof.
  intros Hagg disp written poe_aggs ds'. unfold _save_result, extract_pmfs.
  cbv zeta. fold disp. rewrite Hagg. cbn [rbind].
  rewrite store_pmf_group, store_pmf_poe_agg. cbn [fst snd app].
  fold written poe_aggs ds'.
  destruct (hdf5_group ds disp || existsb _ pmf_map); [|done].
  destruct poe as [p|]; [|done].
  destruct (truthy (Some p)); cbn [andb]; [|done].
  change (ltb 0.1%float (PrimFloat.abs (sub one (div (np_mean poe_aggs) p))))
    with (0.1 <? PrimFloat.abs (1 - np_mean poe_aggs / p))%float.
  by destruct (0.1 <? PrimFloat.abs (1 - np_mean poe_aggs / p))%float.
Qed.

(** C8. When the tensor composes across its TRT axis and a PMF has been
    computed for some requested kind, [_save_result] does not fail: one
    aggregate probability [1 - prod(1 - pmf)] is derived per requested PMF
    kind and stored in the attribute [poe_agg], and, when [poe] is a
    target probability (in Python's sense: neither [None] nor zero), the
    warning is logged exactly when [abs(1 - poe_agg / poe) > .1], where
    [poe_agg] is the mean of the aggregates of the kinds; no warning is
    logged otherwise.  Whenever [_save_result] returns, its log and the
    attribute [poe_agg] are those.  Its only failure, once the tensor
    composes, is the [KeyError] of [self.datastore.hdf5[disp_name]], raised
    before the check, when no kind of [pmf_map] is requested and the file
    has nothing under [disp_name]; it does not depend on [poe] nor on the
    deviation. *)
Theorem save_result_warns_on_poe_agg (disagg_outputs : list string) ds
    (dskey : string) (site_id rlz_id : nat) (poe : option float)
    (poe_id : nat) (iml : float) (imt_str : string) matrix aggmatrix :
  agg_probs matrix = Ok aggmatrix ->
  let disp := disp_name dskey imt_str site_id poe_id in
  let written := List.filter (fun kf => requested disagg_outputs kf.1) pmf_map in
  let poe_aggs := map (kind_poe_agg np_prod matrix aggmatrix) written in
  let warning :=
    match poe with
    | Some p =>
        if truthy poe
           && (0.1 <? PrimFloat.abs (1 - np_mean poe_aggs / p))%float
        then [PoeAggDiffers site_id (np_mean poe_aggs) p]
        else []
    | None => []
    end in
  let run :=
    _save_result pmf_map np_prod np_mean disagg_outputs ds dskey site_id rlz_id
      poe poe_id iml imt_str matrix in
  (written <> [] ->
   exists ds' attrs,
     run = Ok (ds', attrs, warning) /\ attr_poe_agg attrs = poe_aggs)
  /\ (forall ds' attrs log,
        run = Ok (ds', attrs, log) ->
        log = warning /\ attr_poe_agg attrs = poe_aggs)
  /\ (forall e,
        run = Raise e ->
        e = KeyError /\ written = [] /\ hdf5_group ds disp = false).
Proof.
  intros Hagg disp written poe_aggs warning run.
  pose proof (save_result_run disagg_outputs ds dskey site_id rlz_id poe
                poe_id iml imt_str matrix aggmatrix Hagg) as Hrun.
  cbv zeta in Hrun. fold disp written poe_aggs warning run in Hrun.
  destruct (existsb (fun kf => requested disagg_outputs kf.1) pmf_map)
    eqn:Hany.
  - rewrite orb_true_r in Hrun. split; [by eexists _, _|].
    split; [|by rewrite Hrun].
    intros ds' attrs log Hok. rewrite Hrun in Hok. by injection Hok as <- <- <-.
  - apply existsb_filter_nil in Hany. fold written in Hany.
    rewrite orb_false_r in Hrun. split; [done|].
    destruct (hdf5_group ds disp); rewrite Hrun.
    + split; [|done]. intros ds' attrs log Hok. by injection Hok as <- <- <-.
    + split; [done|]. by intros e [= <-].
Qed.
End Extraction.

Lemma pmf_kinds_use_tensor_or_aggmatrix_witness :
  exists ds' poe_agg,
    extract_pmfs [("Mag", probe_pmf); ("TRT", probe_pmf)] seq_prod []
      "disagg/PGA-sid-0-poe-0/" [Array [1] [0.5%float]; Array [1] [0.25%float]] []
    = Ok (ds', poe_agg)
    /\ dget "disagg/PGA-sid-0-poe-0/TRT" ds' = Some (Array [1] [0.5%float])
    /\ dget "disagg/PGA-sid-0-poe-0/Mag" ds' = Some (Array [1] [0.625%float]).
Proof.
  destruct (pmf_kinds_use_tensor_or_aggmatrix
              [("Mag", probe_pmf); ("TRT", probe_pmf)] seq_prod []
              "disagg/PGA-sid-0-poe-0/"
              [Array [1] [0.5%float]; Array [1] [0.25%float]]
              (Array [1] [0.625%float]) [])
    as (ds' & poe_agg & Hrun & Hkinds).
  - apply NoDup_cons. split; [by intros [=]%list_elem_of_singleton|].
    apply NoDup_singleton.
  - vm_compute. reflexivity.
  - exists ds', poe_agg. split; [done|split].
    + apply (Hkinds "TRT" probe_pmf); [|done].
      apply list_elem_of_further, list_elem_of_here.
    + apply (Hkinds "Mag" probe_pmf); [apply list_elem_of_here|done].
Defined.

(** C2 fails as stated: it is not true that every requested PMF kind is
    computed from the TRT-stacked tensor.  For the tensor of the two
    one-cell TRT slices [0.5] and [0.25], the kind ['Mag'] is computed from
    the single matrix [0.625 = 1 - (1 - 0.5) * (1 - 0.25)]: the TRT axis has
    been composed away. *)
Lemma non_trt_kind_is_composed_across_trt :
  ~ (forall (pmf_map : list (string * (pmf_arg float -> value float)))
       (np_prod : value float -> float) (disagg_outputs : list string)
       (disp : string) (matrix : list (value float))
       (ds ds' : list (string * value float)) (poe_agg : list float)
       (key : string) (fn : pmf_arg float -> value float),
       extract_pmfs pmf_map np_prod disagg_outputs disp matrix ds
         = Ok (ds', poe_agg) ->
       (key, fn) ∈ pmf_map -> requested disagg_outputs key = true ->
       dget (disp +:+ key) ds' = Some (fn (Tensor6 matrix))).
Proof.
  intros Hclaim.
  specialize (Hclaim [("Mag", probe_pmf)] seq_prod [] "disagg/PGA-sid-0-poe-0/"
                [Array [1] [0.5%float]; Array [1] [0.25%float]] []
                [("disagg/PGA-sid-0-poe-0/Mag", Array [1] [0.625%float])]
                [0.625%float] "Mag" probe_pmf).
  assert (Hrun : extract_pmfs [("Mag", probe_pmf)] seq_prod []
                   "disagg/PGA-sid-0-poe-0/"
                   [Array [1] [0.5%float]; Array [1] [0.25%float]] []
                 = Ok ([("disagg/PGA-sid-0-poe-0/Mag", Array [1] [0.625%float])],
                       [0.625%float])) by (vm_compute; reflexivity).
  specialize (Hclaim Hrun (list_elem_of_here _ _) eq_refl).
  vm_compute in Hclaim. revert Hclaim. intros [=].
Qed.

Lemma save_result_warns_on_poe_agg_witness :
  exists ds' attrs,
    _save_result [("Mag", probe_pmf)] seq_prod seq_mean [] [] "disagg" 0 0
      (Some 0.5%float) 0 0.1%float "PGA"
      [Array [1] [0.5%float]; Array [1] [0.25%float]]
    = Ok (ds', attrs, [PoeAggDiffers 0 0.625%float 0.5%float])
    /\ attr_poe_agg attrs = [0.625%float].
Proof.
  destruct (save_result_warns_on_poe_agg [("Mag", probe_pmf)] seq_prod seq_mean
              [] [] "disagg" 0 0 (Some 0.5%float) 0 0.1%float "PGA"
              [Array [1] [0.5%float]; Array [1] [0.25%float]]
              (Array [1] [0.625%float]))
    as (Hrun & _); [by vm_compute|].
  destruct Hrun as (ds' & attrs & Hrun & Hattr); [done|].
  exists ds', attrs. split; [exact Hrun|exact Hattr].
Defined.

(** ** The size check of [save_bin_edges] *)

Lemma wrap64_mod (z z' : Z) :
  (z mod 2 ^ 64 = z' mod 2 ^ 64)%Z -> wrap64 z = wrap64 z'.
Proof.
  intros Heq. unfold wrap64.
  by rewrite <- (Z.add_mod_idemp_l z), Heq, Z.add_mod_idemp_l.
Qed.

Lemma wrap64_mod_eq (z : Z) : (wrap64 z mod 2 ^ 64 = z mod 2 ^ 64)%Z.
Proof.
  unfold wrap64.
  rewrite <- Zminus_mod_idemp_l, Z.mod_mod by done.
  rewrite Zminus_mod_idemp_l. f_equal. lia.
Qed.

Lemma wrap64_small (z : Z) : (- 2 ^ 63 <= z < 2 ^ 63)%Z -> wrap64 z = z.
Proof. intros Hz. unfold wrap64. rewrite Z.mod_small; lia. Qed.

(** [numpy.prod] of a list of integers is the product, reduced into the
    range of the 64-bit signed integers. *)
Lemma np_prod_int64_wraps (shape : list Z) :
  np_prod_int64 shape = wrap64 (foldr Z.mul 1%Z shape).
Proof.
  unfold np_prod_int64.
  enough (Hgen : forall acc, wrap64 acc = acc ->
    fold_left (fun acc n => wrap64 (acc * n)) shape acc
    = wrap64 (acc * foldr Z.mul 1 shape)%Z).
  { rewrite Hgen by done. f_equal. lia. }
  induction shape as [|n shape IH]; intros acc Hacc; cbn [fold_left foldr].
  - by rewrite Z.mul_1_r.
  - rewrite IH.
    + apply wrap64_mod. rewrite <- Z.mul_mod_idemp_l, wrap64_mod_eq by done.
      rewrite Z.mul_mod_idemp_l by done. f_equal. lia.
    + apply wrap64_mod. by rewrite wrap64_mod_eq.
Qed.

(** While the product of the bin counts fits in 64 bits, the check sees
    the product itself. *)
Lemma np_prod_int64_exact (shape : list Z) :
  (- 2 ^ 63 <= foldr Z.mul 1 shape < 2 ^ 63)%Z ->
  np_prod_int64 shape = foldr Z.mul 1%Z shape.
Proof. intros Hfit. by rewrite np_prod_int64_wraps, wrap64_small. Qed.

(** In that range the check does raise for the first site whose matrix is
    too large. *)
Lemma check_matrix_sizes_raises {F : Type} (b : bin_edges F) (sid : nat)
    (sids : list nat) (trts : list string) (bins : list (list F)) :
  get_bins b sid = Ok bins ->
  let shape := map (fun bin => (Z.of_nat (length bin) - 1)%Z) bins
                 ++ [Z.of_nat (length trts)] in
  (- 2 ^ 63 <= foldr Z.mul 1 shape < 2 ^ 63)%Z ->
  (10 ^ 7 < foldr Z.mul 1 shape)%Z ->
  check_matrix_sizes b (sid :: sids) trts
  = Raise (MatrixTooLarge sid (foldr Z.mul 1%Z shape)).
Proof.
  intros Hbins shape Hfit Hbig. unfold check_matrix_sizes. cbn [for_loop].
  rewrite Hbins. cbn [rbind]. fold shape.
  rewrite (np_prod_int64_exact shape Hfit).
  apply Z.ltb_lt in Hbig. by rewrite Hbig.
Qed.

(** C7 fails on the code. With [65536] bins on each of the axes of
    magnitude, distance, longitude and latitude, one bin of epsilon and one
    TRT, the matrix of site [0] has [2^64] cells, far above the ceiling of
    [10^7]; but the product numpy computes wraps around to [0], the check
    passes, and [save_bin_edges] stores the edges instead of raising. *)
Theorem save_bin_edges_misses_wrapped_product :
  (10 ^ 7 < foldr Z.mul 1 [65536; 65536; 65536; 65536; 1; 1]%Z)%Z
  /\ np_prod_int64 [65536; 65536; 65536; 65536; 1; 1]%Z = 0%Z
  /\ check_matrix_sizes fine_bin_edges [0] ["Active Shallow Crust"]
     = Ok [NBins [65536; 65536; 65536; 65536; 1; 1]%Z 0]
  /\ is_ok (save_bin_edges fine_bin_edges [0] ["Active Shallow Crust"] []) = true.
Proof. repeat split; vm_compute; reflexivity. Qed.

(** * Further properties of the calculator *)

(** ** More on dictionaries and loops *)

Section DictKeys.
Context {K V : Type} `{EqDecision K}.
Implicit Types (d : list (K * V)) (k : K) (v : V).

Lemma keys_dset k v d :
  keys (dset k v d) = if decide (k ∈ keys d) then keys d else keys d ++ [k].
Proof.
  induction d as [|[k' v'] d IH]; simpl; [done|].
  destruct (decide (k = k')) as [->|Hne]; simpl.
  - rewrite decide_True; [done|]. apply list_elem_of_here.
  - unfold keys in *. rewrite IH. destruct (decide (k ∈ map fst d)) as [Hin|Hout].
    + rewrite decide_True; [done|]. by apply list_elem_of_further.
    + rewrite decide_False; [done|]. by intros [?|?]%elem_of_cons.
Qed.

Lemma elem_of_keys_dset k k' v d :
  k' ∈ keys (dset k v d) <-> k' = k \/ k' ∈ keys d.
Proof.
  rewrite keys_dset. destruct (decide (k ∈ keys d)) as [Hin|Hout].
  - split; [by right|]. by intros [->|?].
  - rewrite elem_of_app, list_elem_of_singleton. tauto.
Qed.

Lemma NoDup_keys_dset k v d : NoDup (keys d) -> NoDup (keys (dset k v d)).
Proof.
  intros Hnd. rewrite keys_dset. destruct (decide (k ∈ keys d)); [done|].
  apply NoDup_app. split; [done|]. split; [|apply NoDup_singleton].
  by intros x Hx ->%list_elem_of_singleton.
Qed.

Lemma dget_None_keys k d : dget k d = None <-> k ∉ keys d.
Proof.
  rewrite <- dget_Some_keys. destruct (dget k d) as [v|].
  - split; [done|]. intros Hn. exfalso. apply Hn. by eexists.
  - split; [|done]. by intros _ [? [=]].
Qed.

Lemma elem_of_dget k v d : NoDup (keys d) -> (k, v) ∈ d -> dget k d = Some v.
Proof.
  induction d as [|[k' v'] d IH]; simpl.
  - by intros _ ?%elem_of_nil.
  - intros [Hk' Hnd]%NoDup_cons [[= -> ->]|Hin]%elem_of_cons.
    + by rewrite decide_True.
    + rewrite decide_False; [by apply IH|]. intros ->. apply Hk'.
      apply (list_elem_of_fmap_2 fst) in Hin. exact Hin.
Qed.
End DictKeys.

Lemma for_loop_Ok_inv {A S} (I : S -> Prop) (body : S -> A -> outcome S)
    (l : list A) (s s' : S) :
  (forall s x s', x ∈ l -> I s -> body s x = Ok s' -> I s') ->
  I s -> for_loop body l s = Ok s' -> I s'.
Proof.
  revert s. induction l as [|x l IH]; intros s Hbody Hs; simpl.
  - by intros [= <-].
  - intros (s1 & H1 & H2)%rbind_Ok. apply (IH s1); [|by eapply Hbody, H1; [apply list_elem_of_here|]|done].
    intros ? y ? ?. apply Hbody. by apply list_elem_of_further.
Qed.

(** ** The accumulator of [agg_result] only grows *)

Section AggregatorGrowth.
Context {F : Type} `{Arith F}.
Context {K : Type} `{EqDecision K}.
Implicit Types (acc : list (K * list (nat * value F))).

Lemma agg_item_inv (t : nat) acc acc' (kv : K * value F) :
  agg_item t acc kv = Ok acc' ->
  exists v, agg_probs [default (Scalar zero) (acc_lookup acc kv.1 t); kv.2] = Ok v
    /\ acc' = dset kv.1 (dset t v (accum_get kv.1 acc)) acc.
Proof.
  unfold agg_item. intros (v & Hv & [= <-])%rbind_Ok. exists v. split; [|done].
  rewrite <- Hv. unfold acc_lookup, accum_get. by destruct (dget kv.1 acc).
Qed.

Lemma agg_item_grows (t : nat) acc acc' (kv : K * value F) :
  agg_item t acc kv = Ok acc' ->
  (exists new, keys acc' = keys acc ++ new)
  /\ (forall k, k ∈ keys acc' <-> k = kv.1 \/ k ∈ keys acc)
  /\ (forall k, k <> kv.1 -> dget k acc' = dget k acc)
  /\ is_Some (acc_lookup acc' kv.1 t)
  /\ (forall k t', is_Some (acc_lookup acc k t') -> is_Some (acc_lookup acc' k t')).
Proof.
  intros (v & _ & ->)%agg_item_inv. split; [|split; [|split; [|split]]].
  - rewrite keys_dset. destruct (decide (kv.1 ∈ keys acc)).
    + exists []. by rewrite app_nil_r.
    + by eexists.
  - intros k. apply elem_of_keys_dset.
  - intros k Hk. by apply dget_dset_ne.
  - unfold acc_lookup. rewrite dget_dset_eq. cbn. rewrite dget_dset_eq. by eexists.
  - intros k t'. unfold acc_lookup.
    destruct (decide (kv.1 = k)) as [<-|Hk]; [|by rewrite dget_dset_ne].
    rewrite dget_dset_eq. cbn. unfold accum_get.
    destruct (dget kv.1 acc) as [dic|]; cbn; [|by intros [? [=]]].
    destruct (decide (t = t')) as [<-|Ht].
    + rewrite dget_dset_eq. by eexists.
    + by rewrite dget_dset_ne.
Qed.

(** X1. [agg_result] never removes anything from the accumulator: the keys
    it had stay, in the same order, and the keys of the task result are
    added after them; the entry of a key the task does not report is left
    as it was; after the call every key of the task has a matrix for the
    TRT index of the task, and every matrix that was there before is
    still there. *)
Theorem agg_result_grows_accumulator acc acc' (result : task_result F K) :
  agg_result acc result = Ok acc' ->
  (exists new, keys acc' = keys acc ++ new)
  /\ (forall k, k ∈ keys acc' <-> k ∈ keys acc \/ k ∈ keys (items result))
  /\ (forall k, k ∉ keys (items result) -> dget k acc' = dget k acc)
  /\ (forall k, k ∈ keys (items result) ->
        is_Some (acc_lookup acc' k (trti result)))
  /\ (forall k t, is_Some (acc_lookup acc k t) -> is_Some (acc_lookup acc' k t)).
Proof.
  unfold agg_result. generalize (items result) as l, (trti result) as t.
  intros l t. revert acc. induction l as [|kv l IH]; intros acc; cbn [for_loop].
  - intros [= <-]. split; [exists []; by rewrite app_nil_r|].
    split; [|split; [done|split; [|done]]].
    + intros k. split; [by left|]. by intros [?|?%elem_of_nil].
    + by intros k ?%elem_of_nil.
  - intros (acc1 & H1 & H2)%rbind_Ok.
    apply agg_item_grows in H1 as ([new1 Hn1] & Hk1 & Hf1 & Hs1 & Hm1).
    apply IH in H2 as ([new2 Hn2] & Hk2 & Hf2 & Hs2 & Hm2).
    split; [|split; [|split; [|split]]].
    + exists (new1 ++ new2). by rewrite Hn2, Hn1, app_assoc.
    + intros k. rewrite Hk2, Hk1. unfold keys. cbn [map]. rewrite (elem_of_cons _ k).
      tauto.
    + intros k Hk. unfold keys in Hk. cbn [map] in Hk.
      apply not_elem_of_cons in Hk as [Hne Hk]. rewrite Hf2 by done. by apply Hf1.
    + intros k Hk. unfold keys in Hk. cbn [map] in Hk.
      apply elem_of_cons in Hk as [->|Hk]; [by apply Hm2|by apply Hs2].
    + intros k t' Hk. by apply Hm2, Hm1.
Qed.

End AggregatorGrowth.

Lemma agg_result_grows_accumulator_witness :
  let acc := [((7, "PGA"), [(0, Array [2] [0.5; 0.25]%float)])] in
  let acc' := [((7, "PGA"), [(0, Array [2] [0.5; 0.25]%float)]);
               ((8, "PGA"), [(1, Array [2] [0.5; 0.5]%float)])] in
  is_Some (acc_lookup acc' (8, "PGA") 1)
  /\ dget (7, "PGA") acc' = dget (7, "PGA") acc.
Proof.
  intros acc acc'.
  destruct (agg_result_grows_accumulator acc acc'
              {| trti := 1; items := [((8, "PGA"), Array [2] [0.5; 0.5]%float)] |})
    as (_ & _ & Hframe & Hnew & _); [by vm_compute|].
  split.
  - apply (Hnew (8, "PGA")). apply list_elem_of_here.
  - apply Hframe. by intros [[=]|[]%elem_of_nil]%elem_of_cons.
Defined.

(** ** From the accumulator to the tensors ([post_execute]) *)

Section Densify.
Context {F : Type} `{Arith F}.
Implicit Types (matrices : list (nat * value F)) (mat : list (value F)).

(** What a run of the loop of [_to_matrix] that ends tells. *)
Lemma store_slices_inv matrices (T : nat) (shp : list nat) (ks : list nat)
    mat mat' :
  for_loop (store_slice matrices T shp) ks mat = Ok mat' ->
  length mat' = length mat
  /\ (forall t, t ∈ ks -> t < T)
  /\ (Forall (fun v => exists c, v = Array shp c) mat ->
      Forall (fun v => exists c, v = Array shp c) mat').
Proof.
  revert mat. induction ks as [|k ks IH]; intros mat; cbn [for_loop].
  - intros [= <-]. split; [done|]. split; [|done]. by intros t ?%elem_of_nil.
  - intros (mat1 & H1 & H2)%rbind_Ok.
    unfold store_slice in H1. apply rbind_Ok in H1 as (m & _ & H1).
    destruct (decide (k < T)) as [Hk|]; [|done].
    apply rbind_Ok in H1 as (s & Hs & [= <-]).
    apply IH in H2 as (Hlen & Hks & Hshape). rewrite length_insert in Hlen.
    split; [done|]. split.
    + by intros t [->|?]%elem_of_cons; [|apply Hks].
    + intros Hall. apply Hshape.
      destruct (decide (k < length mat)) as [Hlt|Hge].
      * apply Forall_insert; [done|]. unfold assign_slice in Hs.
        destruct m as [x|s' c'].
        -- injection Hs as <-. by eexists.
        -- destruct (decide (s' = shp)) as [->|]; [|done].
           injection Hs as <-. by eexists.
      * rewrite list_insert_ge by lia. done.
Qed.

Lemma to_matrix_inv matrices (T : nat) mat :
  _to_matrix matrices T = Ok mat ->
  exists t0 m0 rest, matrices = (t0, m0) :: rest
    /\ length mat = T /\ 0 < T
    /\ (forall t, t ∈ keys matrices -> t < T)
    /\ Forall (fun v => exists c, v = Array (shape m0) c) mat.
Proof.
  unfold _to_matrix. destruct matrices as [|[t0 m0] rest] eqn:Hm; [done|].
  rewrite <- Hm. intros Hrun.
  apply store_slices_inv in Hrun as (Hlen & Hks & Hshape).
  rewrite length_replicate in Hlen.
  exists t0, m0, rest. split; [done|]. split; [done|]. split; [|split; [done|]].
  - specialize (Hks t0). rewrite Hm in Hks.
    assert (t0 < T) by (apply Hks, list_elem_of_here). lia.
  - apply Hshape. apply Forall_replicate. by eexists.
Qed.

(** [_to_matrix] on a dictionary of matrices of one shape whose keys are
    in range. *)
Lemma to_matrix_run matrices (T : nat) (shp : list nat) :
  matrices <> [] ->
  (forall t m, dget t matrices = Some m -> t < T /\ exists c, m = Array shp c) ->
  exists mat, _to_matrix matrices T = Ok mat
    /\ length mat = T
    /\ (forall t m, dget t matrices = Some m -> mat !! t = Some m)
    /\ (forall t, t < T -> dget t matrices = None -> mat !! t = Some (zeros shp)).
Proof.
  intros Hne Hwf. destruct matrices as [|[t0 m0] rest] eqn:Hm; [done|].
  rewrite <- Hm in *.
  assert (Hshp : shape m0 = shp).
  { destruct (Hwf t0 m0) as (_ & c & ->); [|done].
    rewrite Hm. cbn. by rewrite decide_True. }
  assert (Hkeys : forall t, t ∈ keys matrices ->
            t < T /\ exists c, dget t matrices = Some (Array shp c)).
  { intros t [m Hget]%dget_Some_keys.
    destruct (Hwf t m Hget) as (? & c & ->). eauto. }
  destruct (store_slice_loop matrices T shp (keys matrices)
              (replicate T (zeros shp))) as (mat & Hrun & Hlen & Hin & Hout);
    [apply length_replicate|done|].
  exists mat. split; [|split; [done|split]].
  - rewrite <- Hrun, <- Hshp, Hm. reflexivity.
  - intros t m Hget. rewrite Hin; [done|]. apply dget_Some_keys. by eexists.
  - intros t Ht Hget. rewrite Hout.
    + by apply lookup_replicate_2.
    + by apply dget_None_keys.
Qed.

(** X2. The ways [_to_matrix] ends.  It raises [StopIteration] on an
    empty dictionary.  When it returns a tensor, the dictionary was not
    empty, every TRT index in it is below [num_trts], and the tensor has
    [num_trts] slices, at least one, all of the shape of the first matrix.
    When the matrices have one shape and some TRT index is not below
    [num_trts], it raises [IndexError]. *)
Theorem to_matrix_needs_trt_indices_in_range matrices (T : nat) :
  _to_matrix [] T = Raise (A := list (value F)) StopIteration
  /\ (forall mat, _to_matrix matrices T = Ok mat ->
        matrices <> [] /\ 0 < T /\ length mat = T
        /\ (forall t, t ∈ keys matrices -> t < T)
        /\ exists shp, (exists t0 m0, head matrices = Some (t0, m0) /\ shape m0 = shp)
             /\ Forall (fun slice => shape slice = shp) mat)
  /\ (forall shp t,
        (forall t' m, (t', m) ∈ matrices -> exists c, m = Array shp c) ->
        t ∈ keys matrices -> T <= t ->
        _to_matrix matrices T = Raise IndexError).
Proof.
  split; [done|]. split.
  - intros mat (t0 & m0 & rest & -> & Hlen & HT & Hks & Hall)%to_matrix_inv.
    split; [done|]. split; [done|]. split; [done|]. split; [done|].
    exists (shape m0). split; [by exists t0, m0|].
    eapply Forall_impl; [exact Hall|]. by intros v [c ->].
  - intros shp t Hshp Ht HT.
    destruct matrices as [|[t0 m0] rest] eqn:Hm; [by apply elem_of_nil in Ht|].
    rewrite <- Hm in *. unfold _to_matrix. rewrite Hm at 1.
    assert (Hm0 : shape m0 = shp).
    { destruct (Hshp t0 m0) as [c ->]; [rewrite Hm; apply list_elem_of_here|done]. }
    rewrite Hm0.
    assert (Hget : forall k, k ∈ keys matrices ->
              exists c, dget k matrices = Some (Array shp c)).
    { intros k [m Hk]%dget_Some_keys. apply dget_elem_of in Hk as Hin.
      destruct (Hshp k m Hin) as [c ->]. eauto. }
    revert Ht Hget. generalize (keys matrices) as ks.
    generalize (replicate T (zeros shp)) as mat.
    intros mat ks. revert mat.
    induction ks as [|k ks IH]; intros mat Ht Hget; [by apply elem_of_nil in Ht|].
    cbn [for_loop]. unfold store_slice at 1.
    destruct (Hget k) as [c Hc]; [apply list_elem_of_here|]. rewrite Hc.
    cbn [of_option rbind]. destruct (decide (k < T)) as [Hk|Hk]; [|done].
    cbn [assign_slice]. rewrite decide_True by done. cbn [rbind].
    apply IH.
    + apply elem_of_cons in Ht as [->|Ht]; [lia|done].
    + intros k' Hk'. apply Hget. by apply list_elem_of_further.
Qed.
End Densify.

Lemma to_matrix_needs_trt_indices_in_range_witness :
  _to_matrix [(0, Array [2] [0.1; 0.2]%float); (3, Array [2] [0.3; 0.4]%float)] 3
  = Raise IndexError.
Proof.
  destruct (to_matrix_needs_trt_indices_in_range
              [(0, Array [2] [0.1; 0.2]%float); (3, Array [2] [0.3; 0.4]%float)] 3)
    as (_ & _ & Hraise).
  apply (Hraise [2] 3); [|apply list_elem_of_further, list_elem_of_here|lia].
  intros t m Hin. repeat (apply elem_of_cons in Hin as [[= -> ->]|Hin]);
    [by eexists..|by apply elem_of_nil in Hin].
Defined.

Section ReduceToTensors.
Context {F : Type} `{Arith F}.
Context {K : Type} `{EqDecision K}.
Implicit Types (acc : list (K * list (nat * value F))).

(** Composing anything with an array gives an array of the same shape. *)
Lemma agg_probs_into_array (a v : value F) (s : list nat) (c : list F) :
  agg_probs [a; Array s c] = Ok v -> exists c', v = Array s c'.
Proof.
  unfold agg_probs. cbn [for_loop]. intros (acc & Hacc & [= <-])%rbind_Ok.
  apply rbind_Ok in Hacc as (acc1 & Hmul & [= <-]).
  destruct a as [x|s' c']; cbn in Hmul.
  - injection Hmul as <-. by eexists.
  - destruct (decide (s' = s)) as [->|]; [|done]. injection Hmul as <-. by eexists.
Qed.

Lemma agg_item_dense (shape_of : K -> list nat) (T t : nat) acc acc'
    (key : K) (c : list F) :
  t < T -> acc_dense shape_of T acc ->
  agg_item t acc (key, Array (shape_of key) c) = Ok acc' ->
  acc_dense shape_of T acc'.
Proof.
  intros Ht [Hnd Hacc] (v & Hv & ->)%agg_item_inv. cbn [fst snd] in *.
  apply agg_probs_into_array in Hv as [c' ->].
  split; [by apply NoDup_keys_dset|]. intros key' dic.
  destruct (decide (key = key')) as [<-|Hne].
  - rewrite dget_dset_eq. intros [= <-]. split.
    { by destruct (accum_get key acc) as [|[t0 m0] rest]; cbn;
        [|destruct (decide (t = t0))]. }
    intros t' m. destruct (decide (t = t')) as [<-|Hne].
    + rewrite dget_dset_eq. intros [= <-]. split; [done|by eexists].
    + rewrite dget_dset_ne by done. unfold accum_get.
      destruct (dget key acc) as [dic|] eqn:Hdic; cbn; [|done].
      by apply (Hacc key dic).
  - rewrite dget_dset_ne by done. apply Hacc.
Qed.

Lemma reduce_dense (shape_of : K -> list nat) (T : nat)
    (results : list (task_result F K)) acc :
  well_shaped shape_of results ->
  (forall r, r ∈ results -> trti r < T) ->
  reduce results = Ok acc -> acc_dense shape_of T acc.
Proof.
  intros Hws HT. unfold reduce. rewrite reduce_steps.
  assert (Hxs : forall t key v, (t, (key, v)) ∈ steps results ->
            t < T /\ exists c, v = Array (shape_of key) c).
  { intros t key v. unfold steps. rewrite list_elem_of_In, in_flat_map.
    intros (r & Hr%list_elem_of_In & Hin). apply in_map_iff in Hin as ([k v'] & [= <- <- <-] & Hin).
    split; [by apply HT|]. apply (Hws r); [done|by apply list_elem_of_In]. }
  revert Hxs. generalize (steps results) as xs.
  assert (Hinit : acc_dense (F := F) shape_of T []).
  { split; [apply NoDup_nil_2|done]. }
  revert Hinit. generalize ([] : list (K * list (nat * value F))) as acc0.
  intros acc0 Hinit xs. revert acc0 Hinit.
  induction xs as [|[t [key v]] xs IH]; intros acc0 Hinit Hxs; cbn [for_loop].
  - by intros [= <-].
  - intros (acc1 & H1 & H2)%rbind_Ok.
    destruct (Hxs t key v) as (Ht & c & ->); [apply list_elem_of_here|].
    apply (IH acc1); [|by intros; apply Hxs, list_elem_of_further|done].
    unfold step in H1. by eapply agg_item_dense.
Qed.

(** X3. The accumulator that the reduction of the task results returns
    can always be densified.  When every task reports, under a key,
    matrices of the shape of that key, and every TRT index is below
    [T = len(self.trts)], the dictionary comprehension of [post_execute]
    does not fail on the reduced accumulator: it has the same keys in the
    same order, and the tensor of a key has [T] slices, the slice of a TRT
    index being the matrix accumulated for it, or zeros of the shape of
    the key when no task reported that TRT for the key. *)
Theorem reduced_results_are_densified (shape_of : K -> list nat) (T : nat)
    (results : list (task_result F K)) acc :
  well_shaped shape_of results ->
  (forall r, r ∈ results -> trti r < T) ->
  reduce results = Ok acc ->
  exists tensors, to_matrices acc T = Ok tensors
    /\ keys tensors = keys acc
    /\ forall key dic, dget key acc = Some dic ->
         exists mat, dget key tensors = Some mat
           /\ length mat = T
           /\ (forall t m, dget t dic = Some m -> mat !! t = Some m)
           /\ (forall t, t < T -> dget t dic = None ->
                 mat !! t = Some (zeros (shape_of key))).
Proof.
  intros Hws HT Hred.
  destruct (reduce_dense shape_of T results acc Hws HT Hred) as [Hnd Hacc].
  unfold to_matrices.
  assert (Hloop : forall (l : list (K * list (nat * value F)))
                         (out : list (K * list (value F))),
    NoDup (keys l) -> (forall k, k ∈ keys l -> k ∉ keys out) ->
    (forall key dic, (key, dic) ∈ l -> dget key acc = Some dic) ->
    exists out',
      for_loop (fun out kv => mat <-! _to_matrix kv.2 T ;; Ok (dset kv.1 mat out))
        l out = Ok out'
      /\ keys out' = keys out ++ keys l
      /\ (forall k, k ∉ keys l -> dget k out' = dget k out)
      /\ forall key dic, (key, dic) ∈ l ->
           exists mat, dget key out' = Some mat
             /\ length mat = T
             /\ (forall t m, dget t dic = Some m -> mat !! t = Some m)
             /\ (forall t, t < T -> dget t dic = None ->
                   mat !! t = Some (zeros (shape_of key)))).
  { induction l as [|[key dic] l IH]; intros out Hndl Hfresh Hl.
    - exists out. split; [done|]. split; [by rewrite app_nil_r|].
      split; [done|]. by intros key dic ?%elem_of_nil.
    - unfold keys in Hndl. cbn [map fst] in Hndl.
      apply NoDup_cons in Hndl as [Hkey Hndl].
      destruct (Hacc key dic) as [Hne Hdic]; [apply Hl, list_elem_of_here|].
      destruct (to_matrix_run dic T (shape_of key) Hne Hdic)
        as (mat & Hrun & Hlen & Hin & Hout).
      assert (Hkout : key ∉ keys out) by (apply Hfresh, list_elem_of_here).
      destruct (IH (dset key mat out) Hndl) as (out' & Hrun' & Hkeys & Hframe & Hall).
      { intros k Hk [->|Hko]%elem_of_keys_dset; [done|].
        by apply (Hfresh k); [apply list_elem_of_further|]. }
      { intros k d Hkd. apply Hl. by apply list_elem_of_further. }
      exists out'. split; [|split; [|split]].
      + cbn [for_loop fst snd]. rewrite Hrun. cbn [rbind]. exact Hrun'.
      + rewrite Hkeys, keys_dset, decide_False by done.
        unfold keys. cbn [map fst]. by rewrite <- app_assoc.
      + intros k Hk. unfold keys in Hk. cbn [map fst] in Hk.
        apply not_elem_of_cons in Hk as [Hne' Hk].
        rewrite Hframe by done. by apply dget_dset_ne.
      + intros k d [[= -> ->]|Hkd]%elem_of_cons; [|by apply Hall].
        exists mat. split; [|done]. rewrite Hframe by done. apply dget_dset_eq. }
  destruct (Hloop acc [] Hnd) as (tensors & Hrun & Hkeys & _ & Hall).
  { by intros k _ ?%elem_of_nil. }
  { intros key dic Hin. by apply elem_of_dget. }
  exists tensors. split; [done|]. split; [done|].
  intros key dic Hget. apply Hall. by apply dget_elem_of.
Qed.
End ReduceToTensors.

Lemma reduced_results_are_densified_witness :
  exists tensors,
    to_matrices
      [(0, [(1, Array [1] [0.5%float]); (0, Array [1] [0.25%float])])] 3
    = Ok tensors
    /\ dget 0 tensors
       = Some [Array [1] [0.25%float]; Array [1] [0.5%float]; zeros [1]].
Proof.
  destruct (reduced_results_are_densified (fun _ : nat => [1]) 3
              [{| trti := 1; items := [(0, Array [1] [0.5%float])] |};
               {| trti := 0; items := [(0, Array [1] [0.25%float])] |}]
              [(0, [(1, Array [1] [0.5%float]); (0, Array [1] [0.25%float])])])
    as (tensors & Hrun & _ & _).
  - intros r key v Hr Hin.
    repeat (apply elem_of_cons in Hr as [->|Hr]); [| |by apply elem_of_nil in Hr];
      apply elem_of_cons in Hin as [[= -> ->]|Hin];
      (by eexists) || by apply elem_of_nil in Hin.
  - intros r Hr.
    repeat (apply elem_of_cons in Hr as [->|Hr]); [| |by apply elem_of_nil in Hr];
      cbn; lia.
  - by vm_compute.
  - exists tensors. split; [done|]. vm_compute in Hrun.
    injection Hrun as <-. reflexivity.
Defined.

Section SaveDensified.
Variable pmf_map : list (string * (pmf_arg float -> value float)).
Variable np_prod : value float -> float.
Variable np_mean : list float -> float.

(** Arrays of one shape always compose. *)
Lemma agg_probs_same_shape {F : Type} `{Arith F} (shp : list nat)
    (l : list (value F)) :
  l <> [] -> Forall (fun v => exists c, v = Array shp c) l ->
  exists c, agg_probs l = Ok (Array shp c).
Proof.
  destruct l as [|p0 rest]; [done|]. intros _ [[c0 ->] Hrest]%Forall_cons.
  unfold agg_probs. cbn [vcompl vmap].
  generalize (map (sub one) c0) as a. induction Hrest as [|p rest [c ->] _ IH];
    intros a; cbn [for_loop].
  - by eexists.
  - cbn [vcompl vmap vmul]. rewrite decide_True by done. cbn [rbind]. apply IH.
Qed.

(** X4. A tensor made by [_to_matrix] is accepted by [_save_result] as
    soon as one kind of [pmf_map] is requested: its slices compose across
    the TRT axis into an [aggmatrix] of the shape of the matrices, and,
    once the site, the index of the probability and the intensity have
    been looked up, the extraction of the PMFs does not raise and, a
    dataset having been stored under [disp_name], neither does the
    writing of the attributes.  When no kind of [pmf_map] is requested
    and the file has nothing under [disp_name], the lookup
    [self.datastore.hdf5[disp_name]] raises [KeyError]. *)
Theorem save_result_accepts_densified_tensor
    (matrices : list (nat * value float)) (T : nat) (mat : list (value float))
    (disagg_outputs : list string) (ds : list (string * value float))
    (dskey : string) (site_id rlz_id : nat) (poe : option float)
    (poe_id : nat) (iml : float) (imt_str : string) :
  _to_matrix matrices T = Ok mat ->
  let run :=
    _save_result pmf_map np_prod np_mean disagg_outputs ds dskey site_id
      rlz_id poe poe_id iml imt_str mat in
  exists aggmatrix,
    agg_probs mat = Ok aggmatrix
    /\ (forall t0 m0, head matrices = Some (t0, m0) -> shape aggmatrix = shape m0)
    /\ ((exists key fn, (key, fn) ∈ pmf_map
           /\ requested disagg_outputs key = true) ->
        exists ds' attrs log,
          run = Ok (ds', attrs, log)
          /\ attr_site_id attrs = site_id /\ attr_rlzi attrs = rlz_id
          /\ attr_imt attrs = imt_str /\ attr_iml attrs = iml)
    /\ ((forall key fn, (key, fn) ∈ pmf_map ->
           requested disagg_outputs key = false) ->
        hdf5_group ds (disp_name dskey imt_str site_id poe_id) = false ->
        run = Raise KeyError).
Proof.
  intros (t0 & m0 & rest & -> & Hlen & HT & _ & Hall)%to_matrix_inv run.
  destruct (agg_probs_same_shape (shape m0) mat) as [c Hagg]; [|done|].
  { intros ->. cbn in Hlen. lia. }
  exists (Array (shape m0) c). split; [done|].
  split; [by intros ? ? [= _ <-]|].
  pose proof (save_result_run pmf_map np_prod np_mean disagg_outputs ds dskey
                site_id rlz_id poe poe_id iml imt_str mat _ Hagg) as Hrun.
  cbv zeta in Hrun. fold run in Hrun. split.
  - intros (key & fn & Hin & Hreq).
    assert (Hany : existsb (fun kf => requested disagg_outputs kf.1) pmf_map
                   = true).
    { apply existsb_exists. exists (key, fn).
      split; [by apply list_elem_of_In|done]. }
    rewrite Hany, orb_true_r in Hrun. by eexists _, _, _.
  - intros Hnone Hgroup.
    assert (Hany : existsb (fun kf => requested disagg_outputs kf.1) pmf_map
                   = false).
    { apply not_true_is_false. intros ([key fn] & Hin & Hreq)%existsb_exists.
      apply list_elem_of_In in Hin. cbn [fst] in Hreq.
      by rewrite (Hnone key fn Hin) in Hreq. }
    by rewrite Hany, Hgroup in Hrun.
Qed.
End SaveDensified.

Lemma save_result_accepts_densified_tensor_witness :
  is_ok (_save_result [("Mag", probe_pmf)] seq_prod seq_mean [] [] "disagg" 0 0
           (Some 0.5%float) 0 0.1%float "PGA"
           [Array [1] [0.5%float]; zeros [1]]) = true.
Proof.
  destruct (save_result_accepts_densified_tensor [("Mag", probe_pmf)] seq_prod
              seq_mean [(0, Array [1] [0.5%float])] 2
              [Array [1] [0.5%float]; zeros [1]]
              [] [] "disagg" 0 0 (Some 0.5%float) 0 0.1%float "PGA")
    as (agg & _ & _ & Hrun & _); [by vm_compute|].
  destruct Hrun as (ds' & attrs & log & Hrun & _).
  - exists "Mag", probe_pmf. split; [apply list_elem_of_here|done].
  - by rewrite Hrun.
Defined.

(** ** The hazard curves of [get_curve] *)

Section CurvesOfGetCurve.
Context {F : Type} `{Arith F}.
Implicit Types (curve imtls : list (string * list F)) (poes : list F).

Lemma all_zero_imt_None curve (imts : list string) :
  all_zero_imt curve imts = Ok None ->
  forall imt, imt ∈ imts ->
    exists hz x, dget imt curve = Some hz /\ x ∈ hz /\ eqb x zero = false.
Proof.
  induction imts as [|i imts IH]; cbn [all_zero_imt].
  - by intros _ imt ?%elem_of_nil.
  - intros (hz & Hhz & Hrest)%rbind_Ok imt Himt.
    destruct (dget i curve) as [hz'|] eqn:Hget; [|done]. injection Hhz as ->.
    destruct (forallb (fun x => eqb x zero) hz) eqn:Hall; [done|].
    apply elem_of_cons in Himt as [->|Himt]; [|by apply IH].
    exists hz. apply not_true_iff_false in Hall.
    rewrite forallb_forall in Hall.
    destruct (existsb (fun x => negb (eqb x zero)) hz) eqn:Hex.
    + apply existsb_exists in Hex as (x & Hx%list_elem_of_In & Hnz).
      exists x. split; [done|]. split; [done|]. by destruct (eqb x zero).
    + exfalso. apply Hall. intros x Hx.
      destruct (eqb x zero) eqn:Hxz; [done|].
      assert (existsb (fun x => negb (eqb x zero)) hz = true); [|congruence].
      apply existsb_exists. exists x. by rewrite Hxz.
Qed.

(** What [get_curve] tells when it returns a curve. *)
Lemma get_curve_Some pgetter_get ordinal imtls (sid : nat)
    (rlz_by_sid : list nat) curve (log : list (logrec F)) :
  get_curve pgetter_get ordinal imtls sid rlz_by_sid = Ok (Some curve, log) ->
  log = []
  /\ (exists rlz pmap, rlz_by_sid !! sid = Some rlz
        /\ pgetter_get rlz = Ok pmap /\ dget sid pmap = Some curve)
  /\ forall imt, imt ∈ keys imtls ->
       exists hz x, dget imt curve = Some hz /\ x ∈ hz /\ eqb x zero = false.
Proof.
  unfold get_curve. intros (rlz & Hrlz & Hrun)%rbind_Ok.
  destruct (rlz_by_sid !! sid) as [rlz'|] eqn:Hsid; [|done]. injection Hrlz as ->.
  destruct (pgetter_get rlz) as [pmap|e] eqn:Hget.
  - destruct (dget sid pmap) as [poes|] eqn:Hpoes; [|done].
    apply rbind_Ok in Hrun as (z & Hz & Hrun). destruct z as [imt|].
    + by apply rbind_Ok in Hrun as (o & _ & [=]).
    + injection Hrun as <- <-. split; [done|]. split; [by eauto|].
      by apply all_zero_imt_None.
  - destruct e; try done. by apply rbind_Ok in Hrun as (o & _ & [=]).
Qed.

Lemma get_curves_loop pgetter_get ordinal imtls (sids rlzs : list nat)
    (st st' : list (option (list (string * list F))) * list (logrec F)) :
  for_loop (fun st sid =>
      r <-! get_curve (pgetter_get sid) ordinal imtls sid rlzs ;;
      Ok (st.1 ++ [r.1], st.2 ++ r.2)) sids st = Ok st' ->
  exists new, st'.1 = st.1 ++ new
    /\ Forall2 (fun sid c => exists log,
         get_curve (pgetter_get sid) ordinal imtls sid rlzs = Ok (c, log)) sids new.
Proof.
  revert st. induction sids as [|sid sids IH]; intros st; cbn [for_loop].
  - intros [= <-]. exists []. by rewrite app_nil_r.
  - intros (st1 & H1 & H2)%rbind_Ok.
    apply rbind_Ok in H1 as ([c log] & Hc & [= <-]).
    apply IH in H2 as (new & -> & Hall). cbn [fst snd].
    exists (c :: new). split; [by rewrite <- app_assoc|].
    constructor; [by exists log|done].
Qed.

(** X5. The curves [full_disaggregation] collects with [get_curve] for the
    sites [0, ..., N-1] are what [check_poes_disagg] expects: there is one
    entry per site, and a site that has a curve has a realization and,
    for every IMT, an array of probabilities that is not empty and not
    all zeros.  So the loop of [check_poes_disagg] over these curves does
    not fail with a lookup error or on the maximum of an empty array: it
    returns [ok_sites], the sites for which no requested probability
    exceeds the maximum of a curve. *)
Theorem get_curves_feed_check_poes_disagg pgetter_get ordinal imtls (N : nat)
    (rlzs : list nat) poes
    (curves : list (option (list (string * list F)))) (log : list (logrec F)) :
  get_curves pgetter_get ordinal imtls (seq 0 N) rlzs = Ok (curves, log) ->
  length curves = N
  /\ (forall sid curve imt, curves !! sid = Some (Some curve) ->
        imt ∈ keys imtls ->
        exists hz x, dget imt curve = Some hz /\ x ∈ hz /\ eqb x zero = false)
  /\ curves_cover (seq 0 N) curves rlzs imtls
  /\ exists ok_sites log',
       collect_ok_sites (seq 0 N) imtls poes curves rlzs = Ok (ok_sites, log')
       /\ forall sid, sid ∈ ok_sites
            <-> sid < N /\ ~ infeasible curves imtls poes sid.
Proof.
  unfold get_curves. intros (new & Hnew & Hall)%get_curves_loop.
  cbn [fst app] in Hnew. subst new.
  assert (Hlen : length curves = N).
  { apply Forall2_length in Hall. by rewrite length_seq in Hall. }
  assert (Hcurve : forall sid c, curves !! sid = Some c -> exists lg,
            get_curve (pgetter_get sid) ordinal imtls sid rlzs = Ok (c, lg)).
  { intros sid c Hc.
    destruct (Forall2_lookup_r _ _ _ _ _ Hall Hc) as (sid' & Hsid' & Hget).
    apply lookup_seq in Hsid' as [-> _]. exact Hget. }
  assert (Hnz : forall sid curve imt, curves !! sid = Some (Some curve) ->
            imt ∈ keys imtls ->
            exists hz x, dget imt curve = Some hz /\ x ∈ hz /\ eqb x zero = false).
  { intros sid curve imt [lg Hget]%Hcurve Himt.
    apply get_curve_Some in Hget as (_ & _ & Hget). by apply Hget. }
  assert (Hcover : curves_cover (seq 0 N) curves rlzs imtls).
  { intros sid [_ Hsid]%elem_of_seq.
    destruct (lookup_lt_is_Some_2 curves sid) as [c Hc]; [lia|].
    exists c. split; [done|]. intros curve ->.
    destruct (Hcurve sid _ Hc) as [lg Hget].
    apply get_curve_Some in Hget as (_ & (rlz & _ & Hrlz & _) & Hget).
    split; [by eexists|]. intros imt Himt.
    destruct (Hget imt Himt) as (hz & x & Hhz & Hx & _).
    destruct hz as [|y rest]; [by apply elem_of_nil in Hx|]. eauto. }
  split; [done|]. split; [done|]. split; [done|].
  eexists _, _. split; [by apply collect_ok_sites_run|].
  intros sid. rewrite list_elem_of_In, filter_In, <- list_elem_of_In, elem_of_seq.
  split.
  - intros [Hsid Hok]. split; [lia|].
    eapply site_ok_spec; [done| |done]. apply elem_of_seq. lia.
  - intros [Hsid Hok]. split; [lia|].
    eapply site_ok_spec; [done| |done]. apply elem_of_seq. lia.
Qed.
End CurvesOfGetCurve.

Lemma get_curves_feed_check_poes_disagg_witness :
  exists ok_sites log',
    collect_ok_sites (seq 0 2) [("PGA", [0.1; 0.2]%float)] [0.02%float]
      [Some [("PGA", [0.05; 0.01]%float)]; None] [0; 0] = Ok (ok_sites, log')
    /\ 0 ∈ ok_sites.
Proof.
  destruct (get_curves_feed_check_poes_disagg
              (fun sid rlz =>
                 if sid =? 0 then Ok [(0, [("PGA", [0.05; 0.01]%float)])]
                 else Ok [])
              int_ordinal [("PGA", [0.1; 0.2]%float)] 2 [0; 0] [0.02%float]
              [Some [("PGA", [0.05; 0.01]%float)]; None] [])
    as (_ & _ & _ & oks & log' & Hrun & Hoks); [by vm_compute|].
  exists oks, log'. split; [done|].
  vm_compute in Hrun. injection Hrun as <- _.
  apply list_elem_of_here.
Defined.

(** ** The sites [check_poes_disagg] returns *)

Lemma sublist_full {A} (l1 l2 : list A) :
  sublist l1 l2 -> length l2 <= length l1 -> l1 = l2.
Proof.
  induction 1 as [|x l1 l2 _ IH|x l1 l2 Hsub _]; cbn [length]; intros Hlen.
  - done.
  - f_equal. apply IH. lia.
  - apply sublist_length in Hsub. lia.
Qed.

Section OkSites.
Context {F : Type} `{Arith F}.
Implicit Types (curve imtls : list (string * list F)) (poes : list F).

(** The warnings of [_check_curve] are all about the site it is given. *)
Lemma check_curve_log (sid rlz : nat) curve imtls poes (bad : bool)
    (log : list (logrec F)) :
  _check_curve sid rlz curve imtls poes = Ok (bad, log) ->
  (bad = false <-> log = [])
  /\ forall r, r ∈ log -> exists poe max_poe imt,
       r = PoeTooBig sid poe max_poe rlz imt /\ poe ∈ poes
       /\ ltb max_poe poe = true.
Proof.
  unfold _check_curve. intros (st & Hloop & [= <- <-])%rbind_Ok.
  assert (HI : st.1 = length st.2
    /\ forall r, r ∈ st.2 -> exists poe max_poe imt,
         r = PoeTooBig sid poe max_poe rlz imt /\ poe ∈ poes
         /\ ltb max_poe poe = true).
  { revert Hloop.
    apply (for_loop_Ok_inv (fun st : nat * list (logrec F) =>
      st.1 = length st.2
      /\ forall r, r ∈ st.2 -> exists poe max_poe imt,
           r = PoeTooBig sid poe max_poe rlz imt /\ poe ∈ poes
           /\ ltb max_poe poe = true));
      [|split; [done|by intros r ?%elem_of_nil]].
    intros s imt s' _ Hs (hz & _ & Hstep)%rbind_Ok.
    apply rbind_Ok in Hstep as (max_poe & _ & [= <-]).
    rewrite poes_loop. destruct Hs as [Hn Hlog]. cbn [fst snd]. split.
    - rewrite length_app. by rewrite Hn.
    - intros r [Hr|Hr]%elem_of_app; [by apply Hlog|].
      unfold imt_warnings in Hr. apply list_elem_of_In, in_map_iff in Hr
        as (poe & <- & [Hp Hlt]%filter_In).
      exists poe, max_poe, imt. split; [done|]. by rewrite list_elem_of_In. }
  destruct HI as [Hn Hlog]. split; [|done].
  rewrite Hn. destruct st.2; cbn; split; done.
Qed.

Lemma collect_ok_sites_inv (sids : list nat) imtls poes
    (curves : list (option (list (string * list F)))) (rlzs : list nat)
    (st st' : list nat * list (logrec F)) :
  for_loop (check_site imtls poes curves rlzs) sids st = Ok st' ->
  exists oks log, st' = (st.1 ++ oks, st.2 ++ log)
    /\ sublist oks sids
    /\ (forall sid, sid ∈ sids -> is_Some (curves !! sid))
    /\ (log = [] -> oks = sids)
    /\ (log <> [] -> length oks < length sids)
    /\ (forall r, r ∈ log -> exists sid poe max_poe rlz imt,
          r = PoeTooBig sid poe max_poe rlz imt /\ sid ∈ sids /\ poe ∈ poes
          /\ ltb max_poe poe = true).
Proof.
  revert st. induction sids as [|sid sids IH]; intros st; cbn [for_loop].
  - intros [= <-]. exists [], []. rewrite !app_nil_r.
    split; [by destruct st|]. split; [constructor|].
    split; [by intros ? ?%elem_of_nil|]. split; [done|]. split; [done|].
    by intros ? ?%elem_of_nil.
  - intros (st1 & H1 & H2)%rbind_Ok.
    apply IH in H2 as (oks & log & -> & Hsub & Hcur & Hall & Hsome & Hlog).
    unfold check_site in H1. apply rbind_Ok in H1 as (c & Hc & H1).
    assert (Hsid : is_Some (curves !! sid)) by (by destruct (curves !! sid)).
    assert (Hcur' : forall s, s ∈ sid :: sids -> is_Some (curves !! s)).
    { by intros s [->|?]%elem_of_cons; [|apply Hcur]. }
    assert (Hlog' : forall r, r ∈ log -> exists s poe max_poe rlz imt,
              r = PoeTooBig s poe max_poe rlz imt /\ s ∈ sid :: sids /\ poe ∈ poes
              /\ ltb max_poe poe = true).
    { intros r (s & poe & mx & rlz & imt & -> & Hs & Hp)%Hlog.
      exists s, poe, mx, rlz, imt. split; [done|]. split; [|done].
      by apply list_elem_of_further. }
    assert (Hkeep : exists oks' log', (st.1 ++ [sid] ++ oks, st.2 ++ log)
              = (st.1 ++ oks', st.2 ++ log')
              /\ sublist oks' (sid :: sids)
              /\ (log' = [] -> oks' = sid :: sids)
              /\ (log' <> [] -> length oks' < length (sid :: sids))
              /\ forall r, r ∈ log' -> exists s poe max_poe rlz imt,
                   r = PoeTooBig s poe max_poe rlz imt /\ s ∈ sid :: sids
                   /\ poe ∈ poes /\ ltb max_poe poe = true).
    { exists (sid :: oks), log. split; [done|]. split; [by constructor|].
      split; [by intros ->%Hall|]. split; [|done].
      intros Hne%Hsome. cbn [length]. lia. }
    destruct c as [curve|].
    + apply rbind_Ok in H1 as (rlz & _ & H1).
      apply rbind_Ok in H1 as ([bad lg] & Hchk & [= <-]).
      apply check_curve_log in Hchk as [Hbadlog Hlg]. cbn [fst snd].
      destruct bad.
      * (* the site is dropped *)
        assert (Hne : lg <> []) by (intros Hnil; by apply Hbadlog in Hnil).
        exists oks, (lg ++ log). split; [by rewrite app_assoc|].
        split; [by constructor|]. split; [done|].
        split; [by intros [? _]%app_eq_nil|]. split.
        { intros _. apply sublist_length in Hsub. cbn [length]. lia. }
        intros r [Hr|Hr]%elem_of_app; [|by apply Hlog'].
        destruct (Hlg r Hr) as (poe & mx & imt & -> & Hp).
        exists sid, poe, mx, rlz, imt. split; [done|].
        split; [apply list_elem_of_here|done].
      * assert (lg = []) as -> by by apply Hbadlog.
        rewrite app_nil_r, <- !app_assoc.
        destruct Hkeep as (oks' & log' & ? & ? & ? & ? & ?).
        exists oks', log'. done.
    + injection H1 as <-. cbn [fst snd]. rewrite <- !app_assoc.
      destruct Hkeep as (oks' & log' & ? & ? & ? & ? & ?).
      exists oks', log'. done.
Qed.

(** X6. What [check_poes_disagg] returns.  [ok_sites] is never empty and
    is a subsequence of [self.sitecol.sids]: the sites that were kept, in
    their order.  Every record of the log before the final warning is a
    [POE_TOO_BIG] warning about a site of the collection and a requested
    probability that exceeds the maximum of a curve; all the sites are
    kept exactly when no such warning was logged.  When fewer sites than
    [self.N] are kept, the call returns only if [self.sitecol] is a
    mapping, as the format string of ['Doing the disaggregation on' %
    self.sitecol] has no conversion. *)
Theorem check_poes_disagg_keeps_a_subsequence (sitecol_is_mapping : bool)
    (sids : list nat) (N : nat) imtls poes
    (curves : list (option (list (string * list F)))) (rlzs : list nat)
    (ok_sites : list nat) (log : list (logrec F)) :
  check_poes_disagg sitecol_is_mapping sids N imtls poes curves rlzs
    = Ok (ok_sites, log) ->
  ok_sites <> [] /\ sublist ok_sites sids
  /\ (forall sid, sid ∈ sids -> is_Some (curves !! sid))
  /\ (length ok_sites < N -> sitecol_is_mapping = true)
  /\ exists warnings,
       log = warnings ++ (if length ok_sites <? N
                          then [DoingTheDisaggregationOn] else [])
       /\ (warnings = [] <-> ok_sites = sids)
       /\ forall r, r ∈ warnings -> exists sid poe max_poe rlz imt,
            r = PoeTooBig sid poe max_poe rlz imt /\ sid ∈ sids /\ poe ∈ poes
            /\ ltb max_poe poe = true.
Proof.
  unfold check_poes_disagg, collect_ok_sites.
  intros ([oks lg] & Hloop & Hrun)%rbind_Ok.
  apply collect_ok_sites_inv in Hloop
    as (oks' & lg' & [= -> ->] & Hsub & Hcur & Hall & Hsome & Hlog).
  cbn [fst snd app] in *.
  assert (Hiff : lg' = [] <-> oks' = sids).
  { split; [done|]. intros ->. destruct lg' as [|r lg']; [done|].
    assert (length sids < length sids) by by apply Hsome. lia. }
  destruct (decide (oks' = [])) as [->|Hne]; [done|].
  assert (Hrun' : (if length oks' <? N
                   then if sitecol_is_mapping
                        then Ok (oks', lg' ++ [DoingTheDisaggregationOn])
                        else Raise TypeError
                   else Ok (oks', lg')) = Ok (ok_sites, log)).
  { by destruct oks'. }
  clear Hrun. destruct (length oks' <? N) eqn:HN.
  - destruct sitecol_is_mapping; [|done]. injection Hrun' as <- <-.
    rewrite HN. split; [done|]. split; [done|]. split; [done|].
    split; [done|]. by exists lg'.
  - injection Hrun' as <- <-. rewrite HN. apply Nat.ltb_ge in HN.
    split; [done|]. split; [done|]. split; [done|].
    split; [lia|]. exists lg'. by rewrite app_nil_r.
Qed.
End OkSites.

Lemma check_poes_disagg_keeps_a_subsequence_witness :
  sublist [1] [0; 1].
Proof.
  destruct (check_poes_disagg_keeps_a_subsequence true [0; 1] 2
              [("PGA", [0.1; 0.2]%float)] [0.02%float]
              [Some [("PGA", [0.004; 0.005]%float)]; None] [0; 0] [1]
              [PoeTooBig 0 0.02%float 0.005%float 0 "PGA";
               DoingTheDisaggregationOn])
    as (_ & Hsub & _); [by vm_compute|exact Hsub].
Defined.

(** ** The arrays of target intensities ([_iml2s]) *)

Lemma fill_level_shape (l : list (nat * (string * list float)))
    (arr arr' : list (list float)) :
  for_loop fill_level l arr = Ok arr' ->
  length arr' = length arr
  /\ (Forall (fun row => length row = 1) arr ->
      Forall (fun row => length row = 1) arr').
Proof.
  revert arr. induction l as [|[m [imt levels]] l IH]; intros arr; cbn [for_loop].
  - by intros [= <-].
  - intros (arr1 & H1 & H2)%rbind_Ok. unfold fill_level in H1. cbn [fst snd] in H1.
    destruct levels as [|x [|]]; try done. injection H1 as <-.
    apply IH in H2 as [Hlen Hrows]. rewrite length_alter in Hlen.
    split; [done|]. intros Hall. apply Hrows.
    apply Forall_lookup. intros i row. rewrite list_lookup_alter.
    destruct (decide (i = m)) as [->|Hne].
    + rewrite decide_True by done.
      intros (row0 & Hrow0 & ->)%fmap_Some. rewrite length_insert.
      by eapply Forall_lookup_1 in Hall.
    + rewrite decide_False by done. intros Hi. by eapply Forall_lookup_1 in Hall.
Qed.

Lemma fill_interp_shape (ps : list float) (curve : list (string * list float))
    (l : list (nat * (string * list float))) (arr arr' : list (list float)) :
  for_loop (fill_interp ps curve) l arr = Ok arr' ->
  length arr' = length arr
  /\ (Forall (fun row => length row = length ps) arr ->
      Forall (fun row => length row = length ps) arr').
Proof.
  revert arr. induction l as [|[m [imt levels]] l IH]; intros arr; cbn [for_loop].
  - by intros [= <-].
  - intros (arr1 & H1 & H2)%rbind_Ok. unfold fill_interp in H1. cbn [fst snd] in H1.
    apply rbind_Ok in H1 as (hz & _ & H1).
    apply rbind_Ok in H1 as (row & Hrow & [= <-]).
    apply IH in H2 as [Hlen Hrows]. rewrite length_insert in Hlen.
    split; [done|]. intros Hall. apply Hrows.
    assert (Hrowlen : length row = length ps).
    { unfold interp in Hrow. destruct (reverse hz) as [|d xp]; [done|].
      destruct (_ =? _); [|done]. injection Hrow as <-. apply length_map. }
    destruct (decide (m < length arr)) as [Hlt|Hge].
    + by apply Forall_insert.
    + by rewrite list_insert_ge by lia.
Qed.

(** X7. [_iml2s] returns one array per item of [curves], in order.  The
    array of site [s] carries the realization [rlzs[s]], the requested
    probabilities and the IMTs, and has the shape [(M, P)]: one row per
    IMT and one column per requested probability (one column when
    intensities were given).  A site with no curve ([None]), or with a
    curve that is false in [elif curve:], gets an array filled with NaN
    when probabilities were requested. *)
Theorem iml2s_gives_one_shaped_array_per_site (rlzs : list nat)
    (imtls : list (string * list float)) (poes_disagg : poes_arg)
    (curves : list (option (list (string * list float))))
    (out : list iml2_wrapper) :
  _iml2s rlzs imtls poes_disagg curves = Ok out ->
  let P := match poes_disagg with NoPoes => 1 | Poes ps => length ps end in
  length out = length curves
  /\ forall s aw, out !! s = Some aw ->
       rlzs !! s = Some (aw_rlzi aw)
       /\ aw_imts aw = keys imtls /\ aw_poes_disagg aw = poes_disagg
       /\ length (iml2 aw) = length imtls
       /\ Forall (fun row => length row = P) (iml2 aw)
       /\ ((curves !! s = Some None
            \/ exists curve, curves !! s = Some (Some curve)
                 /\ curve_truthy curve = false) ->
           poes_disagg <> NoPoes ->
           iml2 aw = replicate (length imtls) (replicate P PrimFloat.nan)).
Proof.
  intros Hrun P. unfold _iml2s in Hrun.
  apply site_iml2_loop in Hrun as (new & -> & Hall). rewrite app_nil_l.
  assert (Hlen : length new = length curves).
  { apply Forall2_length in Hall. rewrite <- Hall. unfold enumerate.
    rewrite length_zip_with, length_seq. lia. }
  split; [done|]. intros s aw Haw.
  destruct (Forall2_lookup_r _ _ _ _ _ Hall Haw) as ([s' c] & Hsc & Hsite).
  rewrite enumerate_lookup in Hsc. apply fmap_Some in Hsc as (c' & Hc & [= -> <-]).
  unfold site_iml2 in Hsite. cbn [fst snd] in Hsite. fold P in Hsite.
  apply rbind_Ok in Hsite as (filled & Hfilled & Hsite).
  apply rbind_Ok in Hsite as (rlzi & Hrlzi & [= <-]). cbn [app] in *.
  cbn [iml2 aw_rlzi aw_imts aw_poes_disagg].
  destruct (rlzs !! s) as [r|] eqn:Hrs; [|done]. injection Hrlzi as ->.
  split; [done|]. split; [done|]. split; [done|].
  assert (Hempty : length (replicate (length imtls) (replicate P PrimFloat.nan))
                   = length imtls
            /\ Forall (fun row => length row = P)
                 (replicate (length imtls) (replicate P PrimFloat.nan))).
  { split; [apply length_replicate|]. apply Forall_replicate, length_replicate. }
  destruct Hempty as [Hl0 Hr0].
  destruct poes_disagg as [|ps].
  - apply fill_level_shape in Hfilled as [Hl Hr].
    split; [by rewrite Hl|]. split; [by apply Hr|]. done.
  - destruct c as [curve|].
    + destruct (curve_truthy curve) eqn:Htrue.
      * apply fill_interp_shape in Hfilled as [Hl Hr].
        split; [by rewrite Hl|]. split; [by apply Hr|].
        intros [Hnone|(curve' & Hc' & Hfalse)] _; [congruence|].
        rewrite Hc in Hc'. injection Hc' as <-. congruence.
      * injection Hfilled as <-. done.
    + injection Hfilled as <-. done.
Qed.

Lemma iml2s_gives_one_shaped_array_per_site_witness :
  exists out,
    _iml2s [0; 0] [("PGA", [0.1; 0.2]%float)] (Poes [0.02%float])
       [Some [("PGA", [0.05; 0.01]%float)]; None] = Ok out
    /\ length out = 2.
Proof.
  eexists. split; [by vm_compute|].
  apply (iml2s_gives_one_shaped_array_per_site [0; 0]
           [("PGA", [0.1; 0.2]%float)] (Poes [0.02%float])
           [Some [("PGA", [0.05; 0.01]%float)]; None]).
  by vm_compute.
Defined.

(** The loop that writes the given intensity of every IMT. *)
Lemma fill_level_loop (l : list (nat * (string * list float)))
    (arr : list (list float)) :
  NoDup (l.*1) ->
  (forall m imt levels, (m, (imt, levels)) ∈ l ->
     m < length arr /\ exists x, levels = [x]) ->
  exists arr', for_loop fill_level l arr = Ok arr'
    /\ length arr' = length arr
    /\ (forall m imt x row, (m, (imt, [x])) ∈ l -> arr !! m = Some row ->
          arr' !! m = Some (<[0 := x]> row))
    /\ (forall m, m ∉ l.*1 -> arr' !! m = arr !! m).
Proof.
  revert arr. induction l as [|[m0 [imt0 levels0]] l IH]; intros arr Hnd Hl.
  - exists arr. split; [done|]. split; [done|]. split; [|done].
    by intros m imt x row ?%elem_of_nil.
  - apply NoDup_cons in Hnd as [Hm0 Hnd].
    destruct (Hl m0 imt0 levels0) as (Hlt & x0 & ->); [apply list_elem_of_here|].
    destruct (IH (alter (fun row => <[0 := x0]> row) m0 arr) Hnd)
      as (arr' & Hrun & Hlen & Hin & Hout).
    { intros m imt levels Hml. rewrite length_alter. apply (Hl m imt).
      by apply list_elem_of_further. }
    rewrite length_alter in Hlen.
    exists arr'. split; [done|]. split; [done|]. split.
    + intros m imt x row [[= -> -> ->]|Hml]%elem_of_cons Hrow.
      * rewrite Hout by done. rewrite list_lookup_alter, decide_True by done.
        by rewrite Hrow.
      * apply (Hin m imt); [done|].
        rewrite list_lookup_alter_ne; [done|]. intros ->. apply Hm0.
        by apply (list_elem_of_fmap_2 fst) in Hml.
    + intros m Hm. cbn [fmap list_fmap fst] in Hm.
      apply not_elem_of_cons in Hm as [Hne Hm].
      rewrite Hout by done. by apply list_lookup_alter_ne.
Qed.

(** X8. When intensities were given ([poes_disagg == (None,)]), the hazard
    curves are not read: with one level per IMT and a realization for
    every site, [_iml2s] returns, for every item of [curves], whatever it
    is, the array of shape [(M, 1)] whose row [m] is the level of the
    [m]-th IMT.  With an IMT that has no level, or more than one, and at
    least one site, the assignment [iml2[m, 0] = imtls[imt]] raises
    [ValueError]. *)
Theorem iml2s_with_given_intensities (rlzs : list nat)
    (imtls : list (string * list float))
    (curves : list (option (list (string * list float)))) :
  (length curves <= length rlzs ->
   forall levels : list float,
     imtls.*2 = (fun x => [x]) <$> levels ->
     exists out, _iml2s rlzs imtls NoPoes curves = Ok out
       /\ length out = length curves
       /\ forall s aw, out !! s = Some aw -> iml2 aw = imtls.*2)
  /\ (curves <> [] ->
      (exists imt lv, (imt, lv) ∈ imtls /\ length lv <> 1) ->
      _iml2s rlzs imtls NoPoes curves = Raise ValueError).
Proof.
  split.
  - intros Hrlzs levels Hlevels.
    assert (Hfill : exists filled,
      for_loop fill_level (enumerate imtls)
        (replicate (length imtls) (replicate 1 PrimFloat.nan)) = Ok filled
      /\ filled = imtls.*2).
    { destruct (fill_level_loop (enumerate imtls)
                  (replicate (length imtls) (replicate 1 PrimFloat.nan)))
        as (filled & Hrun & Hlen & Hin & _).
      { rewrite enumerate_fst. apply NoDup_seq. }
      { intros m imt lv Hm%elem_of_enumerate. rewrite length_replicate.
        split; [by eapply lookup_lt_Some|].
        assert (Hlv : imtls.*2 !! m = Some lv) by (by rewrite list_lookup_fmap, Hm).
        rewrite Hlevels, list_lookup_fmap in Hlv.
        apply fmap_Some in Hlv as (x & _ & ->). by exists x. }
      exists filled. split; [done|]. rewrite length_replicate in Hlen.
      apply list_eq. intros m. rewrite list_lookup_fmap.
      destruct (imtls !! m) as [[imt lv]|] eqn:Hm; cbn.
      - assert (Hlv : imtls.*2 !! m = Some lv) by (by rewrite list_lookup_fmap, Hm).
        rewrite Hlevels, list_lookup_fmap in Hlv.
        apply fmap_Some in Hlv as (x & _ & ->).
        rewrite (Hin m imt x (replicate 1 PrimFloat.nan)); [done| |].
        + by apply elem_of_enumerate.
        + apply lookup_replicate_2. by eapply lookup_lt_Some.
      - apply lookup_ge_None. apply lookup_ge_None in Hm. lia. }
    destruct Hfill as (filled & Hfill & ->). unfold _iml2s.
    assert (Hloop : forall (l : list (nat * option (list (string * list float))))
                           (lst : list iml2_wrapper),
      (forall s c, (s, c) ∈ l -> s < length rlzs) ->
      exists new, for_loop (site_iml2 rlzs imtls NoPoes) l lst = Ok (lst ++ new)
        /\ length new = length l
        /\ forall aw, aw ∈ new -> iml2 aw = imtls.*2).
    { induction l as [|[s c] l IH]; intros lst Hl.
      - exists []. rewrite app_nil_r. split; [done|]. split; [done|].
        by intros aw ?%elem_of_nil.
      - destruct (lookup_lt_is_Some_2 rlzs s) as [rlzi Hrlzi];
          [by eapply Hl, list_elem_of_here|].
        destruct (IH (lst ++ [{| iml2 := imtls.*2; aw_poes_disagg := NoPoes;
                                 aw_imts := keys imtls; aw_rlzi := rlzi |}]))
          as (new & Hrun & Hlen & Hnew).
        { intros s' c' Hin. eapply Hl. by apply list_elem_of_further. }
        eexists (_ :: new). split; [|split].
        + cbn [for_loop]. unfold site_iml2 at 1. cbn [fst snd].
          rewrite Hfill. cbn [rbind]. rewrite Hrlzi. cbn [of_option rbind].
          rewrite Hrun. by rewrite <- app_assoc.
        + cbn [length]. by rewrite Hlen.
        + intros aw [->|Haw]%elem_of_cons; [done|by apply Hnew]. }
    destruct (Hloop (enumerate curves) []) as (new & Hrun & Hlen & Hnew).
    { intros s c Hsc%elem_of_enumerate. apply lookup_lt_Some in Hsc. lia. }
    exists new. split; [done|]. split.
    + rewrite Hlen. unfold enumerate. rewrite length_zip_with, length_seq. lia.
    + intros s aw Haw. apply Hnew. by eapply list_elem_of_lookup_2.
  - intros Hne (imt & lv & Hin & Hlv).
    assert (Hfill : forall (l : list (nat * (string * list float)))
                           (arr : list (list float)),
      (exists m, (m, (imt, lv)) ∈ l) ->
      for_loop fill_level l arr = Raise ValueError).
    { induction l as [|[m0 [imt0 lv0]] l IH]; intros arr [m Hm].
      - by apply elem_of_nil in Hm.
      - cbn [for_loop]. unfold fill_level at 1. cbn [fst snd].
        apply elem_of_cons in Hm as [[= <- <- <-]|Hm].
        + by destruct lv as [|x [|]].
        + destruct lv0 as [|x [|]]; try done. cbn [rbind]. apply IH. by exists m. }
    unfold _iml2s. destruct curves as [|c curves]; [done|].
    unfold enumerate. cbn [length seq zip_with for_loop].
    unfold site_iml2 at 1. cbn [fst snd]. rewrite Hfill; [done|].
    apply list_elem_of_lookup in Hin as [m Hm]. exists m.
    by apply elem_of_enumerate.
Qed.

Lemma iml2s_with_given_intensities_witness :
  exists out,
    _iml2s [0; 0] [("PGA", [0.1%float]); ("SA(0.5)", [0.3%float])] NoPoes
      [None; None] = Ok out
    /\ forall s aw, out !! s = Some aw ->
         iml2 aw = [[0.1%float]; [0.3%float]].
Proof.
  destruct (iml2s_with_given_intensities [0; 0]
              [("PGA", [0.1%float]); ("SA(0.5)", [0.3%float])] [None; None])
    as [Hrun _].
  destruct (Hrun ltac:(cbn; lia) [0.1; 0.3]%float eq_refl)
    as (out & Hout & _ & Hrows).
  exists out. split; [done|exact Hrows].
Defined.

(** ** What a task computes ([compute_disagg]) *)

Lemma iml2s_length (rlzs : list nat) (imtls : list (string * list float))
    (poes_disagg : poes_arg)
    (curves : list (option (list (string * list float))))
    (out : list iml2_wrapper) :
  _iml2s rlzs imtls poes_disagg curves = Ok out -> length out = length curves.
Proof.
  unfold _iml2s. intros (new & -> & Hall)%site_iml2_loop. rewrite app_nil_l.
  apply Forall2_length in Hall. rewrite <- Hall. unfold enumerate.
  rewrite length_zip_with, length_seq. lia.
Qed.

Lemma select_sites_loop {A} (iml2s : list A) (ok_sites : list nat) (sel : list A) :
  (forall s, s ∈ ok_sites -> s < length iml2s) ->
  exists new, for_loop (fun sel s => x <-! of_option IndexError (iml2s !! s) ;;
                                     Ok (sel ++ [x])) ok_sites sel
              = Ok (sel ++ new)
    /\ length new = length ok_sites
    /\ forall i s, ok_sites !! i = Some s -> new !! i = iml2s !! s.
Proof.
  revert sel. induction ok_sites as [|s0 oks IH]; intros sel Hlt.
  - exists []. rewrite app_nil_r. split; [done|]. split; [done|]. by intros [|i] s.
  - destruct (lookup_lt_is_Some_2 iml2s s0) as [x Hx];
      [apply Hlt, list_elem_of_here|].
    destruct (IH (sel ++ [x])) as (new & Hrun & Hlen & Hnew).
    { intros s Hs. by apply Hlt, list_elem_of_further. }
    exists (x :: new). split; [|split].
    + cbn [for_loop]. rewrite Hx. cbn [of_option rbind]. rewrite Hrun.
      by rewrite <- app_assoc.
    + cbn [length]. by rewrite Hlen.
    + intros [|i] s; cbn; [by intros [= <-]|apply Hnew].
Qed.

Section TaskInputs.
Context {F P SC : Type} `{EqDecision P}.
Variable filtered : SC -> list nat -> SC.
Variable build_matrices : SC -> list iml2_wrapper ->
  outcome (list (nat * list (P * string * nat * value F))).

(** X9. The sites [check_poes_disagg] returns always index the arrays of
    [_iml2s]: in a task, [[iml2s[s] for s in ok_sites]] does not raise
    [IndexError], and picks, in the order of [ok_sites], the array of each
    site that was kept; [disagg.build_matrices] is then run on the
    filtered site collection and on these arrays. *)
Theorem ok_sites_index_the_target_intensities (sitecol_is_mapping : bool)
    (sids : list nat) (N : nat) (imtls : list (string * list float))
    (poes : list float) (poes_disagg : poes_arg)
    (curves : list (option (list (string * list float)))) (rlzs : list nat)
    (ok_sites : list nat) (log : list (logrec float))
    (iml2s : list iml2_wrapper) (sitecol : SC) (trti : nat) :
  check_poes_disagg sitecol_is_mapping sids N imtls poes curves rlzs
    = Ok (ok_sites, log) ->
  _iml2s rlzs imtls poes_disagg curves = Ok iml2s ->
  exists sel, select_sites iml2s ok_sites = Ok sel
    /\ length sel = length ok_sites
    /\ (forall i s, ok_sites !! i = Some s -> sel !! i = iml2s !! s)
    /\ compute_disagg filtered build_matrices ok_sites sitecol iml2s trti
       = (res <-! build_matrices (filtered sitecol ok_sites) sel ;;
          Ok {| trti := trti; items := fold_left store_site res [] |}).
Proof.
  intros Hcheck Hlen%iml2s_length.
  unfold check_poes_disagg, collect_ok_sites in Hcheck.
  apply rbind_Ok in Hcheck as ([oks lg] & Hloop & Hrun).
  apply collect_ok_sites_inv in Hloop
    as (oks' & lg' & [= -> ->] & Hsub & Hcur & _).
  cbn [fst snd app] in Hrun.
  assert (Hoks : oks' = ok_sites /\ oks' <> []).
  { destruct oks' as [|s oks']; [done|]. split; [|done].
    destruct (length (s :: oks') <? N); [destruct sitecol_is_mapping|];
      by simplify_eq. }
  destruct Hoks as [-> Hne].
  destruct (select_sites_loop iml2s ok_sites []) as (sel & Hsel & Hsellen & Hpick).
  { intros s Hs. rewrite Hlen. apply lookup_lt_is_Some, Hcur.
    by eapply sublist_subseteq. }
  exists sel. split; [done|]. split; [done|]. split; [done|].
  assert (Hsel' : select_sites iml2s ok_sites = Ok sel) by exact Hsel.
  unfold compute_disagg. destruct ok_sites as [|s oks']; [done|].
  by rewrite Hsel'.
Qed.
End TaskInputs.

Lemma ok_sites_index_the_target_intensities_witness :
  exists aw,
    select_sites
      [{| iml2 := [[0.1%float]]; aw_poes_disagg := Poes [0.02%float];
          aw_imts := ["PGA"]; aw_rlzi := 0 |};
       {| iml2 := [[PrimFloat.nan]]; aw_poes_disagg := Poes [0.02%float];
          aw_imts := ["PGA"]; aw_rlzi := 0 |}] [1] = Ok [aw]
    /\ aw_rlzi aw = 0.
Proof.
  destruct (ok_sites_index_the_target_intensities (F := float) (P := nat)
              (fun (sc : list nat) oks => oks) (fun _ _ => Ok [])
              true [0; 1] 2 [("PGA", [0.1; 0.2]%float)] [0.02%float]
              (Poes [0.02%float])
              [Some [("PGA", [0.004; 0.005]%float)]; None] [0; 0] [1]
              [PoeTooBig 0 0.02%float 0.005%float 0 "PGA";
               DoingTheDisaggregationOn]
              [{| iml2 := [[0.1%float]]; aw_poes_disagg := Poes [0.02%float];
                  aw_imts := ["PGA"]; aw_rlzi := 0 |};
               {| iml2 := [[PrimFloat.nan]]; aw_poes_disagg := Poes [0.02%float];
                  aw_imts := ["PGA"]; aw_rlzi := 0 |}] [0; 1] 0)
    as (sel & Hsel & _); [by vm_compute|by vm_compute|].
  vm_compute in Hsel. injection Hsel as <-. by eexists.
Defined.

Section TaskResult.
Context {F P SC : Type} `{EqDecision P}.
Variable filtered : SC -> list nat -> SC.
Variable build_matrices : SC -> list iml2_wrapper ->
  outcome (list (nat * list (P * string * nat * value F))).
Implicit Types (d : list (nat * nat * P * string * value F))
  (res : list (nat * list (P * string * nat * value F))).

Lemma store_site_spec d (sid : nat) (mats : list (P * string * nat * value F)) :
  let d' := store_site d (sid, mats) in
  (NoDup (keys d) -> NoDup (keys d'))
  /\ (forall k, k ∈ keys d' <->
        k ∈ keys d \/ exists poe imt rlz m,
          (poe, imt, rlz, m) ∈ mats /\ k = (sid, rlz, poe, imt))
  /\ (forall k m, dget k d' = Some m ->
        dget k d = Some m \/ exists poe imt rlz,
          (poe, imt, rlz, m) ∈ mats /\ k = (sid, rlz, poe, imt)).
Proof.
  unfold store_site. cbn [fst snd]. revert d.
  induction mats as [|[[[poe imt] rlz] m0] mats IH]; intros d; cbn [fold_left].
  - split; [done|]. split; [|by left].
    intros k. split; [by left|]. intros [?|(? & ? & ? & ? & ?%elem_of_nil & _)]; done.
  - destruct (IH (dset (sid, rlz, poe, imt) m0 d)) as (Hnd & Hkeys & Hget).
    cbn [fst snd] in *. split; [|split].
    + intros Hd. by apply Hnd, NoDup_keys_dset.
    + intros k. rewrite Hkeys, elem_of_keys_dset. split.
      * intros [[->|?]|(poe' & imt' & rlz' & m & Hin & ->)]; [|by left|].
        -- right. exists poe, imt, rlz, m0. split; [apply list_elem_of_here|done].
        -- right. exists poe', imt', rlz', m. split; [|done].
           by apply list_elem_of_further.
      * intros [?|(poe' & imt' & rlz' & m & Hin & ->)]; [by left; right|].
        apply elem_of_cons in Hin as [[= -> -> -> ->]|Hin]; [by left; left|].
        right. by exists poe', imt', rlz', m.
    + intros k m [Hk|(poe' & imt' & rlz' & Hin & ->)]%Hget.
      * destruct (decide ((sid, rlz, poe, imt) = k)) as [<-|Hne].
        -- rewrite dget_dset_eq in Hk. injection Hk as <-. right.
           exists poe, imt, rlz. split; [apply list_elem_of_here|done].
        -- rewrite dget_dset_ne in Hk by done. by left.
      * right. exists poe', imt', rlz'. split; [|done].
        by apply list_elem_of_further.
Qed.

(** X10. The result of a task.  [compute_disagg] hands to
    [disagg.build_matrices] all the sites and all the arrays of
    intensities when [ok_sites] is empty, and the filtered ones otherwise.
    Its result carries the TRT index it was given, and one item per key
    [(sid, rlz, poe, imt)] for which [build_matrices] yielded, for the
    site [sid], a matrix under [(poe, imt, rlz)]: no other key is
    reported, and the matrix reported under a key is one that was yielded
    for it. *)
Theorem compute_disagg_rekeys_the_matrices (ok_sites : list nat) (sitecol : SC)
    (iml2s : list iml2_wrapper) (t : nat)
    (result : task_result F (nat * nat * P * string)) :
  compute_disagg filtered build_matrices ok_sites sitecol iml2s t = Ok result ->
  trti result = t
  /\ NoDup (keys (items result))
  /\ exists sc sel res, build_matrices sc sel = Ok res
       /\ (ok_sites = [] -> sc = sitecol /\ sel = iml2s)
       /\ (ok_sites <> [] -> sc = filtered sitecol ok_sites
                             /\ select_sites iml2s ok_sites = Ok sel)
       /\ (forall sid rlz poe imt,
             (sid, rlz, poe, imt) ∈ keys (items result)
             <-> exists mats m, (sid, mats) ∈ res /\ (poe, imt, rlz, m) ∈ mats)
       /\ (forall sid rlz poe imt m,
             dget (sid, rlz, poe, imt) (items result) = Some m ->
             exists mats, (sid, mats) ∈ res /\ (poe, imt, rlz, m) ∈ mats).
Proof.
  unfold compute_disagg. intros ([sc sel] & Hargs & Hrun)%rbind_Ok.
  apply rbind_Ok in Hrun as (res & Hres & [= <-]). cbn [fst snd] in Hres.
  cbn [trti items]. split; [done|].
  assert (Hfold : forall res d,
    let d' := fold_left store_site res d in
    (NoDup (keys d) -> NoDup (keys d'))
    /\ (forall sid rlz poe imt, (sid, rlz, poe, imt) ∈ keys d' <->
          (sid, rlz, poe, imt) ∈ keys d
          \/ exists mats m, (sid, mats) ∈ res /\ (poe, imt, rlz, m) ∈ mats)
    /\ (forall sid rlz poe imt m, dget (sid, rlz, poe, imt) d' = Some m ->
          dget (sid, rlz, poe, imt) d = Some m
          \/ exists mats, (sid, mats) ∈ res /\ (poe, imt, rlz, m) ∈ mats)).
  { clear. induction res as [|[sid0 mats0] res IH]; intros d; cbn [fold_left].
    - split; [done|]. split; [|by left]. intros sid rlz poe imt.
      split; [by left|]. by intros [?|(? & ? & ?%elem_of_nil & _)].
    - destruct (IH (store_site d (sid0, mats0))) as (Hnd & Hkeys & Hget).
      destruct (store_site_spec d sid0 mats0) as (Hnd0 & Hkeys0 & Hget0).
      cbn zeta in *. split; [|split].
      + intros Hd. by apply Hnd, Hnd0.
      + intros sid rlz poe imt. rewrite Hkeys, Hkeys0. split.
        * intros [[?|(poe' & imt' & rlz' & m & Hin & [= -> -> -> ->])]
                 |(mats & m & Hin & Hm)].
          -- by left.
          -- right. exists mats0, m. split; [apply list_elem_of_here|done].
          -- right. exists mats, m. split; [by apply list_elem_of_further|done].
        * intros [?|(mats & m & Hin & Hm)]; [by left; left|].
          apply elem_of_cons in Hin as [[= -> ->]|Hin].
          -- left; right. by exists poe, imt, rlz, m.
          -- right. by exists mats, m.
      + intros sid rlz poe imt m [Hk|(mats & Hin & Hm)]%Hget.
        * apply Hget0 in Hk as [?|(poe' & imt' & rlz' & Hin & [= -> -> -> ->])];
            [by left|].
          right. exists mats0. split; [apply list_elem_of_here|done].
        * right. exists mats. split; [by apply list_elem_of_further|done]. }
  destruct (Hfold res []) as (Hnd & Hkeys & Hget). cbn zeta in *.
  split; [apply Hnd, NoDup_nil_2|].
  exists sc, sel, res. split; [done|]. split; [|split; [|split]].
  - intros ->. by injection Hargs as <- <-.
  - intros Hne. destruct ok_sites as [|s oks]; [done|].
    apply rbind_Ok in Hargs as (sel' & Hsel & [= <- <-]). done.
  - intros sid rlz poe imt. rewrite Hkeys. split; [|by right].
    by intros [?%elem_of_nil|?].
  - intros sid rlz poe imt m [?|?]%Hget; done.
Qed.
End TaskResult.

Lemma compute_disagg_rekeys_the_matrices_witness :
  exists result,
    compute_disagg (fun (sc : list nat) oks => oks)
      (fun sc _ => Ok [(0, [((2, "PGA", 5), Array [1] [0.5%float])])])
      [] [0; 1] [] 3 = Ok result
    /\ trti result = 3
    /\ keys (items result) = [(0, 5, 2, "PGA")].
Proof.
  eexists. split; [by vm_compute|].
  destruct (compute_disagg_rekeys_the_matrices (P := nat)
              (fun (sc : list nat) oks => oks)
              (fun sc _ => Ok [(0, [((2, "PGA", 5), Array [1] [0.5%float])])])
              [] [0; 1] [] 3
              {| trti := 3;
                 items := [((0, 5, 2, "PGA"), Array [1] [0.5%float])] |})
    as (Htrti & _); [by vm_compute|].
  split; [exact Htrti|reflexivity].
Defined.

(** ** The dictionary of the target intensities ([imldict]) *)

Section Writes.
Context {K V : Type} `{EqDecision K}.

Lemma dset_writes (k : K) (v : V) (d : list (K * V)) :
  dict_writes (fun k' x => k' = k /\ x = v) (fun k' => k' = k) d (dset k v d).
Proof.
  split; [|split; [|split]].
  - intros k' x. destruct (decide (k = k')) as [<-|Hne].
    + rewrite dget_dset_eq. intros [= <-]. by right.
    + rewrite dget_dset_ne by done. by left.
  - intros k' Hk'. apply elem_of_keys_dset. by right.
  - apply NoDup_keys_dset.
  - intros k' ->. apply elem_of_keys_dset. by left.
Qed.

Lemma dict_writes_weaken (W W' : K -> V -> Prop) (T T' : K -> Prop)
    (d d' : list (K * V)) :
  (forall k x, W k x -> W' k x) -> (forall k, T' k -> T k) ->
  dict_writes W T d d' -> dict_writes W' T' d d'.
Proof.
  intros HW HT (Hs & Hm & Hn & Hp). split; [|split; [|split]]; [|done|done|].
  - intros k x [?|?]%Hs; [by left|right; by apply HW].
  - intros k Hk. by apply Hp, HT.
Qed.

(** A loop of pieces of code that only write only writes. *)
Lemma for_loop_writes {A S} (proj : S -> list (K * V))
    (body : S -> A -> outcome S)
    (W : A -> K -> V -> Prop) (T : A -> K -> Prop) (l : list A) (s s' : S) :
  (forall s a s', a ∈ l -> body s a = Ok s' ->
     dict_writes (W a) (T a) (proj s) (proj s')) ->
  for_loop body l s = Ok s' ->
  dict_writes (fun k x => exists a, a ∈ l /\ W a k x)
    (fun k => exists a, a ∈ l /\ T a k) (proj s) (proj s').
Proof.
  revert s. induction l as [|a l IH]; intros s Hbody; cbn [for_loop].
  - intros [= <-]. split; [by left|]. split; [done|]. split; [done|].
    by intros k (a & ?%elem_of_nil & _).
  - intros (s1 & H1 & H2)%rbind_Ok.
    apply Hbody in H1 as (Hs1 & Hm1 & Hn1 & Hp1); [|apply list_elem_of_here].
    apply IH in H2 as (Hs2 & Hm2 & Hn2 & Hp2);
      [|by intros ? ? ? ?; apply Hbody, list_elem_of_further].
    split; [|split; [|split]].
    + intros k x [[?|?]%Hs1|(a' & Ha' & HW)]%Hs2; [by left| |].
      * right. exists a. split; [apply list_elem_of_here|done].
      * right. exists a'. split; [by apply list_elem_of_further|done].
    + intros k Hk. by apply Hm2, Hm1.
    + intros Hnd. by apply Hn2, Hn1.
    + intros k (a' & [->|Ha']%elem_of_cons & HT).
      * by apply Hm2, Hp1.
      * apply Hp2. by exists a'.
Qed.
End Writes.

Section ImlDictFacts.
Context {F P : Type} `{EqDecision P}.
Implicit Types (d : list (nat * nat * option P * string * F)).

Lemma poe_keys_NoDup (poes_disagg : list P) :
  NoDup poes_disagg -> NoDup (poe_keys poes_disagg).
Proof.
  intros Hnd. destruct poes_disagg as [|p ps]; [apply NoDup_singleton|].
  unfold poe_keys. apply (NoDup_fmap_2 _). exact Hnd.
Qed.

(** X11. The dictionary [self.imldict] that [full_disaggregation] builds.
    When the requested probabilities are distinct and the IMTs are
    distinct, [imldict[s, r, poe, imt]] is [x] exactly when [s] is a site
    of the collection, [r] is its realization [rlzs[s]], and [x] is the
    cell [iml2s[s][m, p]] for the index [m] of the IMT and the index [p]
    of the probability ([None] at index 0 when no probability was
    requested).  The dictionary has one item per key, and one message was
    logged per site, in order, with the realization of the site. *)
Theorem imldict_holds_the_cells_of_iml2s (sids : list nat)
    (iml2s : list (list (list F))) (rlzs : list nat)
    (poes_disagg : list P) (imts : list string)
    d (log : list (nat * nat)) :
  NoDup poes_disagg -> NoDup imts ->
  build_imldict sids iml2s rlzs poes_disagg imts = Ok (d, log) ->
  NoDup (keys d)
  /\ Forall2 (fun s sr => sr.1 = s /\ rlzs !! s = Some sr.2) sids log
  /\ forall s r poe imt x,
       dget (s, r, poe, imt) d = Some x
       <-> s ∈ sids /\ rlzs !! s = Some r
           /\ exists p m iml2 row,
                poe_keys poes_disagg !! p = Some poe /\ imts !! m = Some imt
                /\ iml2s !! s = Some iml2 /\ iml2 !! m = Some row
                /\ row !! p = Some x.
Proof.
  intros Hpoes%poe_keys_NoDup Himts Hrun. unfold build_imldict in Hrun.
  pose (W := fun (s : nat) (k : nat * nat * option P * string) (x : F) =>
    exists r poe imt p m iml2 row,
      k = (s, r, poe, imt) /\ rlzs !! s = Some r
      /\ poe_keys poes_disagg !! p = Some poe /\ imts !! m = Some imt
      /\ iml2s !! s = Some iml2 /\ iml2 !! m = Some row /\ row !! p = Some x).
  pose (T := fun (s : nat) (k : nat * nat * option P * string) =>
    exists r poe imt p m,
      k = (s, r, poe, imt) /\ rlzs !! s = Some r
      /\ poe_keys poes_disagg !! p = Some poe /\ imts !! m = Some imt).
  assert (Hsite : forall st s st',
    imldict_site iml2s rlzs poes_disagg imts st s = Ok st' ->
    dict_writes (W s) (T s) st.1 st'.1
    /\ st'.2 = st.2 ++ [(s, default 0 (rlzs !! s))] /\ is_Some (rlzs !! s)).
  { intros st s st' Hst. unfold imldict_site in Hst.
    apply rbind_Ok in Hst as (iml2 & Himl2 & Hst).
    apply rbind_Ok in Hst as (r & Hr & Hst).
    apply rbind_Ok in Hst as (d1 & Hd1 & [= <-]).
    destruct (iml2s !! s) as [iml2'|] eqn:Hs2; [|done]. injection Himl2 as ->.
    destruct (rlzs !! s) as [r'|] eqn:Hrs; [|done]. injection Hr as ->.
    cbn [fst snd default]. split; [|by split; [|eexists]].
    apply (for_loop_writes id _
             (fun pp k x => exists imt m row, k = (s, r, pp.2, imt)
                /\ imts !! m = Some imt /\ iml2 !! m = Some row
                /\ row !! pp.1 = Some x)
             (fun pp k => exists imt m, k = (s, r, pp.2, imt)
                /\ imts !! m = Some imt)) in Hd1.
    - eapply dict_writes_weaken; [| |exact Hd1].
      + intros k x ([p poe] & Hpp%elem_of_enumerate & imt & m & row & -> & ? & ? & ?).
        exists r, poe, imt, p, m, iml2, row. done.
      + intros k (r' & poe & imt & p & m & -> & Hr' & Hp & Hm).
        assert (r' = r) as -> by congruence.
        exists (p, poe). split; [by apply elem_of_enumerate|]. by exists imt, m.
    - intros d0 [p poe] d0' _ Hloop. cbn [fst snd id] in *.
      apply (for_loop_writes id _
               (fun mi k x => exists row, k = (s, r, poe, mi.2)
                  /\ iml2 !! mi.1 = Some row /\ row !! p = Some x)
               (fun mi k => k = (s, r, poe, mi.2))) in Hloop.
      + eapply dict_writes_weaken; [| |exact Hloop].
        * intros k x ([m imt] & Hmi%elem_of_enumerate & row & -> & ? & ?).
          by exists imt, m, row.
        * intros k (imt & m & -> & Hm). exists (m, imt).
          split; [by apply elem_of_enumerate|done].
      + intros d1' [m imt] d1'' _ Hstore. unfold store_iml in Hstore.
        cbn [fst snd id] in *.
        apply rbind_Ok in Hstore as (row & Hrow & Hstore).
        apply rbind_Ok in Hstore as (x & Hx & [= <-]).
        destruct (iml2 !! m) as [row'|]; [|done]. injection Hrow as ->.
        destruct (row !! p) as [x'|] eqn:Hp; [|done]. injection Hx as ->.
        eapply dict_writes_weaken; [| |apply dset_writes].
        * intros k y [-> ->]. by exists row.
        * by intros k ->. }
  assert (Hlog : forall sids st st',
    for_loop (imldict_site iml2s rlzs poes_disagg imts) sids st = Ok st' ->
    exists new, st'.2 = st.2 ++ new
      /\ Forall2 (fun s sr => sr.1 = s /\ rlzs !! s = Some sr.2) sids new).
  { clear Hrun. induction sids0 as [|s sids0 IH]; intros st st'; cbn [for_loop].
    - intros [= <-]. exists []. by rewrite app_nil_r.
    - intros (st1 & H1 & H2)%rbind_Ok.
      apply Hsite in H1 as (_ & Hl1 & [r Hr]).
      apply IH in H2 as (new & -> & Hall). rewrite Hl1, Hr. cbn [default].
      exists ((s, r) :: new). split; [by rewrite <- app_assoc|].
      by constructor. }
  apply Hlog in Hrun as Hl. destruct Hl as (new & Hnew & Hall).
  cbn [fst snd app] in Hnew. subst new.
  destruct (for_loop_writes fst _ W T sids _ _
              (fun st s st' _ Hst => proj1 (Hsite st s st' Hst)) Hrun)
    as (Hsound & _ & Hnd & Hpres).
  cbn [fst] in *. split; [apply Hnd, NoDup_nil_2|]. split; [done|].
  intros s r poe imt x. split.
  - intros [?|(s' & Hs' & r' & poe' & imt' & p & m & iml2 & row & [= -> -> -> ->]
                 & ? & ? & ? & ? & ? & ?)]%Hsound; [done|].
    split; [done|]. split; [done|]. by exists p, m, iml2, row.
  - intros (Hs & Hr & p & m & iml2 & row & Hp & Hm & Hs2 & Hrow & Hx).
    assert (Hkey : (s, r, poe, imt) ∈ keys d).
    { apply Hpres. exists s. split; [done|]. by exists r, poe, imt, p, m. }
    apply dget_Some_keys in Hkey as [y Hy]. rewrite Hy. f_equal.
    apply Hsound in Hy
      as [?|(s' & Hs' & r' & poe' & imt' & p' & m' & iml2' & row' & [= <- <- <- <-]
               & ? & Hp' & Hm' & Hs2' & Hrow' & Hx')]; [done|].
    assert (p' = p) as -> by exact (NoDup_lookup _ _ _ _ Hpoes Hp' Hp).
    assert (m' = m) as -> by exact (NoDup_lookup _ _ _ _ Himts Hm' Hm).
    congruence.
Qed.
End ImlDictFacts.

Lemma imldict_holds_the_cells_of_iml2s_witness :
  exists d log,
    build_imldict [0] [[[0.1; 0.2]%float]] [3] [10; 20] ["PGA"] = Ok (d, log)
    /\ dget (0, 3, Some 20, "PGA") d = Some 0.2%float.
Proof.
  eexists _, _. split; [by vm_compute|].
  eapply (imldict_holds_the_cells_of_iml2s [0] [[[0.1; 0.2]%float]] [3]
            [10; 20] ["PGA"]).
  - by apply NoDup_cons_2; [intros ?%list_elem_of_singleton|apply NoDup_singleton].
  - apply NoDup_singleton.
  - by vm_compute.
  - split; [apply list_elem_of_here|]. split; [done|].
    by exists 1, 0, [[0.1; 0.2]%float], [0.1; 0.2]%float.
Defined.

(** ** The bin edges and their size check ([save_bin_edges]) *)

Section BinEdges.
Context {F : Type}.
Implicit Types (b : bin_edges F) (ds : list (string * value F)).

(** X12. While the number of cells of the matrix of every site fits in a
    64-bit integer, the size check of [save_bin_edges] is exact: it passes
    when no site has more than [10^7] cells, and otherwise it raises for
    the first site, in the order of [self.sitecol.sids], that has more,
    with the number of cells of that site in the message. *)
Theorem size_check_is_exact_within_int64 b (sids : list nat)
    (trts : list string) :
  (forall sid, sid ∈ sids -> exists n, matrix_cells b trts sid = Some n
     /\ (- 2 ^ 63 <= n < 2 ^ 63)%Z) ->
  ((forall sid n, sid ∈ sids -> matrix_cells b trts sid = Some n ->
      (n <= 10 ^ 7)%Z) ->
   exists log, check_matrix_sizes b sids trts = Ok log)
  /\ (forall pre sid post n,
        sids = pre ++ sid :: post ->
        (forall sid' n', sid' ∈ pre -> matrix_cells b trts sid' = Some n' ->
           (n' <= 10 ^ 7)%Z) ->
        matrix_cells b trts sid = Some n -> (10 ^ 7 < n)%Z ->
        check_matrix_sizes b sids trts = Raise (MatrixTooLarge sid n)).
Proof.
  intros Hfit. unfold check_matrix_sizes.
  set (body := fun (log : list (logrec F)) (sid : nat) =>
    bins <-! get_bins b sid ;;
    let shape := map (fun bin => (Z.of_nat (length bin) - 1)%Z) bins
                   ++ [Z.of_nat (length trts)] in
    let log := if decide (sid = 0) then log ++ [NBins shape sid] else log in
    let matrix_size := np_prod_int64 shape in
    if (10 ^ 7 <? matrix_size)%Z then Raise (MatrixTooLarge sid matrix_size)
    else Ok log).
  assert (Hstep : forall log sid n, matrix_cells b trts sid = Some n ->
            (- 2 ^ 63 <= n < 2 ^ 63)%Z ->
            body log sid
            = if (10 ^ 7 <? n)%Z then Raise (MatrixTooLarge sid n)
              else Ok (if decide (sid = 0)
                       then log ++ [NBins
                              (map (fun bin => (Z.of_nat (length bin) - 1)%Z)
                                   (match get_bins b sid with
                                    | Ok bins => bins | Raise _ => [] end)
                                 ++ [Z.of_nat (length trts)]) sid]
                       else log)).
  { intros log sid n Hn Hrange. unfold matrix_cells in Hn. unfold body.
    destruct (get_bins b sid) as [bins|e]; [|done]. injection Hn as <-.
    cbn [rbind]. cbv zeta. by rewrite np_prod_int64_exact. }
  assert (Hpass : forall l log,
    (forall sid, sid ∈ l -> exists n, matrix_cells b trts sid = Some n
       /\ (- 2 ^ 63 <= n < 2 ^ 63)%Z /\ (n <= 10 ^ 7)%Z) ->
    exists log', for_loop body l log = Ok log').
  { induction l as [|sid l IH]; intros log Hl; [by eexists|].
    destruct (Hl sid) as (n & Hn & Hrange & Hsmall); [apply list_elem_of_here|].
    cbn [for_loop]. rewrite (Hstep log sid n Hn Hrange).
    apply Z.ltb_ge in Hsmall. rewrite Hsmall. cbn [rbind].
    apply IH. intros sid' Hsid'. by apply Hl, list_elem_of_further. }
  split.
  - intros Hsmall. apply Hpass. intros sid Hsid.
    destruct (Hfit sid Hsid) as (n & Hn & Hrange). exists n.
    split; [done|]. split; [done|]. by eapply Hsmall.
  - intros pre sid post n -> Hpre Hn Hbig.
    rewrite for_loop_app.
    destruct (Hpass pre []) as [log Hlog].
    { intros sid' Hsid'.
      destruct (Hfit sid') as (n' & Hn' & Hrange');
        [apply elem_of_app; by left|].
      exists n'. split; [done|]. split; [done|]. by eapply Hpre. }
    rewrite Hlog. cbn [rbind for_loop].
    destruct (Hfit sid) as (n' & Hn' & Hrange);
      [apply elem_of_app; right; apply list_elem_of_here|].
    assert (n' = n) as -> by congruence.
    rewrite (Hstep log sid n Hn Hrange).
    apply Z.ltb_lt in Hbig. by rewrite Hbig.
Qed.

Lemma bin_keys_differ (sid sid' : nat) :
  "disagg-bins/lons/sid-" +:+ pretty sid <> "disagg-bins/lats/sid-" +:+ pretty sid'
  /\ (sid <> sid' ->
      "disagg-bins/lons/sid-" +:+ pretty sid
        <> "disagg-bins/lons/sid-" +:+ pretty sid')
  /\ (sid <> sid' ->
      "disagg-bins/lats/sid-" +:+ pretty sid
        <> "disagg-bins/lats/sid-" +:+ pretty sid').
Proof.
  split; [by intros [=]|]. split.
  - intros Hne Heq%string_app_inj. by apply Hne, (inj pretty).
  - intros Hne Heq%string_app_inj. by apply Hne, (inj pretty).
Qed.

(** The loop of [save_bin_edges] that stores the edges of every site. *)
Lemma store_lon_lat_loop b (sids : list nat) ds ds' :
  for_loop (fun ds sid =>
      lon <-! of_option KeyError (dget sid (lons b)) ;;
      let ds := dset ("disagg-bins/lons/sid-" +:+ pretty sid) (vec lon) ds in
      lat <-! of_option KeyError (dget sid (lats b)) ;;
      Ok (dset ("disagg-bins/lats/sid-" +:+ pretty sid) (vec lat) ds))
    sids ds = Ok ds' ->
  (forall sid, sid ∈ sids -> exists lon lat,
     dget sid (lons b) = Some lon /\ dget sid (lats b) = Some lat
     /\ dget ("disagg-bins/lons/sid-" +:+ pretty sid) ds' = Some (vec lon)
     /\ dget ("disagg-bins/lats/sid-" +:+ pretty sid) ds' = Some (vec lat))
  /\ (forall key,
        (forall sid, sid ∈ sids ->
           key <> "disagg-bins/lons/sid-" +:+ pretty sid
           /\ key <> "disagg-bins/lats/sid-" +:+ pretty sid) ->
        dget key ds' = dget key ds).
Proof.
  revert ds. induction sids as [|sid sids IH]; intros ds; cbn [for_loop].
  - intros [= <-]. split; [by intros ? ?%elem_of_nil|done].
  - intros (ds1 & H1 & H2)%rbind_Ok.
    apply rbind_Ok in H1 as (lon & Hlon & H1). cbv zeta in H1.
    apply rbind_Ok in H1 as (lat & Hlat & [= <-]).
    destruct (dget sid (lons b)) as [lon'|] eqn:Hlons; [|done]. injection Hlon as ->.
    destruct (dget sid (lats b)) as [lat'|] eqn:Hlats; [|done]. injection Hlat as ->.
    apply IH in H2 as [Hin Hout]. split.
    + intros sid' [->|Hsid']%elem_of_cons; [|by apply Hin].
      destruct (decide (sid ∈ sids)) as [Hs|Hs].
      * destruct (Hin sid Hs) as (lon' & lat' & Hlon' & Hlat' & ? & ?).
        rewrite Hlons in Hlon'. rewrite Hlats in Hlat'.
        injection Hlon' as <-. injection Hlat' as <-. by exists lon, lat.
      * exists lon, lat. split; [done|]. split; [done|].
        destruct (bin_keys_differ sid sid) as (Hll & _ & _).
        rewrite !Hout.
        -- rewrite dget_dset_eq. rewrite dget_dset_ne by (by intros ?%eq_sym).
           by rewrite dget_dset_eq.
        -- intros s Hsin. assert (sid <> s) by congruence.
           destruct (bin_keys_differ s sid) as (Hll' & _ & _).
           destruct (bin_keys_differ sid s) as (_ & _ & Hne). split; [|by apply Hne].
           by intros ?%eq_sym.
        -- intros s Hsin. assert (sid <> s) by congruence.
           destruct (bin_keys_differ sid s) as (Hll' & Hne & _).
           split; [by apply Hne|done].
    + intros key Hkey. rewrite Hout.
      * destruct (Hkey sid) as [Hk1 Hk2]; [apply list_elem_of_here|].
        rewrite dget_dset_ne by (by intros ?%eq_sym).
        by rewrite dget_dset_ne by (by intros ?%eq_sym).
      * intros s Hs. by apply Hkey, list_elem_of_further.
Qed.

(** X13. When [save_bin_edges] returns, the datastore holds the edges of
    magnitude, of distance and of epsilon under their names, and, for
    every site, the edges of longitude and of latitude of that site under
    the names [disagg-bins/lons/sid-<sid>] and
    [disagg-bins/lats/sid-<sid>]: no site overwrites the edges of
    another.  What the datastore held under a name that does not start
    with [disagg-bins/] is left as it was. *)
Theorem save_bin_edges_stores_every_edge b (sids : list nat)
    (trts : list string) ds ds' (log : list (logrec F)) :
  save_bin_edges b sids trts ds = Ok (ds', log) ->
  dget "disagg-bins/mags" ds' = Some (vec (mags b))
  /\ dget "disagg-bins/dists" ds' = Some (vec (dists b))
  /\ dget "disagg-bins/eps" ds' = Some (vec (eps b))
  /\ (forall sid, sid ∈ sids -> exists lon lat,
        dget sid (lons b) = Some lon /\ dget sid (lats b) = Some lat
        /\ dget ("disagg-bins/lons/sid-" +:+ pretty sid) ds' = Some (vec lon)
        /\ dget ("disagg-bins/lats/sid-" +:+ pretty sid) ds' = Some (vec lat))
  /\ (forall key, String.prefix "disagg-bins/" key = false ->
        dget key ds' = dget key ds).
Proof.
  unfold save_bin_edges. intros (log' & _ & Hrun)%rbind_Ok. cbv zeta in Hrun.
  apply rbind_Ok in Hrun as (ds1 & Hloop & [= <- <-]).
  apply store_lon_lat_loop in Hloop as [Hin Hout].
  assert (Hfixed : forall key : string,
            key = "disagg-bins/mags" \/ key = "disagg-bins/dists"
            \/ key = "disagg-bins/eps" ->
            forall sid : nat,
              key <> "disagg-bins/lons/sid-" +:+ pretty sid
              /\ key <> "disagg-bins/lats/sid-" +:+ pretty sid).
  { intros key [-> | [-> | ->]] sid; split; by intros [=]. }
  split; [|split; [|split; [|split]]].
  - rewrite dget_dset_ne by done. rewrite Hout by (intros; apply Hfixed; auto).
    rewrite dget_dset_ne by done. apply dget_dset_eq.
  - rewrite dget_dset_ne by done. rewrite Hout by (intros; apply Hfixed; auto).
    apply dget_dset_eq.
  - apply dget_dset_eq.
  - intros sid Hsid. destruct (Hin sid Hsid) as (lon & lat & ? & ? & ? & ?).
    exists lon, lat. split; [done|]. split; [done|].
    rewrite !dget_dset_ne by (by intros [=]). done.
  - intros key Hkey.
    rewrite dget_dset_ne by (intros <-; by vm_compute in Hkey).
    rewrite Hout.
    + rewrite dget_dset_ne by (intros <-; by vm_compute in Hkey).
      by rewrite dget_dset_ne by (intros <-; by vm_compute in Hkey).
    + intros sid _. split; intros ->; by cbn in Hkey.
Qed.
End BinEdges.

Lemma size_check_is_exact_within_int64_witness :
  check_matrix_sizes
    {| mags := [5.0; 5.2; 5.4]%float; dists := [0; 10]%float;
       lons := [(0, [1; 2]%float)]; lats := [(0, [3; 4]%float)];
       eps := [-3; 3]%float |} [0] ["Active Shallow Crust"; "Volcanic"]
  = Ok [NBins [2; 1; 1; 1; 1; 2]%Z 0].
Proof.
  destruct (size_check_is_exact_within_int64
              {| mags := [5.0; 5.2; 5.4]%float; dists := [0; 10]%float;
                 lons := [(0, [1; 2]%float)]; lats := [(0, [3; 4]%float)];
                 eps := [-3; 3]%float |} [0] ["Active Shallow Crust"; "Volcanic"])
    as [Hpass _].
  - intros sid ->%list_elem_of_singleton. exists 4%Z. split; [done|lia].
  - destruct Hpass as [log Hlog].
    + intros sid n ->%list_elem_of_singleton [= <-]. lia.
    + rewrite Hlog. vm_compute in Hlog. by injection Hlog as <-.
Defined.

Lemma save_bin_edges_stores_every_edge_witness :
  exists ds',
    save_bin_edges
      {| mags := [5.0; 5.2; 5.4]%float; dists := [0; 10]%float;
         lons := [(0, [1; 2]%float)]; lats := [(0, [3; 4]%float)];
         eps := [-3; 3]%float |} [0] ["Active Shallow Crust"] []
    = Ok (ds', [NBins [2; 1; 1; 1; 1; 1]%Z 0])
    /\ dget "disagg-bins/lats/sid-0" ds' = Some (vec [3; 4]%float).
Proof.
  eexists. split; [by vm_compute|].
  destruct (save_bin_edges_stores_every_edge
              {| mags := [5.0; 5.2; 5.4]%float; dists := [0; 10]%float;
                 lons := [(0, [1; 2]%float)]; lats := [(0, [3; 4]%float)];
                 eps := [-3; 3]%float |} [0] ["Active Shallow Crust"] [] _ _
              eq_refl) as (_ & _ & _ & Hsites & _).
  destruct (Hsites 0) as (lon & lat & _ & [= <-] & _ & Hlat);
    [apply list_elem_of_here|].
  exact Hlat.
Defined.

Section LonLatEdges.
Context {F : Type} `{Arith F} {B : Type}.
Variable lon_lat_bins : B -> F -> list F * list F.

Lemma lon_lat_edges_loop (w : F) (l : list (nat * B))
    (st : list (nat * list F) * list (nat * list F)) :
  let st' := fold_left (fun st sb =>
      let e := lon_lat_bins sb.2 w in
      (dset sb.1 e.1 st.1, dset sb.1 e.2 st.2)) l st in
  (keys st.1 = keys st.2 -> keys st'.1 = keys st'.2)
  /\ (NoDup (keys st.1) -> NoDup (keys st'.1))
  /\ (forall sid, sid ∈ keys st'.1 <-> sid ∈ keys st.1 \/ sid ∈ l.*1)
  /\ (NoDup (l.*1) -> forall sid bb, (sid, bb) ∈ l ->
        dget sid st'.1 = Some (lon_lat_bins bb w).1
        /\ dget sid st'.2 = Some (lon_lat_bins bb w).2)
  /\ (forall sid, sid ∉ l.*1 ->
        dget sid st'.1 = dget sid st.1 /\ dget sid st'.2 = dget sid st.2).
Proof.
  revert st. induction l as [|[s0 bb0] l IH]; intros st; cbn [fold_left].
  - cbv zeta. split; [done|]. split; [done|]. split; [|split; [|done]].
    + intros sid. split; [by left|]. by intros [?|?%elem_of_nil].
    + by intros _ sid bb ?%elem_of_nil.
  - destruct (IH (dset s0 (lon_lat_bins bb0 w).1 st.1,
                  dset s0 (lon_lat_bins bb0 w).2 st.2))
      as (Hk & Hnd & Hin & Hget & Hout).
    cbn [fst snd] in *. cbv zeta in *. split; [|split; [|split; [|split]]].
    + intros Heq. apply Hk. by rewrite !keys_dset, Heq.
    + intros Hd. by apply Hnd, NoDup_keys_dset.
    + intros sid. rewrite Hin, elem_of_keys_dset. cbn [fmap list_fmap fst].
      rewrite (elem_of_cons _ sid). tauto.
    + cbn [fmap list_fmap fst].
      intros [Hs0 Hl]%NoDup_cons sid bb [[= -> ->]|Hsb]%elem_of_cons.
      * destruct (Hout s0 Hs0) as [-> ->]. by rewrite !dget_dset_eq.
      * by apply Hget.
    + cbn [fmap list_fmap fst]. intros sid [Hne Hsid]%not_elem_of_cons.
      destruct (Hout sid Hsid) as [-> ->].
      by rewrite !dget_dset_ne by done.
Qed.

(** X14. The edges of longitude and latitude that [full_disaggregation]
    builds, one pair per site from the bounding box of the site, are
    enough for [save_bin_edges].  With a bounding box for every site,
    every site id is a key of [lon_edges] and of [lat_edges], and, the
    site ids being distinct, the edges of a site are those that
    [lon_lat_bins] gives for its own bounding box.  So [save_bin_edges]
    never fails on a lookup: it returns, or it raises the [ValueError]
    of a matrix that is too large. *)
Theorem lon_lat_edges_cover_the_sites (sids : list nat) (bbs : list B)
    (w : F) (mag_edges' dist_edges' eps_edges : list F) (trts : list string)
    (ds : list (string * value F)) :
  length sids <= length bbs ->
  let e := lon_lat_edges lon_lat_bins sids bbs w in
  let b := {| mags := mag_edges'; dists := dist_edges'; lons := e.1;
              lats := e.2; eps := eps_edges |} in
  keys e.1 = keys e.2 /\ NoDup (keys e.1)
  /\ (forall sid, sid ∈ keys e.1 <-> sid ∈ sids)
  /\ (NoDup sids -> forall i sid bb,
        sids !! i = Some sid -> bbs !! i = Some bb ->
        get_bins b sid
        = Ok [mag_edges'; dist_edges'; (lon_lat_bins bb w).1;
              (lon_lat_bins bb w).2; eps_edges])
  /\ ((exists r, save_bin_edges b sids trts ds = Ok r)
      \/ exists sid n,
           save_bin_edges b sids trts ds = Raise (MatrixTooLarge sid n)).
Proof.
  intros Hlen e b.
  destruct (lon_lat_edges_loop w (zip sids bbs) ([], []))
    as (Hk & Hnd & Hin & Hget & _). cbv zeta in *. cbn [fst snd] in *.
  fold (lon_lat_edges lon_lat_bins sids bbs w) in *. fold e in Hk, Hnd, Hin, Hget.
  assert (Hfst : (zip sids bbs).*1 = sids) by (by apply fst_zip).
  rewrite Hfst in *.
  assert (Hkeys : forall sid, sid ∈ keys e.1 <-> sid ∈ sids).
  { intros sid. rewrite Hin. split; [|by right]. by intros [?%elem_of_nil|?]. }
  split; [by apply Hk|]. split; [apply Hnd, NoDup_nil_2|]. split; [done|].
  split.
  - intros Hnds i sid bb Hsid Hbb. unfold get_bins. cbn [lons lats mags dists eps b].
    destruct (Hget Hnds sid bb) as [-> ->]; [|done].
    apply list_elem_of_lookup. exists i. by rewrite lookup_zip_with, Hsid; cbn; rewrite Hbb.
  - assert (Hlook : forall sid, sid ∈ sids ->
              exists lon lat, dget sid (lons b) = Some lon
                /\ dget sid (lats b) = Some lat).
    { intros sid Hsid. cbn [lons lats b].
      destruct (proj2 (dget_Some_keys sid e.1)) as [lon Hlon]; [by apply Hkeys|].
      destruct (proj2 (dget_Some_keys sid e.2)) as [lat Hlat];
        [rewrite <- Hk by done; by apply Hkeys|].
      by exists lon, lat. }
    unfold save_bin_edges, check_matrix_sizes.
    match goal with
    | |- context [rbind (for_loop ?chk sids []) _] => set (check := chk)
    end.
    match goal with
    | |- context [for_loop ?sto sids (dset _ _ _)] => set (store := sto)
    end.
    assert (Hcheck : forall l log, (forall sid, sid ∈ l -> sid ∈ sids) ->
      (exists log', for_loop check l log = Ok log')
      \/ exists sid n, for_loop check l log = Raise (MatrixTooLarge sid n)).
    { induction l as [|sid l IH]; intros log Hl; [left; by eexists|].
      cbn [for_loop]. destruct (Hlook sid) as (lon & lat & Hlon & Hlat);
        [apply Hl, list_elem_of_here|].
      unfold check at 1 3. unfold get_bins. rewrite Hlon, Hlat.
      cbn [of_option rbind]. cbv zeta.
      destruct (10 ^ 7 <? _)%Z; [right; by eexists _, _|]. cbn [rbind].
      apply IH. intros s Hs. by apply Hl, list_elem_of_further. }
    assert (Hstore : forall l ds0, (forall sid, sid ∈ l -> sid ∈ sids) ->
      exists ds1, for_loop store l ds0 = Ok ds1).
    { induction l as [|sid l IH]; intros ds0 Hl; [by eexists|].
      cbn [for_loop]. destruct (Hlook sid) as (lon & lat & Hlon & Hlat);
        [apply Hl, list_elem_of_here|].
      unfold store at 1. rewrite Hlon. cbn [of_option rbind]. cbv zeta.
      rewrite Hlat. cbn [of_option rbind]. apply IH. intros s Hs.
      by apply Hl, list_elem_of_further. }
    destruct (Hcheck sids [] ltac:(done)) as [[log Hlog]|(sid & n & Hraise)].
    + left. rewrite Hlog. cbn [rbind]. cbv zeta.
      match goal with
      | |- context [for_loop store sids ?ds0] =>
          destruct (Hstore sids ds0 ltac:(done)) as [ds1 Hds1]
      end.
      rewrite Hds1. cbn [rbind]. by eexists.
    + right. exists sid, n. by rewrite Hraise.
Qed.
End LonLatEdges.

Lemma lon_lat_edges_cover_the_sites_witness :
  get_bins
    {| mags := [5.0; 5.2]%float; dists := [0; 10]%float;
       lons := [(0, [1; 2]%float); (1, [2; 3]%float)];
       lats := [(0, [3; 4]%float); (1, [4; 5]%float)];
       eps := [-3; 3]%float |} 1
  = Ok [[5.0; 5.2]; [0; 10]; [2; 3]; [4; 5]; [-3; 3]]%float.
Proof.
  destruct (lon_lat_edges_cover_the_sites
              (fun (bb : float) (w : float) =>
                 ([bb; bb + w], [bb + 2; bb + 2 + w])%float)
              [0; 1] [1; 2]%float 1%float [5.0; 5.2]%float [0; 10]%float
              [-3; 3]%float ["Active Shallow Crust"] [])
    as (_ & _ & _ & Hbins & _); [cbn; lia|].
  apply (Hbins ltac:(by apply NoDup_cons_2;
                       [intros ?%list_elem_of_singleton|apply NoDup_singleton])
           1 1 2%float); done.
Defined.

(** ** More on the algebra of [agg_probs] *)

Lemma float_mul_one_r (x : float) : (x * 1 = x)%float.
Proof. rewrite float_mul_comm. apply float_mul_one_l. Qed.

Lemma zip_with_mul_ones_r (a : list float) (n : nat) :
  length a <= n -> zip_with PrimFloat.mul a (replicate n 1%float) = a.
Proof.
  revert n. induction a as [|x a IH]; intros [|n] Hn; cbn in *; try done; [lia|].
  rewrite float_mul_one_r, IH by lia. done.
Qed.

Lemma zip_with_mul_ones_l (a : list float) (n : nat) :
  length a <= n -> zip_with PrimFloat.mul (replicate n 1%float) a = a.
Proof.
  revert n. induction a as [|x a IH]; intros [|n] Hn; cbn in *; try done; [lia|].
  rewrite float_mul_one_l, IH by lia. done.
Qed.

Lemma vcompl_zeros_float (shp : list nat) :
  vcompl (zeros shp)
  = Array shp (replicate (foldr Nat.mul 1 shp) 1%float).
Proof.
  unfold zeros, vcompl, vmap. f_equal.
  generalize (foldr Nat.mul 1 shp) as n. induction n as [|n IH]; [done|].
  cbn [replicate map]. by rewrite IH.
Qed.

(** The loop of [agg_probs] over full arrays of one shape keeps a full
    array of that shape. *)
Lemma agg_probs_loop_full {F : Type} `{Arith F} (shp : list nat)
    (l : list (value F)) (a : list F) :
  Forall (full_array shp) l -> length a = foldr Nat.mul 1 shp ->
  exists a', for_loop (fun acc prob => vmul acc (vcompl prob)) l (Array shp a)
             = Ok (Array shp a')
    /\ length a' = foldr Nat.mul 1 shp.
Proof.
  intros Hl. revert a. induction Hl as [|p l (c & -> & Hc) _ IH]; intros a Ha.
  - by exists a.
  - cbn [for_loop vcompl vmap vmul]. rewrite decide_True by done. cbn [rbind].
    apply IH. rewrite length_zip_with, length_map. lia.
Qed.

(** X15. In the arithmetic of the program, a slice of zeros does not
    change the composition across the TRT axis: for full arrays of one
    shape, [agg_probs] gives the same doubles with the slice of zeros
    as without it, wherever the slice stands.  So the slices
    that [_to_matrix] leaves at zero for the TRTs that did not contribute
    do not perturb [aggmatrix], not even in its last bits. *)
Theorem agg_probs_skips_zero_slices (shp : list nat)
    (l1 l2 : list (value float)) :
  l1 ++ l2 <> [] -> Forall (full_array shp) (l1 ++ l2) ->
  agg_probs (l1 ++ zeros shp :: l2) = agg_probs (l1 ++ l2).
Proof.
  intros Hne Hall. apply Forall_app in Hall as [Hl1 Hl2].
  destruct l1 as [|p l1].
  - destruct l2 as [|p l2]; [done|]. cbn [app].
    apply Forall_cons in Hl2 as [(c & -> & Hc) Hl2].
    unfold agg_probs. cbn [for_loop]. rewrite vcompl_zeros_float.
    cbn [vcompl vmap vmul]. rewrite decide_True by done. cbn [rbind].
    rewrite zip_with_mul_ones_l; [done|]. rewrite length_map. lia.
  - cbn [app]. apply Forall_cons in Hl1 as [(c & -> & Hc) Hl1].
    unfold agg_probs. cbn [vcompl vmap]. rewrite !for_loop_app.
    destruct (agg_probs_loop_full shp l1 (map (sub one) c) Hl1)
      as (a & Hrun & Ha); [by rewrite length_map|].
    change (fun x => sub one x) with (sub one) in *.
    cbn [vcompl vmap] in Hrun. rewrite Hrun. cbn [rbind for_loop].
    rewrite vcompl_zeros_float. cbn [vmul]. rewrite decide_True by done.
    cbn [rbind]. rewrite zip_with_mul_ones_r by lia. done.
Qed.

Lemma agg_probs_skips_zero_slices_witness :
  agg_probs [Array [2] [0.1; 0.2]%float; zeros [2]; Array [2] [0.3; 0.4]%float]
  = agg_probs [Array [2] [0.1; 0.2]%float; Array [2] [0.3; 0.4]%float].
Proof.
  apply (agg_probs_skips_zero_slices [2] [Array [2] [0.1; 0.2]%float]
           [Array [2] [0.3; 0.4]%float]).
  - done.
  - repeat constructor; by eexists.
Defined.

Lemma Qc_compl_range (p : Qc) :
  (0 <= p)%Qc -> (p <= 1)%Qc -> (0 <= 1 - p)%Qc /\ (1 - p <= 1)%Qc.
Proof.
  intros H0 H1. split.
  - by apply Qcle_minus_iff in H1.
  - apply Qcle_minus_iff. by replace (1 + - (1 - p))%Qc with p by ring.
Qed.

Lemma Qc_mul_range (a b : Qc) :
  (0 <= a)%Qc -> (a <= 1)%Qc -> (0 <= b)%Qc -> (b <= 1)%Qc ->
  (0 <= a * b)%Qc /\ (a * b <= a)%Qc /\ (a * b <= b)%Qc.
Proof.
  intros Ha0 Ha1 Hb0 Hb1. split; [|split].
  - rewrite <- (Qcmult_0_l b). by apply Qcmult_le_compat_r.
  - rewrite <- (Qcmult_1_l a) at 2. rewrite (Qcmult_comm a b).
    by apply Qcmult_le_compat_r.
  - rewrite <- (Qcmult_1_l b) at 2. by apply Qcmult_le_compat_r.
Qed.

(** The product of complements of probabilities, from a probability. *)
Lemma Qc_compl_fold_range (ps : list Qc) (acc : Qc) :
  (0 <= acc)%Qc -> (acc <= 1)%Qc ->
  Forall (fun q => (0 <= q)%Qc /\ (q <= 1)%Qc) ps ->
  let f := fold_left (fun acc p => (acc * (1 - p))%Qc) ps acc in
  (0 <= f)%Qc /\ (f <= acc)%Qc /\ Forall (fun q => (f <= 1 - q)%Qc) ps.
Proof.
  intros H0 H1 Hps. revert acc H0 H1.
  induction Hps as [|p ps [Hp0 Hp1] _ IH]; intros acc H0 H1; cbn [fold_left].
  - cbv zeta. split; [done|]. split; [apply Qcle_refl|constructor].
  - destruct (Qc_compl_range p Hp0 Hp1) as [Hc0 Hc1].
    destruct (Qc_mul_range acc (1 - p) H0 H1 Hc0 Hc1) as (Hm0 & Hma & Hmp).
    destruct (IH (acc * (1 - p))%Qc) as (Hf0 & Hfa & Hfq).
    { exact Hm0. }
    { by eapply Qcle_trans. }
    cbv zeta in *. split; [done|]. split; [by eapply Qcle_trans; [exact Hfa|]|].
    constructor; [|done]. by eapply Qcle_trans; [exact Hfa|].
Qed.

Section CellwiseProduct.
Context {F : Type} `{Arith F}.

Lemma column_cons (i : nat) (c : list F) (cs : list (list F)) (x : F) :
  c !! i = Some x -> column i (c :: cs) = x :: column i cs.
Proof. intros Hx. unfold column. cbn [omap list_omap]. by rewrite Hx. Qed.

(** The loop of [agg_probs], cell by cell. *)
Lemma agg_probs_loop_cells (shp : list nat) (cs : list (list F)) (a : list F) :
  Forall (fun c' => length c' = length a) cs ->
  exists a', for_loop (fun acc prob => vmul acc (vcompl prob))
               (Array shp <$> cs) (Array shp a) = Ok (Array shp a')
    /\ length a' = length a
    /\ forall i x, a !! i = Some x ->
         a' !! i = Some (fold_left (fun acc p => mul acc (sub one p))
                           (column i cs) x).
Proof.
  intros Hcs. revert a Hcs. induction cs as [|c cs IH]; intros a Hcs.
  - exists a. split; [done|]. split; [done|]. by intros i x ->.
  - apply Forall_cons in Hcs as [Hc Hcs].
    destruct (IH (zip_with mul a (map (sub one) c))) as (a' & Hrun & Hlen & Hcell).
    { eapply Forall_impl; [exact Hcs|]. intros c' Hc'. cbn beta in *.
      rewrite length_zip_with, length_map. lia. }
    exists a'. split; [|split].
    + cbn [fmap list_fmap for_loop vcompl vmap vmul].
      rewrite decide_True by done. cbn [rbind]. exact Hrun.
    + rewrite Hlen, length_zip_with, length_map. lia.
    + intros i x Hx.
      destruct (lookup_lt_is_Some_2 c i) as [y Hy].
      { rewrite Hc. by eapply lookup_lt_Some. }
      rewrite (column_cons i c cs y Hy). cbn [fold_left]. apply Hcell.
      rewrite lookup_zip_with, Hx. cbn.
      change (map (sub one) c) with (sub one <$> c).
      by rewrite list_lookup_fmap, Hy.
Qed.
End CellwiseProduct.

(** X16. In exact arithmetic, [agg_probs] of arrays of one shape is, in
    every cell, the formula of its docstring, [1 - (1 - P1) ... (1 - Pn)]
    on the values of that cell.  When these values are probabilities
    (between 0 and 1), so is the result, and it is at least each of them:
    composing never lowers a probability. *)
Theorem agg_probs_composes_probabilities (shp : list nat) (c : list Qc)
    (cs : list (list Qc)) :
  Forall (fun c' => length c' = length c) cs ->
  exists r, agg_probs (Array shp <$> c :: cs) = Ok (Array shp r)
    /\ length r = length c
    /\ forall i, i < length c ->
         let col := column i (c :: cs) in
         length col = S (length cs)
         /\ r !! i = Some (compl_prod col)
         /\ (Forall (fun q => (0 <= q)%Qc /\ (q <= 1)%Qc) col ->
             (0 <= compl_prod col)%Qc /\ (compl_prod col <= 1)%Qc
             /\ Forall (fun q => (q <= compl_prod col)%Qc) col).
Proof.
  intros Hcs.
  destruct (agg_probs_loop_cells shp cs (map (sub one) c))
    as (a' & Hrun & Hlen & Hcell).
  { eapply Forall_impl; [exact Hcs|]. intros c' Hc'. cbn beta in *.
    by rewrite length_map. }
  rewrite length_map in Hlen.
  exists (map (sub one) a'). split; [|split].
  - cbn [fmap list_fmap]. unfold agg_probs. cbn [vcompl vmap].
    change (fun x : Qc => sub one x) with (sub (F := Qc) one) in *.
    rewrite Hrun. done.
  - by rewrite length_map.
  - intros i Hi. destruct (lookup_lt_is_Some_2 c i Hi) as [x Hx].
    assert (Hcol : column i (c :: cs) = x :: column i cs) by by apply column_cons.
    cbv zeta. rewrite Hcol.
    assert (Hlencol : length (column i cs) = length cs).
    { clear -Hcs Hi. induction Hcs as [|c' cs Hc' _ IH]; [done|].
      destruct (lookup_lt_is_Some_2 c' i) as [y Hy]; [lia|].
      rewrite (column_cons i c' cs y Hy). cbn [length]. by rewrite IH. }
    split; [cbn [length]; by rewrite Hlencol|].
    assert (Hprod : compl_prod (x :: column i cs)
              = sub one (fold_left (fun acc p => mul acc (sub one p))
                           (column i cs) (sub one x))).
    { unfold compl_prod. cbn [fold_left]. do 2 f_equal.
      cbn [mul sub one Qc_arith]. ring. }
    split.
    + change (map (sub one) a') with (sub one <$> a').
      rewrite list_lookup_fmap, (Hcell i (sub one x)).
      * cbn [fmap option_fmap option_map]. by rewrite Hprod.
      * change (map (sub one) c) with (sub one <$> c).
        by rewrite list_lookup_fmap, Hx.
    + intros [[Hx0 Hx1] Hall]%Forall_cons. rewrite Hprod.
      destruct (Qc_compl_range x Hx0 Hx1) as [Hc0 Hc1].
      cbn [mul sub one Qc_arith] in *.
      destruct (Qc_compl_fold_range (column i cs) (1 - x)%Qc Hc0 Hc1 Hall)
        as (Hf0 & Hfa & Hfq). cbv zeta in *.
      set (f := fold_left (fun acc p => (acc * (1 - p))%Qc) (column i cs)
                  (1 - x)%Qc) in *.
      assert (Hle : forall q : Qc, (f <= 1 - q)%Qc -> (q <= 1 - f)%Qc).
      { intros q Hq. apply Qcle_minus_iff in Hq. apply Qcle_minus_iff.
        by replace (1 - f + - q)%Qc with (1 - q + - f)%Qc by ring. }
      assert (Hf1 : (f <= 1)%Qc) by (by eapply Qcle_trans).
      destruct (Qc_compl_range f Hf0 Hf1) as [Hr0 Hr1].
      split; [done|]. split; [done|].
      constructor; [by apply Hle|].
      eapply Forall_impl; [exact Hfq|]. intros q Hq. by apply Hle.
Qed.

Lemma agg_probs_composes_probabilities_witness :
  exists r,
    agg_probs [Array [1] [Q2Qc (1 # 2)]; Array [1] [Q2Qc (1 # 2)]]
    = Ok (Array [1] r)
    /\ r !! 0 = Some (compl_prod [Q2Qc (1 # 2); Q2Qc (1 # 2)]).
Proof.
  destruct (agg_probs_composes_probabilities [1] [Q2Qc (1 # 2)]
              [[Q2Qc (1 # 2)]]) as (r & Hrun & _ & Hcell).
  - by repeat constructor.
  - exists r. split; [exact Hrun|]. apply (Hcell 0). cbn. lia.
Defined.

(** ** The edges of magnitude and of distance *)

Lemma Qc_floor_le (x : Qc) : (Qc_of_Z (Qfloor x) <= x)%Qc.
Proof. unfold Qcle. rewrite Qc_of_Z_this. apply Qfloor_le. Qed.

Lemma Qc_lt_floor (x : Qc) : (x < Qc_of_Z (Qfloor x + 1))%Qc.
Proof. unfold Qclt. rewrite Qc_of_Z_this. apply Qlt_floor. Qed.

Lemma Qc_le_ceiling (x : Qc) : (x <= Qc_of_Z (Qceiling x))%Qc.
Proof. unfold Qcle. rewrite Qc_of_Z_this. apply Qle_ceiling. Qed.

Lemma Qc_ceiling_lt (x : Qc) : (Qc_of_Z (Qceiling x - 1) < x)%Qc.
Proof. unfold Qclt. rewrite Qc_of_Z_this. apply Qceiling_lt. Qed.

Lemma Qc_pos_neq (w : Qc) : (0 < w)%Qc -> w <> 0%Qc.
Proof. intros Hw ->. by apply (Qclt_not_eq _ _ Hw). Qed.

Lemma Qc_scale_le (w a b : Qc) :
  (0 < w)%Qc -> (a <= b)%Qc -> (w * a <= w * b)%Qc.
Proof.
  intros Hw Hab. rewrite !(Qcmult_comm w).
  apply Qcmult_le_compat_r; [done|by apply Qclt_le_weak].
Qed.

Lemma Qc_scale_lt (w a b : Qc) :
  (0 < w)%Qc -> (a < b)%Qc -> (w * a < w * b)%Qc.
Proof.
  intros Hw Hab. rewrite !(Qcmult_comm w). by apply Qcmult_lt_compat_r.
Qed.

Lemma Qc_scale_div (w x : Qc) : (0 < w)%Qc -> (w * (x / w))%Qc = x.
Proof. intros Hw%Qc_pos_neq. by apply Qcmult_div_r. Qed.

Lemma Qc_of_Z_pred (z : Z) : (Qc_of_Z (z - 1) + 1)%Qc = Qc_of_Z z.
Proof. rewrite Qc_of_Z_succ. f_equal. lia. Qed.

(** The multiple of the width next below, and next above, a value. *)
Lemma Qc_floor_multiple (w x : Qc) :
  (0 < w)%Qc ->
  (w * Qc_of_Z (Qfloor (x / w)%Qc) <= x)%Qc
  /\ (x < w * Qc_of_Z (Qfloor (x / w)%Qc) + w)%Qc.
Proof.
  intros Hw. split.
  - rewrite <- (Qc_scale_div w x Hw) at 2. apply Qc_scale_le; [done|].
    apply Qc_floor_le.
  - rewrite <- (Qc_scale_div w x Hw) at 1.
    replace (w * Qc_of_Z (Qfloor (x / w)%Qc) + w)%Qc
      with (w * (Qc_of_Z (Qfloor (x / w)%Qc) + 1))%Qc by ring.
    apply Qc_scale_lt; [done|]. rewrite Qc_of_Z_succ. apply Qc_lt_floor.
Qed.

Lemma Qc_ceiling_multiple (w x : Qc) :
  (0 < w)%Qc ->
  (x <= w * Qc_of_Z (Qceiling (x / w)%Qc))%Qc
  /\ (w * Qc_of_Z (Qceiling (x / w)%Qc) < x + w)%Qc.
Proof.
  intros Hw. split.
  - rewrite <- (Qc_scale_div w x Hw) at 1. apply Qc_scale_le; [done|].
    apply Qc_le_ceiling.
  - rewrite <- (Qc_scale_div w x Hw) at 2.
    replace (w * (x / w) + w)%Qc with (w * (x / w + 1))%Qc by ring.
    apply Qc_scale_lt; [done|].
    rewrite <- (Qc_of_Z_pred (Qceiling (x / w)%Qc)).
    apply (proj2 (Qclt_minus_iff _ _)).
    replace (x / w + 1 + - (Qc_of_Z (Qceiling (x / w)%Qc - 1) + 1))%Qc
      with (x / w + - Qc_of_Z (Qceiling (x / w)%Qc - 1))%Qc by ring.
    apply (proj1 (Qclt_minus_iff _ _)). apply Qc_ceiling_lt.
Qed.

Lemma Qc_floor_of_Z (z : Z) : Qfloor (Qc_of_Z z) = z.
Proof. rewrite Qc_of_Z_this. apply Qfloor_Z. Qed.

Lemma Qc_ceiling_of_Z (z : Z) : Qceiling (Qc_of_Z z) = z.
Proof. rewrite Qc_of_Z_this. apply Qceiling_Z. Qed.

Lemma Qc_of_Z_inj (a b : Z) : Qc_of_Z a = Qc_of_Z b -> a = b.
Proof. intros Heq. by rewrite <- (Qc_floor_of_Z a), Heq, Qc_floor_of_Z. Qed.

(** X17. In exact arithmetic, for a positive bin width and
    [min_mag <= max_mag], the edges of magnitude cover the magnitudes and
    no more: the first edge is at most [min_mag] and less than one width
    below it, the last edge is at least [max_mag] and less than one width
    above it.  There is a single edge, hence no bin of magnitude, exactly
    when [min_mag = max_mag] is a multiple of the width. *)
Theorem mag_edges_cover_the_magnitudes (w min_mag max_mag : Qc) :
  (0 < w)%Qc -> (min_mag <= max_mag)%Qc ->
  exists edges e0 e1,
    mag_edges w min_mag max_mag = Ok edges
    /\ head edges = Some e0 /\ last edges = Some e1
    /\ (e0 <= min_mag)%Qc /\ (min_mag < e0 + w)%Qc
    /\ (max_mag <= e1)%Qc /\ (e1 < max_mag + w)%Qc
    /\ (length edges = 1 <-> min_mag = max_mag /\ e0 = min_mag).
Proof.
  intros Hw Hle.
  set (lo := Qfloor (min_mag / w)%Qc). set (hi := Qceiling (max_mag / w)%Qc).
  assert (Hlohi : (lo <= hi)%Z).
  { subst lo hi. etransitivity; [|rewrite Zle_Qle; apply Qle_floor_ceiling].
    apply Qfloor_resp_le. by apply Qc_div_le. }
  destruct (Qc_floor_multiple w min_mag Hw) as [Hf1 Hf2].
  destruct (Qc_ceiling_multiple w max_mag Hw) as [Hc1 Hc2].
  fold lo in Hf1, Hf2. fold hi in Hc1, Hc2.
  exists (map (fun k => (w * Qc_of_Z k)%Qc) (seqZ lo (hi - lo + 1))),
    (w * Qc_of_Z lo)%Qc, (w * Qc_of_Z hi)%Qc.
  split; [|split; [|split; [|split; [done|split; [done|split; [done|split; [done|]]]]]]].
  - unfold mag_edges. cbn [floor ceil div add one Qc_arith].
    fold lo hi. rewrite Qc_to_int_of_Z. cbn [rbind].
    rewrite Qc_of_Z_succ, Qc_to_int_of_Z. cbn [rbind]. unfold arange.
    do 3 f_equal. lia.
  - change (map ?f ?l) with (f <$> l).
    rewrite head_lookup, list_lookup_fmap, lookup_seqZ_lt by lia.
    cbn. do 3 f_equal. lia.
  - change (map ?f ?l) with (f <$> l).
    rewrite last_lookup, length_fmap, length_seqZ, list_lookup_fmap.
    rewrite lookup_seqZ_lt by lia. cbn. do 3 f_equal. lia.
  - rewrite length_map, length_seqZ. split.
    + intros Hone. assert (lo = hi) as Heq by lia.
      assert (Hmin : (w * Qc_of_Z lo)%Qc = min_mag).
      { apply Qcle_antisym; [done|].
        apply Qcle_trans with max_mag; [done|]. by rewrite Heq. }
      split; [|done]. apply Qcle_antisym; [done|].
      rewrite <- Hmin, Heq. exact Hc1.
    + intros [<- Hmin].
      assert (Hq : (min_mag / w)%Qc = Qc_of_Z lo).
      { rewrite <- Hmin at 1. rewrite Qcmult_comm.
        apply Qcdiv_mult_l. by apply Qc_pos_neq. }
      assert (hi = lo); [|lia].
      subst hi. by rewrite Hq, Qc_ceiling_of_Z.
Qed.

Lemma mag_edges_cover_the_magnitudes_witness :
  exists edges e0 e1,
    mag_edges (Q2Qc (2 # 10)) (Q2Qc 5) (Q2Qc (53 # 10)) = Ok edges
    /\ head edges = Some e0 /\ last edges = Some e1
    /\ (e0 <= Q2Qc 5)%Qc /\ (Q2Qc (53 # 10) <= e1)%Qc.
Proof.
  destruct (mag_edges_cover_the_magnitudes (Q2Qc (2 # 10)) (Q2Qc 5)
              (Q2Qc (53 # 10)))
    as (edges & e0 & e1 & ? & ? & ? & ? & _ & ? & _); [done|by vm_compute|].
  by exists edges, e0, e1.
Defined.

(** The maximum that Python's [max] finds, in exact arithmetic. *)
Lemma py_max_Qc (x : Qc) (rest : list Qc) :
  let m := fold_left (fun m y => if ltb m y then y else m) rest x in
  m ∈ x :: rest /\ Forall (fun d => (d <= m)%Qc) (x :: rest).
Proof.
  revert x. induction rest as [|y rest IH]; intros x; cbn [fold_left].
  - cbv zeta. split; [apply list_elem_of_here|].
    constructor; [apply Qcle_refl|constructor].
  - destruct (IH (if ltb x y then y else x)) as [Hin Hall]. cbv zeta in *.
    set (m := fold_left _ rest _) in *.
    apply Forall_cons in Hall as [Hm Hall].
    cbn [ltb Qc_arith] in *. split.
    + apply elem_of_cons in Hin as [Hin|Hin].
      * rewrite Hin. case_bool_decide.
        -- apply list_elem_of_further, list_elem_of_here.
        -- apply list_elem_of_here.
      * by do 2 apply list_elem_of_further.
    + case_bool_decide as Hxy.
      * constructor; [|by constructor].
        apply Qcle_trans with y; [by apply Qclt_le_weak|done].
      * constructor; [done|]. constructor; [|done].
        apply Qcle_trans with x; [by apply Qcnot_lt_le|done].
Qed.

(** X18. The edges of distance.  Without a TRT, [max] raises
    [ValueError].  Otherwise, in exact arithmetic, for a positive bin
    width and distances that are not negative, the edges are the
    multiples [0, w, 2w, ...] of the width up to the first one that is
    at least the largest of the maximum distances of the TRTs: every
    such distance falls within the edges, and the last edge is less than
    one width above the largest.  On doubles, a width of [100] and the
    distances [200] and [250] give the edges [0, 100, 200, 300]. *)
Theorem dist_edges_cover_the_distances (w : Qc) (maxdists : list Qc) :
  dist_edges w [] = Raise ValueError
  /\ ((0 < w)%Qc -> maxdists <> [] ->
      Forall (fun d => (0 <= d)%Qc) maxdists ->
      exists maxdist n,
        py_max maxdists = Ok maxdist
        /\ maxdist ∈ maxdists /\ Forall (fun d => (d <= maxdist)%Qc) maxdists
        /\ n = Qceiling (maxdist / w)%Qc /\ (0 <= n)%Z
        /\ dist_edges w maxdists
           = Ok (map (fun k => (w * Qc_of_Z k)%Qc) (seqZ 0 (n + 1)))
        /\ (maxdist <= w * Qc_of_Z n)%Qc /\ (w * Qc_of_Z n < maxdist + w)%Qc)
  /\ dist_edges 100%float [200; 250]%float = Ok [0; 100; 200; 300]%float.
Proof.
  split; [done|]. split; [|by vm_compute].
  intros Hw Hne Hpos. destruct maxdists as [|x rest]; [done|].
  destruct (py_max_Qc x rest) as [Hin Hall]. cbv zeta in *.
  set (maxdist := fold_left _ rest x) in *.
  destruct (Qc_ceiling_multiple w maxdist Hw) as [Hc1 Hc2].
  assert (Hmax0 : (0 <= maxdist)%Qc).
  { rewrite Forall_forall in Hpos. by apply Hpos. }
  assert (Hn : (0 <= Qceiling (maxdist / w)%Qc)%Z).
  { rewrite <- (Qc_ceiling_of_Z 0). apply Qceiling_resp_le.
    change (Qc_of_Z 0 <= maxdist / w)%Qc.
    replace (Qc_of_Z 0) with (0 / w)%Qc; [by apply Qc_div_le|].
    apply Qc_is_canon. unfold Qcdiv, Qcmult. cbn. by rewrite Qred_correct. }
  exists maxdist, (Qceiling (maxdist / w)%Qc).
  split; [done|]. split; [done|]. split; [done|]. split; [done|].
  split; [done|]. split; [|done].
  unfold dist_edges, py_max. fold maxdist. cbn [rbind].
  cbn [floor ceil div add one Qc_arith].
  rewrite Qc_of_Z_succ, Qc_to_int_of_Z. cbn [rbind]. unfold arange.
  do 3 f_equal. lia.
Qed.

Lemma dist_edges_cover_the_distances_witness :
  exists edges,
    dist_edges (Q2Qc 100) [Q2Qc 200; Q2Qc 250] = Ok edges
    /\ length edges = 4.
Proof.
  destruct (dist_edges_cover_the_distances (Q2Qc 100) [Q2Qc 200; Q2Qc 250])
    as (_ & Hrun & _).
  destruct Hrun as (maxdist & n & Hmax & _ & _ & Hn & _ & Hedges & _).
  - done.
  - done.
  - repeat constructor; by vm_compute.
  - exists (map (fun k => (Q2Qc 100 * Qc_of_Z k)%Qc) (seqZ 0 (n + 1))).
    split; [exact Hedges|]. vm_compute in Hmax. injection Hmax as <-.
    rewrite Hn. by vm_compute.
Defined.

(** ** Targets outside a curve, and curves that hold a NaN *)

Section Clamping.
Context {F : Type} `{Arith F}.

Lemma nth_reverse_last (l : list F) (d x : F) :
  head l = Some x -> nth (length l - 1) (reverse l) d = x.
Proof.
  intros Hx. rewrite nth_lookup.
  destruct l as [|y l]; [done|]. injection Hx as ->.
  rewrite reverse_lookup by (cbn; lia). cbn [length].
  replace (S (length l) - S (S (length l) - 1)) with 0 by lia. done.
Qed.

Lemma nth_reverse_first (l : list F) (d x : F) :
  last l = Some x -> nth 0 (reverse l) d = x.
Proof.
  intros Hx. rewrite nth_lookup. rewrite last_lookup in Hx.
  destruct l as [|y l]; [done|].
  rewrite reverse_lookup by (cbn; lia).
  replace (length (y :: l) - 1) with (Nat.pred (length (y :: l))) by (cbn; lia).
  by rewrite Hx.
Qed.

Lemma interp_point_clamp (xp fp : list F) (d x : F) :
  is_nan x = false ->
  (ltb (nth (length xp - 1) xp d) x = true ->
   interp_point xp fp d x = nth (length xp - 1) fp d)
  /\ (ltb (nth (length xp - 1) xp d) x = false ->
      ltb x (nth 0 xp d) = true ->
      interp_point xp fp d x = nth 0 fp d).
Proof.
  intros Hnan. unfold interp_point. rewrite Hnan.
  destruct (length xp =? 1) eqn:Hone.
  - apply Nat.eqb_eq in Hone. rewrite Hone. cbn [Nat.sub].
    split; intros; by repeat destruct (ltb _ _).
  - split; [by intros ->|by intros -> ->].
Qed.

(** X19. [numpy.interp] on the reversed curve does not extrapolate.  For a
    curve of probabilities [poes] and its levels [imls], a requested
    probability greater than the first probability of the curve gets the
    first level, and one that is less than the last probability of the
    curve (and not greater than the first) gets the last level. *)
Theorem interp_clamps_outside_the_curve (xs poes imls : list F)
    (p0 i0 pl il : F) :
  length imls = length poes ->
  head poes = Some p0 -> head imls = Some i0 ->
  last poes = Some pl -> last imls = Some il ->
  exists row, interp xs (reverse poes) (reverse imls) = Ok row
    /\ length row = length xs
    /\ forall j x, xs !! j = Some x -> is_nan x = false ->
         (ltb p0 x = true -> row !! j = Some i0)
         /\ (ltb p0 x = false -> ltb x pl = true -> row !! j = Some il).
Proof.
  intros Hlen Hp0 Hi0 Hpl Hil. unfold interp.
  destruct (reverse poes) as [|d xp] eqn:Hrev.
  { apply (f_equal length) in Hrev. rewrite length_reverse in Hrev.
    by destruct poes. }
  rewrite <- Hrev, !length_reverse, Hlen, Nat.eqb_refl.
  eexists. split; [done|]. split; [by rewrite length_map|].
  intros j x Hj Hnan. change (map ?f ?l) with (f <$> l).
  rewrite list_lookup_fmap, Hj. cbn [fmap option_fmap option_map].
  destruct (interp_point_clamp (reverse poes) (reverse imls) d x Hnan)
    as [Hhigh Hlow].
  rewrite length_reverse in Hhigh, Hlow.
  rewrite (nth_reverse_last poes d p0 Hp0) in Hhigh, Hlow.
  rewrite (nth_reverse_first poes d pl Hpl) in Hlow.
  rewrite (nth_reverse_first imls d il Hil) in Hlow.
  rewrite <- Hlen in Hhigh.
  rewrite (nth_reverse_last imls d i0 Hi0) in Hhigh.
  split.
  - intros Hx. by rewrite Hhigh.
  - intros Hx Hx'. by rewrite Hlow.
Qed.
End Clamping.

Lemma interp_clamps_outside_the_curve_witness :
  interp [0.5; 0.001]%float (reverse [0.05; 0.01]%float)
    (reverse [0.1; 0.2]%float) = Ok [0.1; 0.2]%float.
Proof.
  destruct (interp_clamps_outside_the_curve [0.5; 0.001]%float
              [0.05; 0.01]%float [0.1; 0.2]%float
              0.05%float 0.1%float 0.01%float 0.2%float
              eq_refl eq_refl eq_refl eq_refl eq_refl)
    as (row & Hrun & _).
  rewrite Hrun. vm_compute in Hrun. by injection Hrun as <-.
Defined.

Lemma SFcompare_refl_nan (s : spec_float) :
  SFeqb s s = false -> s = S754_nan.
Proof.
  destruct s as [sg|sg| |sg m e]; try done; unfold SFeqb, SFcompare.
  - by destruct sg.
  - rewrite Z.compare_refl.
    change (PosDef.Pos.compare_cont Eq m m) with (m ?= m)%positive.
    rewrite Pos.compare_refl. by destruct sg.
Qed.

(** A NaN is neither below nor above anything. *)
Lemma float_nan_ltb (x y : float) :
  PrimFloat.is_nan x = true -> (x <? y)%float = false /\ (y <? x)%float = false.
Proof.
  unfold PrimFloat.is_nan. rewrite FloatAxioms.eqb_spec, !FloatAxioms.ltb_spec.
  intros Hx%negb_true_iff%SFcompare_refl_nan. rewrite Hx.
  split; [done|]. unfold SFltb, SFcompare. by destruct (Prim2SF y) as [[]|[]| |[]].
Qed.

Lemma maximum_nan (a b : float) :
  PrimFloat.is_nan a = true \/ PrimFloat.is_nan b = true ->
  PrimFloat.is_nan (maximum a b) = true.
Proof.
  unfold maximum. cbn [is_nan float_arith].
  destruct (PrimFloat.is_nan a) eqn:Ha; [done|].
  intros [?|Hb]; [done|]. by rewrite Hb.
Qed.

Lemma np_max_nan (hz : list float) (x : float) :
  x ∈ hz -> PrimFloat.is_nan x = true ->
  exists m, np_max hz = Ok m /\ PrimFloat.is_nan m = true.
Proof.
  intros Hin Hx. destruct hz as [|y hz]; [by apply elem_of_nil in Hin|].
  eexists. split; [done|].
  assert (Hacc : forall l acc, PrimFloat.is_nan acc = true ->
            PrimFloat.is_nan (fold_left maximum l acc) = true).
  { induction l as [|z l IH]; intros acc Hacc; [done|]. cbn [fold_left].
    apply IH, maximum_nan. by left. }
  apply elem_of_cons in Hin as [<-|Hin]; [by apply Hacc|].
  revert y. induction hz as [|z hz IH]; intros y; [by apply elem_of_nil in Hin|].
  cbn [fold_left]. apply elem_of_cons in Hin as [<-|Hin].
  - apply Hacc, maximum_nan. by right.
  - by apply IH.
Qed.

(** X20. [_check_curve] is silent about NaN.  A curve that holds a NaN for
    every IMT is never flagged, whatever the requested probabilities, as
    its maximum is NaN and no number is greater than NaN; and requested
    probabilities that are NaN are never flagged on a complete curve. *)
Theorem check_curve_never_flags_nan (sid rlz : nat)
    (curve imtls : list (string * list float)) (poes : list float) :
  ((forall imt, imt ∈ keys imtls -> exists hz x,
      dget imt curve = Some hz /\ x ∈ hz /\ PrimFloat.is_nan x = true) ->
   _check_curve sid rlz curve imtls poes = Ok (false, []))
  /\ (curve_complete curve (keys imtls) ->
      Forall (fun poe => PrimFloat.is_nan poe = true) poes ->
      _check_curve sid rlz curve imtls poes = Ok (false, [])).
Proof.
  assert (Hquiet : forall (max_poe : float) (imt : string) (l : list float),
            Forall (fun poe => (max_poe <? poe)%float = false) l ->
            imt_warnings sid rlz imt max_poe l = []).
  { intros max_poe imt l Hl. unfold imt_warnings.
    induction Hl as [|poe l Hpoe _ IH]; [done|]. cbn [List.filter].
    cbn [ltb float_arith]. by rewrite Hpoe. }
  split.
  - intros Hnan.
    assert (Hc : curve_complete curve (keys imtls)).
    { intros imt Himt. destruct (Hnan imt Himt) as (hz & x & Hhz & Hx & _).
      destruct hz as [|y hz]; [by apply elem_of_nil in Hx|]. eauto. }
    rewrite check_curve_run by done.
    assert (Hw : curve_warnings sid rlz curve poes (keys imtls) = []).
    { unfold curve_warnings. revert Hnan. generalize (keys imtls) as imts.
      induction imts as [|imt imts IH]; intros Hnan; [done|]. cbn [flat_map].
      rewrite IH by (intros i Hi; by apply Hnan, list_elem_of_further).
      rewrite app_nil_r.
      destruct (Hnan imt) as (hz & x & Hhz & Hx & Hxnan); [apply list_elem_of_here|].
      rewrite Hhz. destruct (np_max_nan hz x Hx Hxnan) as (m & Hm & Hmnan).
      destruct hz as [|y hz]; [done|]. injection Hm as Hm. rewrite Hm.
      apply Hquiet. apply Forall_forall. intros poe _.
      exact (proj1 (float_nan_ltb m poe Hmnan)). }
    by rewrite Hw.
  - intros Hc Hpoes. rewrite check_curve_run by done.
    assert (Hw : curve_warnings sid rlz curve poes (keys imtls) = []).
    { unfold curve_warnings. generalize (keys imtls) as imts.
      induction imts as [|imt imts IH]; [done|]. cbn [flat_map].
      rewrite IH, app_nil_r. destruct (dget imt curve) as [[|y hz]|]; try done.
      apply Hquiet. eapply Forall_impl; [exact Hpoes|].
      intros poe Hpoe. exact (proj2 (float_nan_ltb poe _ Hpoe)). }
    by rewrite Hw.
Qed.

Lemma check_curve_never_flags_nan_witness :
  _check_curve 0 0 [("PGA", [0.001; PrimFloat.nan]%float)]
    [("PGA", [0.1; 0.2]%float)] [0.5%float] = Ok (false, []).
Proof.
  apply (proj1 (check_curve_never_flags_nan 0 0
           [("PGA", [0.001; PrimFloat.nan]%float)]
           [("PGA", [0.1; 0.2]%float)] [0.5%float])).
  intros imt ->%list_elem_of_singleton.
  exists [0.001; PrimFloat.nan]%float, PrimFloat.nan. split; [done|].
  split; [apply list_elem_of_further, list_elem_of_here|done].
Defined.

(** ** What [_save_result] writes *)

Section SaveFrame.
Variable pmf_map : list (string * (pmf_arg float -> value float)).
Variable np_prod : value float -> float.
Variable np_mean : list float -> float.
Implicit Types (matrix : list (value float)) (aggmatrix : value float)
  (ds : list (string * value float)).

Lemma store_pmf_frame (disagg_outputs : list string) (disp : string)
    matrix aggmatrix (l : list (string * (pmf_arg float -> value float)))
    (st : list (string * value float) * list float) :
  let st' := fold_left (store_pmf np_prod disagg_outputs disp matrix aggmatrix) l st in
  (forall name, name ∈ keys st.1 -> name ∈ keys st'.1)
  /\ (forall name, name ∈ keys st'.1 ->
        name ∈ keys st.1
        \/ exists key, key ∈ keys l /\ requested disagg_outputs key = true
             /\ name = disp +:+ key)
  /\ (forall name,
        (forall key, key ∈ keys l -> requested disagg_outputs key = true ->
           name <> disp +:+ key) ->
        dget name st'.1 = dget name st.1)
  /\ length st'.2
     = length st.2
       + length (List.filter (fun kf => requested disagg_outputs kf.1) l).
Proof.
  revert st. induction l as [|[k f] l IH]; intros st; cbn [fold_left].
  - cbv zeta. split; [done|]. split; [by left|]. split; [done|]. cbn. lia.
  - set (st1 := store_pmf np_prod disagg_outputs disp matrix aggmatrix st (k, f)).
    destruct (IH st1) as (Hmono & Hnew & Hframe & Hlen). cbv zeta in *.
    cbn [List.filter fst]. unfold keys at 3 6. cbn [map fst].
    assert (Hhead : if requested disagg_outputs k
              then exists pmf x, st1 = (dset (disp +:+ k) pmf st.1, st.2 ++ [x])
              else st1 = st).
    { subst st1. unfold store_pmf. cbn [fst snd].
      destruct (requested disagg_outputs k); [by eexists _, _|done]. }
    destruct (requested disagg_outputs k) eqn:Hreq.
    + destruct Hhead as (pmf & x & Hst1). rewrite Hst1 in *. cbn [fst snd] in *.
      split; [|split; [|split]].
      * intros name Hname. apply Hmono, elem_of_keys_dset. by right.
      * intros name [[->|?]%elem_of_keys_dset|(key & Hkey & Hr & ->)]%Hnew.
        -- right. exists k. split; [apply list_elem_of_here|done].
        -- by left.
        -- right. exists key. split; [by apply list_elem_of_further|done].
      * intros name Hname. rewrite Hframe.
        -- apply dget_dset_ne. intros Heq. symmetry in Heq. revert Heq.
           by apply Hname; [apply list_elem_of_here|].
        -- intros key Hkey. by apply Hname, list_elem_of_further.
      * rewrite Hlen, length_app. cbn [length]. lia.
    + rewrite Hhead in *. split; [done|]. split; [|split; [|done]].
      * intros name [?|(key & Hkey & Hr & ->)]%Hnew; [by left|].
        right. exists key. split; [by apply list_elem_of_further|done].
      * intros name Hname. apply Hframe.
        intros key Hkey. by apply Hname, list_elem_of_further.
Qed.

(** X21. [_save_result] writes the PMFs that were asked for and nothing
    else.  When it returns, no dataset has been removed; a dataset that
    is new is named [disp_name + key] for a kind [key] of [pmf_map] that
    is requested; a dataset whose name is not of that form holds what it
    held before; and one aggregate probability was recorded per requested
    kind of [pmf_map].  A name in [disagg_outputs] that is not a kind of
    [pmf_map] has no effect. *)
Theorem save_result_writes_requested_kinds_only (disagg_outputs : list string)
    ds (dskey : string) (site_id rlz_id : nat) (poe : option float)
    (poe_id : nat) (iml : float) (imt_str : string) matrix
    ds' (attrs : result_attrs float) (log : list (logrec float)) :
  _save_result pmf_map np_prod np_mean disagg_outputs ds dskey site_id rlz_id
    poe poe_id iml imt_str matrix = Ok (ds', attrs, log) ->
  let disp := disp_name dskey imt_str site_id poe_id in
  (forall name, name ∈ keys ds -> name ∈ keys ds')
  /\ (forall name, name ∈ keys ds' ->
        name ∈ keys ds
        \/ exists key, key ∈ keys pmf_map
             /\ requested disagg_outputs key = true /\ name = disp +:+ key)
  /\ (forall name,
        (forall key, key ∈ keys pmf_map -> requested disagg_outputs key = true ->
           name <> disp +:+ key) ->
        dget name ds' = dget name ds)
  /\ length (attr_poe_agg attrs)
     = length (List.filter (fun kf => requested disagg_outputs kf.1) pmf_map).
Proof.
  intros Hrun disp. unfold _save_result in Hrun. fold disp in Hrun.
  apply rbind_Ok in Hrun as ([ds1 aggs] & Hext & Hrun).
  unfold extract_pmfs in Hext. apply rbind_Ok in Hext as (aggmatrix & _ & Hext).
  injection Hext as Hext.
  destruct (store_pmf_frame disagg_outputs disp matrix aggmatrix pmf_map (ds, []))
    as (Hmono & Hnew & Hframe & Hlen).
  cbv zeta in *. rewrite Hext in Hmono, Hnew, Hframe, Hlen. cbn [fst snd] in *.
  assert (Hds : ds' = ds1 /\ attr_poe_agg attrs = aggs).
  { cbn [fst snd] in Hrun. destruct (hdf5_group ds1 disp); [|done].
    destruct poe as [p|]; [destruct (truthy (Some p)); [destruct (ltb _ _)|]|];
      by injection Hrun as <- <- _. }
  destruct Hds as [-> ->]. done.
Qed.
End SaveFrame.

Lemma save_result_writes_requested_kinds_only_witness :
  exists ds' attrs log,
    _save_result [("Mag", probe_pmf); ("TRT", probe_pmf)] seq_prod seq_mean
      ["Mag"; "Lon_Lat"] [("sitecol", Scalar 1%float)] "disagg" 0 0
      (Some 0.5%float) 0 0.1%float "PGA"
      [Array [1] [0.5%float]; Array [1] [0.25%float]] = Ok (ds', attrs, log)
    /\ keys ds' = ["sitecol"; "disagg/PGA-sid-0-poe-0/Mag"]
    /\ length (attr_poe_agg attrs) = 1.
Proof.
  eexists _, _, _. split; [by vm_compute|]. split; [done|].
  eapply (save_result_writes_requested_kinds_only
            [("Mag", probe_pmf); ("TRT", probe_pmf)] seq_prod seq_mean
            ["Mag"; "Lon_Lat"] [("sitecol", Scalar 1%float)] "disagg" 0 0
            (Some 0.5%float) 0 0.1%float "PGA"
            [Array [1] [0.5%float]; Array [1] [0.25%float]]).
  by vm_compute.
Defined.

(** ** The names of the outputs *)

Section OutputNames.
Import Stdlib.Strings.Ascii.

(** Two strings that agree up to the first occurrence of a character. *)
Lemma string_split_at (c : Ascii.ascii) (s1 s2 r1 r2 : string) :
  occurs c s1 = false -> occurs c s2 = false ->
  s1 +:+ String c r1 = s2 +:+ String c r2 -> s1 = s2 /\ r1 = r2.
Proof.
  revert s2. induction s1 as [|a s1 IH]; intros [|b s2]; cbn.
  - by intros _ _ [= ->].
  - intros _ Hb [= <- _]. by rewrite Ascii.eqb_refl in Hb.
  - intros Ha _ [= -> _]. by rewrite Ascii.eqb_refl in Ha.
  - intros [_ Ha]%orb_false_elim [_ Hb]%orb_false_elim [= -> Heq].
    destruct (IH s2 Ha Hb Heq) as [-> ->]. done.
Qed.

(** The decimal digits of a number hold no other character. *)
Lemma pretty_N_go_occurs (c : Ascii.ascii) (x : N) (s : string) :
  (forall d, pretty_N_char d <> c) ->
  occurs c (pretty_N_go x s) = occurs c s.
Proof.
  intros Hc. revert s. induction (N.lt_wf_0 x) as [x _ IH]; intros s.
  assert (x = 0 \/ 0 < x)%N as [->|Hx] by lia.
  - by rewrite pretty_N_go_0.
  - rewrite pretty_N_go_step by done. rewrite IH by (by apply N.div_lt).
    cbn. destruct (Ascii.eqb_spec c (pretty_N_char (x `mod` 10))) as [->|]; [|done].
    by destruct (Hc (x `mod` 10)%N).
Qed.

Lemma pretty_nat_occurs (c : Ascii.ascii) (n : nat) :
  (forall d, pretty_N_char d <> c) -> c <> "0"%char ->
  occurs c (pretty n) = false.
Proof.
  intros Hc H0. unfold pretty, pretty_nat, pretty, pretty_N.
  case_decide.
  - cbn. by destruct (Ascii.eqb_spec c "0").
  - by rewrite pretty_N_go_occurs.
Qed.

Lemma digit_not_dash (d : N) : pretty_N_char d <> "-"%char.
Proof. unfold pretty_N_char. by repeat case_match. Qed.

Lemma digit_not_slash (d : N) : pretty_N_char d <> "/"%char.
Proof. unfold pretty_N_char. by repeat case_match. Qed.

(** X22. The names of the outputs do not collide.  For IMT names without
    a hyphen, two outputs of [_save_result] under the same [dskey] get the
    same group name [disp_name] only when they are for the same IMT, the
    same site and the same index of probability; so the datasets of one
    output are never overwritten by those of another. *)
Theorem disp_name_separates_the_outputs (dskey imt imt' : string)
    (sid sid' pid pid' : nat) :
  occurs "-" imt = false -> occurs "-" imt' = false ->
  disp_name dskey imt sid pid = disp_name dskey imt' sid' pid' ->
  imt = imt' /\ sid = sid' /\ pid = pid'.
Proof.
  intros Himt Himt' Heq. unfold disp_name in Heq.
  apply string_app_inj in Heq. cbn [String.app] in Heq. injection Heq as Heq.
  change (imt +:+ String "-" ("sid-" +:+ pretty sid +:+ "-poe-" +:+ pretty pid +:+ "/")
          = imt' +:+ String "-"
              ("sid-" +:+ pretty sid' +:+ "-poe-" +:+ pretty pid' +:+ "/")) in Heq.
  apply string_split_at in Heq as [-> Heq]; [|done..].
  cbn [String.app] in Heq. injection Heq as Heq.
  change (pretty sid +:+ String "-" ("poe-" +:+ pretty pid +:+ "/")
          = pretty sid' +:+ String "-" ("poe-" +:+ pretty pid' +:+ "/")) in Heq.
  apply string_split_at in Heq as [Hsid Heq];
    [|by apply pretty_nat_occurs; [apply digit_not_dash|]..].
  cbn [String.app] in Heq. injection Heq as Heq.
  change (pretty pid +:+ String "/" "" = pretty pid' +:+ String "/" "") in Heq.
  apply string_split_at in Heq as [Hpid _];
    [|by apply pretty_nat_occurs; [apply digit_not_slash|]..].
  split; [done|]. split; by apply (inj pretty).
Qed.

End OutputNames.

Lemma disp_name_separates_the_outputs_witness :
  disp_name "disagg" "SA(0.1)" 1 12 <> disp_name "disagg" "SA(0.1)" 11 2.
Proof.
  intros Heq.
  destruct (disp_name_separates_the_outputs "disagg" "SA(0.1)" "SA(0.1)"
              1 11 12 2 eq_refl eq_refl Heq) as (_ & Hsid & _).
  discriminate Hsid.
Defined.

Lemma enumerate_snoc {A} (l : list A) (x : A) :
  enumerate (l ++ [x]) = enumerate l ++ [(length l, x)].
Proof.
  unfold enumerate. rewrite length_app, seq_app. cbn [length seq Nat.add].
  rewrite zip_with_app by (by rewrite length_seq). done.
Qed.

Section PoeId.
Context {P : Type} `{EqDecision P}.

Lemma poe_id_last_index (poes_disagg : list P) (x : P) (p : nat) :
  dget (Some x) (poe_id false poes_disagg) = Some p
  <-> poes_disagg !! p = Some x
      /\ forall q, poes_disagg !! q = Some x -> q <= p.
Proof.
  unfold poe_id. revert p. induction poes_disagg as [|y l IH] using rev_ind; intros p.
  - cbn. split; [done|]. by intros [? _].
  - rewrite enumerate_snoc, fold_left_app. cbn [fold_left fst snd].
    destruct (decide (y = x)) as [->|Hne].
    + rewrite dget_dset_eq. split.
      * intros [= <-]. split; [by rewrite lookup_app_r, Nat.sub_diag by lia|].
        intros q Hq%lookup_lt_Some. rewrite length_app in Hq. cbn in Hq. lia.
      * intros [Hp Hlast]. f_equal.
        assert (length l <= p).
        { apply Hlast. by rewrite lookup_app_r, Nat.sub_diag by lia. }
        apply lookup_lt_Some in Hp. rewrite length_app in Hp. cbn in Hp. lia.
    + rewrite dget_dset_ne by congruence. rewrite IH. split.
      * intros [Hp Hlast]. split; [by apply lookup_app_l_Some|].
        intros q Hq. apply Hlast.
        apply lookup_app_Some in Hq as [?|[_ Hq]]; [done|].
        apply list_lookup_singleton_Some in Hq as [_ ?]. congruence.
      * intros [Hp Hlast].
        apply lookup_app_Some in Hp as [Hp|[_ Hp]].
        -- split; [done|]. intros q Hq. by apply Hlast, lookup_app_l_Some.
        -- apply list_lookup_singleton_Some in Hp as [_ ?]. congruence.
Qed.

(** X23. The index of a probability in the names of the outputs.  In
    [self.poe_id], a requested probability is mapped to its position in
    [oq.poes_disagg], the last one when it is listed more than once, and
    [None] is not a key; when intensities are given, [None] is mapped to
    [0].  So, for distinct probabilities, or for given intensities and
    no probability, [self.poe_id[poe]] is the column [p] of the arrays
    [iml2] that [imldict] reads for [poe]. *)
Theorem poe_id_is_the_column_of_iml2 (poes_disagg : list P) :
  (forall x p, dget (Some x) (poe_id false poes_disagg) = Some p
     <-> poes_disagg !! p = Some x
         /\ forall q, poes_disagg !! q = Some x -> q <= p)
  /\ dget None (poe_id false poes_disagg) = None
  /\ (forall iml_disagg : bool,
        NoDup poes_disagg ->
        (if iml_disagg then poes_disagg = [] else poes_disagg <> []) ->
        forall poe p,
          poe_keys poes_disagg !! p = Some poe
          <-> dget poe (poe_id iml_disagg poes_disagg) = Some p).
Proof.
  assert (Hnone : dget None (poe_id false poes_disagg) = None).
  { apply dget_None_keys. unfold poe_id.
    assert (Hkeys : forall l (d : list (option P * nat)),
              None ∉ keys d ->
              None ∉ keys (fold_left (fun d ip => dset (Some ip.2) ip.1 d) l d)).
    { clear. induction l as [|[i x] l IH]; intros d Hd; [done|]. cbn [fold_left].
      apply IH. by intros [?|?]%elem_of_keys_dset. }
    apply Hkeys. by intros ?%elem_of_nil. }
  split; [apply poe_id_last_index|]. split; [done|].
  intros [] Hnd Hmode poe p.
  - subst poes_disagg. cbn. destruct poe as [x|].
    + rewrite decide_False by done. split; [|done].
      by intros [_ [=]]%list_lookup_singleton_Some.
    + rewrite decide_True by done. split.
      * by intros [-> _]%list_lookup_singleton_Some.
      * by intros [= <-].
  - destruct poes_disagg as [|y l] eqn:Hl; [done|]. rewrite <- Hl in *.
    unfold poe_keys. rewrite Hl at 1. rewrite list_lookup_fmap.
    destruct poe as [x|].
    + rewrite poe_id_last_index. split.
      * intros (x' & Hp & [= <-])%fmap_Some. split; [done|].
        intros q Hq. by rewrite (NoDup_lookup _ _ _ _ Hnd Hq Hp).
      * intros [Hp _]. by rewrite Hp.
    + rewrite Hnone. split; [|done]. by intros (x' & _ & [=])%fmap_Some.
Qed.
End PoeId.

Lemma poe_id_is_the_column_of_iml2_witness :
  dget (Some 20) (poe_id false [10; 20; 30]) = Some 1.
Proof.
  destruct (poe_id_is_the_column_of_iml2 [10; 20; 30]) as (_ & _ & Hcol).
  apply (Hcol false); [|done|done].
  apply (bool_decide_unpack _). by vm_compute.
Defined.

(** ** Interpolation inside a curve *)

Lemma count_leading_spec {F : Type} `{Arith F} (key : F) (arr : list F) :
  let j := count_leading key arr in
  j <= length arr
  /\ (forall i a, i < j -> arr !! i = Some a -> leb a key = true)
  /\ (forall a, arr !! j = Some a -> leb a key = false).
Proof.
  induction arr as [|a0 arr IH]; cbn [count_leading].
  - cbv zeta. split; [done|]. split; [intros; lia|done].
  - destruct (leb a0 key) eqn:Ha0.
    + destruct IH as (Hlen & Hlow & Hhigh). cbv zeta in *. cbn [length].
      split; [lia|]. split.
      * intros [|i] a Hi; cbn; [by intros [= <-]|]. apply Hlow. lia.
      * intros a. cbn. apply Hhigh.
    + cbv zeta. split; [cbn; lia|]. split; [intros; lia|].
      cbn. by intros a [= <-].
Qed.

Lemma Qc_linear_between (a b x ya yb : Qc) :
  (a < b)%Qc -> (a <= x)%Qc -> (x <= b)%Qc ->
  let r := (ya + (x - a) * ((yb - ya) / (b - a)))%Qc in
  ((ya <= yb)%Qc -> (ya <= r)%Qc /\ (r <= yb)%Qc)
  /\ ((yb <= ya)%Qc -> (yb <= r)%Qc /\ (r <= ya)%Qc).
Proof.
  intros Hab Hax Hxb r.
  assert (Hne : (b - a)%Qc <> 0%Qc).
  { intros Heq. apply (Qclt_not_eq _ _ Hab). symmetry.
    rewrite <- (Qcplus_0_l a), <- Heq. ring. }
  set (t := ((x - a) / (b - a))%Qc).
  assert (Hinv : (0 <= / (b - a))%Qc).
  { apply Qclt_le_weak. change (0 < Qred (/ this (b - a)%Qc))%Q.
    rewrite Qred_correct. apply Qinv_lt_0_compat.
    apply Qclt_minus_iff in Hab. exact Hab. }
  assert (Ht0 : (0 <= t)%Qc).
  { subst t. unfold Qcdiv. rewrite <- (Qcmult_0_l (/ (b - a))).
    apply Qcmult_le_compat_r; [|done]. by apply Qcle_minus_iff in Hax. }
  assert (Ht1 : (0 <= 1 - t)%Qc).
  { replace (1 - t)%Qc with ((b - x) / (b - a))%Qc by (subst t; by field).
    unfold Qcdiv. rewrite <- (Qcmult_0_l (/ (b - a))).
    apply Qcmult_le_compat_r; [|done]. by apply Qcle_minus_iff in Hxb. }
  assert (Hr1 : (r - ya)%Qc = (t * (yb - ya))%Qc) by (subst r t; by field).
  assert (Hr2 : (yb - r)%Qc = ((1 - t) * (yb - ya))%Qc) by (subst r t; by field).
  assert (Hpos : forall u v : Qc, (0 <= u)%Qc -> (0 <= v)%Qc -> (0 <= u * v)%Qc).
  { intros u v Hu Hv. rewrite <- (Qcmult_0_l v). by apply Qcmult_le_compat_r. }
  split.
  - intros Hy. apply Qcle_minus_iff in Hy. split; apply Qcle_minus_iff.
    + change (0 <= r - ya)%Qc. rewrite Hr1. by apply Hpos.
    + change (0 <= yb - r)%Qc. rewrite Hr2. by apply Hpos.
  - intros Hy. apply Qcle_minus_iff in Hy. split; apply Qcle_minus_iff.
    + change (0 <= r - yb)%Qc.
      replace (r - yb)%Qc with ((1 - t) * (ya + - yb))%Qc
        by (subst r t; by field).
      by apply Hpos.
    + change (0 <= ya - r)%Qc.
      replace (ya - r)%Qc with (t * (ya + - yb))%Qc by (subst r t; by field).
      by apply Hpos.
Qed.

(** X24. Inside a curve, [numpy.interp] is linear between the two
    neighbouring points and never leaves their levels.  In exact
    arithmetic, for strictly increasing abscissas [xp] (the reversed
    probabilities of a strictly decreasing curve) with at least two
    points and a target [x] between the first and the last of them,
    there are two consecutive points [(a, ya)], [(b, yb)] with
    [a <= x <= b] such that the value is
    [ya + (x - a) * (yb - ya) / (b - a)], which lies between [ya] and
    [yb]. *)
Theorem interp_stays_between_neighbouring_levels (xp fp : list Qc)
    (d x x0 xn : Qc) :
  length fp = length xp -> 2 <= length xp ->
  (forall i a b, xp !! i = Some a -> xp !! S i = Some b -> (a < b)%Qc) ->
  head xp = Some x0 -> last xp = Some xn ->
  (x0 <= x)%Qc -> (x <= xn)%Qc ->
  exists j a b ya yb,
    xp !! j = Some a /\ xp !! S j = Some b
    /\ fp !! j = Some ya /\ fp !! S j = Some yb
    /\ (a <= x)%Qc /\ (x <= b)%Qc
    /\ interp_point xp fp d x = (ya + (x - a) * ((yb - ya) / (b - a)))%Qc
    /\ ((ya <= yb)%Qc ->
        (ya <= interp_point xp fp d x)%Qc /\ (interp_point xp fp d x <= yb)%Qc)
    /\ ((yb <= ya)%Qc ->
        (yb <= interp_point xp fp d x)%Qc /\ (interp_point xp fp d x <= ya)%Qc).
Proof.
  intros Hlen Hn Hinc Hx0 Hxn Hlo Hhi.
  assert (Hfound : exists j a b ya yb,
    xp !! j = Some a /\ xp !! S j = Some b
    /\ fp !! j = Some ya /\ fp !! S j = Some yb
    /\ (a <= x)%Qc /\ (x <= b)%Qc
    /\ interp_point xp fp d x = (ya + (x - a) * ((yb - ya) / (b - a)))%Qc).
  { destruct xp as [|x0' t] eqn:Hxp; [done|]. injection Hx0 as ->.
    unfold interp_point. cbn [length tail is_nan Qc_arith].
    replace (S (length t) =? 1) with false
      by (symmetry; apply Nat.eqb_neq; cbn in Hn; lia).
    replace (S (length t) - 1) with (length t) by lia.
    assert (Hlast : nth (length t) (x0 :: t) d = xn).
    { rewrite nth_lookup. rewrite last_lookup in Hxn. cbn in Hxn. by rewrite Hxn. }
    rewrite Hlast. cbn [ltb leb eqb Qc_arith].
    change (nth 0 (x0 :: t) d) with x0.
    rewrite (bool_decide_eq_false_2 (xn < x)%Qc) by by apply Qcle_not_lt.
    rewrite (bool_decide_eq_false_2 (x < x0)%Qc) by by apply Qcle_not_lt.
    destruct (count_leading_spec x t) as (Hj & Hlow & Hhigh). cbv zeta in *.
    set (j := count_leading x t) in *.
    assert (Hfp : forall i, i <= length t -> exists y, fp !! i = Some y
              /\ nth i fp d = y).
    { intros i Hi. destruct (lookup_lt_is_Some_2 fp i) as [y Hy];
        [rewrite Hlen; cbn; lia|].
      exists y. split; [done|]. by rewrite nth_lookup, Hy. }
    assert (Hxpj : exists a, (x0 :: t) !! j = Some a /\ nth j (x0 :: t) d = a
              /\ (a <= x)%Qc).
    { destruct (lookup_lt_is_Some_2 (x0 :: t) j) as [a Ha]; [cbn; lia|].
      exists a. split; [done|]. split; [by rewrite nth_lookup, Ha|].
      destruct j as [|j'] eqn:Hjeq; [by injection Ha as <-|].
      cbn in Ha. specialize (Hlow j' a ltac:(lia) Ha).
      cbn [leb Qc_arith] in Hlow. by apply bool_decide_eq_true_1 in Hlow. }
    destruct Hxpj as (a & Ha & Hntha & Hax).
    destruct (decide (j = length t)) as [Hjn|Hjn].
    - (* the target is the last abscissa *)
      rewrite Hjn, Nat.eqb_refl.
      assert (Hxeq : x = xn).
      { apply Qcle_antisym; [done|]. rewrite last_lookup in Hxn. cbn in Hxn.
        rewrite Hjn in Ha. rewrite Ha in Hxn. by injection Hxn as <-. }
      subst x. destruct (length t) as [|m] eqn:Hm; [cbn in Hn; lia|].
      destruct (lookup_lt_is_Some_2 (x0 :: t) m) as [a' Ha'];
        [cbn; rewrite Hm; lia|].
      destruct (Hfp m ltac:(lia)) as (ya & Hya & _).
      destruct (Hfp (S m) ltac:(lia)) as (yb & Hyb & Hnthb).
      rewrite Hjn in Ha.
      assert (Hlt : (a' < xn)%Qc).
      { apply (Hinc m); [done|]. rewrite last_lookup in Hxn. cbn in Hxn.
        by rewrite Hm in Hxn. }
      assert (a = xn) as ->.
      { rewrite last_lookup in Hxn. cbn in Hxn. rewrite Hm in Hxn. congruence. }
      exists m, a', xn, ya, yb. split; [done|]. split; [done|].
      split; [done|]. split; [done|]. split; [by apply Qclt_le_weak|].
      split; [apply Qcle_refl|]. rewrite Hnthb.
      assert (Hne : (xn - a')%Qc <> 0%Qc).
      { intros Heq. apply (Qclt_not_eq _ _ Hlt). symmetry.
        rewrite <- (Qcplus_0_l a'), <- Heq. ring. }
      by field.
    - replace (j =? length t) with false by (symmetry; by apply Nat.eqb_neq).
      destruct (lookup_lt_is_Some_2 t j) as [b Hb]; [lia|].
      assert (Hxb : (x < b)%Qc).
      { specialize (Hhigh b Hb). cbn [leb Qc_arith] in Hhigh.
        apply bool_decide_eq_false_1 in Hhigh. by apply Qcnot_le_lt. }
      destruct (Hfp j ltac:(lia)) as (ya & Hya & Hnthya).
      destruct (Hfp (S j) ltac:(lia)) as (yb & Hyb & Hnthyb).
      assert (Hnthb : nth (S j) (x0 :: t) d = b).
      { rewrite nth_lookup. change ((x0 :: t) !! S j) with (t !! j).
        by rewrite Hb. }
      exists j, a, b, ya, yb. split; [done|]. split; [done|].
      split; [done|]. split; [done|]. split; [done|].
      split; [by apply Qclt_le_weak|].
      rewrite Hntha, Hnthya, Hnthyb, Hnthb.
      assert (Hne : (b - a)%Qc <> 0%Qc).
      { intros Heq. apply (Qclt_not_eq a b); [by eapply Qcle_lt_trans|].
        symmetry. rewrite <- (Qcplus_0_l a), <- Heq. ring. }
      case_bool_decide as Heqx.
      + rewrite Heqx in Hne |- *. by field.
      + cbn [add mul div sub Qc_arith]. by field. }
  destruct Hfound as (j & a & b & ya & yb & Ha & Hb & Hya & Hyb & Hax & Hxb & Hval).
  exists j, a, b, ya, yb. rewrite Hval.
  destruct (Qc_linear_between a b x ya yb (Hinc j a b Ha Hb) Hax Hxb) as [Hup Hdown].
  cbv zeta in *. done.
Qed.

Lemma interp_stays_between_neighbouring_levels_witness :
  exists j a b ya yb,
    [Q2Qc (1 # 100); Q2Qc (5 # 100); Q2Qc (9 # 100)] !! j = Some a
    /\ [Q2Qc (1 # 100); Q2Qc (5 # 100); Q2Qc (9 # 100)] !! S j = Some b
    /\ [Q2Qc (3 # 10); Q2Qc (2 # 10); Q2Qc (1 # 10)] !! j = Some ya
    /\ [Q2Qc (3 # 10); Q2Qc (2 # 10); Q2Qc (1 # 10)] !! S j = Some yb
    /\ (yb <= interp_point [Q2Qc (1 # 100); Q2Qc (5 # 100); Q2Qc (9 # 100)]
                [Q2Qc (3 # 10); Q2Qc (2 # 10); Q2Qc (1 # 10)] 0
                (Q2Qc (2 # 100)))%Qc.
Proof.
  destruct (interp_stays_between_neighbouring_levels
              [Q2Qc (1 # 100); Q2Qc (5 # 100); Q2Qc (9 # 100)]
              [Q2Qc (3 # 10); Q2Qc (2 # 10); Q2Qc (1 # 10)] 0
              (Q2Qc (2 # 100)) (Q2Qc (1 # 100)) (Q2Qc (9 # 100)))
    as (j & a & b & ya & yb & Ha & Hb & Hya & Hyb & _ & _ & _ & _ & Hdown);
    [done|cbn; lia| |done|done|by vm_compute|by vm_compute|].
  - intros [|[|[|i]]] a b [= <-] [= <-]; by vm_compute.
  - exists j, a, b, ya, yb. split; [done|]. split; [done|]. split; [done|].
    split; [done|]. apply Hdown.
    destruct j as [|[|[|j]]]; try done.
    + injection Hya as <-. injection Hyb as <-. by vm_compute.
    + injection Hya as <-. injection Hyb as <-. by vm_compute.
Defined.

(** ** Task results that do not meet commute, rounding or not *)

Section DisjointCommute.
Context {F : Type} `{Arith F}.
Context {K : Type} `{EqDecision K}.
Implicit Types (acc : list (K * list (nat * value F))) (kv : K * value F).

Lemma agg_item_run (t : nat) acc acc' kv :
  agg_item t acc kv = Ok acc' ->
  exists v, agg_probs [default (Scalar zero) (acc_lookup acc kv.1 t); kv.2] = Ok v
    /\ forall key t', acc_lookup acc' key t'
         = if decide (kv.1 = key /\ t = t') then Some v
           else acc_lookup acc key t'.
Proof.
  intros (v & Hv & ->)%agg_item_inv. exists v. split; [done|].
  destruct kv as [k x]. cbn [fst snd] in *.
  destruct (agg_item_lookup t acc k x v Hv) as (acc' & Hrun & Hlook).
  apply agg_item_inv in Hrun as (v' & Hv' & ->). cbn [fst snd] in *.
  rewrite Hv in Hv'. by injection Hv' as <-.
Qed.

Lemma agg_item_same_cells (t : nat) acc1 acc2 acc1' kv :
  same_cells acc1 acc2 -> agg_item t acc1 kv = Ok acc1' ->
  exists acc2', agg_item t acc2 kv = Ok acc2' /\ same_cells acc1' acc2'.
Proof.
  intros Hsame (v & Hv & Hlook)%agg_item_run. destruct kv as [k x].
  cbn [fst snd] in *. rewrite Hsame in Hv.
  destruct (agg_item_lookup t acc2 k x v Hv) as (acc2' & Hrun & Hlook').
  exists acc2'. split; [done|]. intros key t'. rewrite Hlook, Hlook'.
  by destruct (decide (k = key /\ t = t')).
Qed.

Lemma agg_items_same_cells (t : nat) (l : list (K * value F)) acc1 acc2 acc1' :
  same_cells acc1 acc2 -> for_loop (agg_item t) l acc1 = Ok acc1' ->
  exists acc2', for_loop (agg_item t) l acc2 = Ok acc2' /\ same_cells acc1' acc2'.
Proof.
  revert acc1 acc2. induction l as [|kv l IH]; intros acc1 acc2 Hsame; cbn [for_loop].
  - intros [= <-]. by exists acc2.
  - intros (a & H1 & H2)%rbind_Ok.
    destruct (agg_item_same_cells t acc1 acc2 a kv Hsame H1) as (a' & H1' & Hsame').
    destruct (IH a a' Hsame' H2) as (acc2' & H2' & Hsame'').
    exists acc2'. by rewrite H1'.
Qed.

(** Two updates of different cells commute. *)
Lemma agg_item_swap (t1 t2 : nat) acc a1 a12 kv1 kv2 :
  ~ (kv1.1 = kv2.1 /\ t1 = t2) ->
  agg_item t1 acc kv1 = Ok a1 -> agg_item t2 a1 kv2 = Ok a12 ->
  exists a2 a21, agg_item t2 acc kv2 = Ok a2 /\ agg_item t1 a2 kv1 = Ok a21
    /\ same_cells a12 a21.
Proof.
  intros Hne (v1 & Hv1 & Hl1)%agg_item_run (v2 & Hv2 & Hl2)%agg_item_run.
  destruct kv1 as [k1 x1], kv2 as [k2 x2]. cbn [fst snd] in *.
  rewrite Hl1, decide_False in Hv2 by done.
  destruct (agg_item_lookup t2 acc k2 x2 v2 Hv2) as (a2 & Hrun2 & Hl2').
  assert (Hv1' : agg_probs [default (Scalar zero) (acc_lookup a2 k1 t1); x1] = Ok v1).
  { rewrite Hl2', decide_False; [done|]. intros [-> ->]. by apply Hne. }
  destruct (agg_item_lookup t1 a2 k1 x1 v1 Hv1') as (a21 & Hrun21 & Hl21).
  exists a2, a21. split; [done|]. split; [done|].
  intros key t. rewrite Hl2, Hl1, Hl21, Hl2'.
  destruct (decide (k2 = key /\ t2 = t)) as [[-> ->]|]; [|done].
  rewrite decide_False; [done|]. intros [-> ->]. by apply Hne.
Qed.

Lemma agg_item_across (t1 t2 : nat) (l2 : list (K * value F)) acc a1 a12 kv1 :
  (forall kv2, kv2 ∈ l2 -> ~ (kv1.1 = kv2.1 /\ t1 = t2)) ->
  agg_item t1 acc kv1 = Ok a1 -> for_loop (agg_item t2) l2 a1 = Ok a12 ->
  exists a2 a21, for_loop (agg_item t2) l2 acc = Ok a2
    /\ agg_item t1 a2 kv1 = Ok a21 /\ same_cells a12 a21.
Proof.
  revert acc a1 a12.
  induction l2 as [|kv2 l2 IH]; intros acc a1 a12 Hne H1; cbn [for_loop].
  - intros [= <-]. by exists acc, a1.
  - intros (b & Hb & Hrest)%rbind_Ok.
    destruct (agg_item_swap t1 t2 acc a1 b kv1 kv2) as (c & c' & Hc & Hc' & Hsame);
      [apply Hne, list_elem_of_here|done|done|].
    destruct (agg_items_same_cells t2 l2 b c' a12 Hsame Hrest)
      as (a12' & Hrest' & Hsame').
    destruct (IH c c' a12') as (a2 & a21 & Hrun2 & Hrun21 & Hsame'');
      [by intros; apply Hne, list_elem_of_further|done|done|].
    exists a2, a21. rewrite Hc. cbn [rbind]. split; [done|]. split; [done|].
    intros key t. by rewrite Hsame', Hsame''.
Qed.

(** X25. Task results that report no key in common for the same TRT can
    be folded in either order, with or without rounding: when
    [agg_result] succeeds on one result and then on the other, it also
    succeeds in the other order, and the two accumulators hold the same
    matrix, bit for bit, under every key and TRT index.  In particular
    the order in which the tasks of different TRTs complete does not
    affect the result. *)
Theorem results_that_do_not_meet_commute acc acc12
    (r1 r2 : task_result F K) :
  (trti r1 = trti r2 ->
   forall key, key ∈ keys (items r1) -> key ∉ keys (items r2)) ->
  (acc1 <-! agg_result acc r1 ;; agg_result acc1 r2) = Ok acc12 ->
  exists acc21,
    (acc2 <-! agg_result acc r2 ;; agg_result acc2 r1) = Ok acc21
    /\ forall key t, acc_lookup acc21 key t = acc_lookup acc12 key t.
Proof.
  unfold agg_result. destruct r1 as [t1 l1], r2 as [t2 l2]. cbn [trti items].
  intros Hapart (a1 & H1 & H12)%rbind_Ok.
  assert (Hne : forall kv1 kv2, kv1 ∈ l1 -> kv2 ∈ l2 ->
            ~ (kv1.1 = kv2.1 /\ t1 = t2)).
  { intros kv1 kv2 Hin1 Hin2 [Hk Ht]. apply (Hapart Ht kv1.1).
    - by apply (list_elem_of_fmap_2 fst).
    - rewrite Hk. by apply (list_elem_of_fmap_2 fst). }
  clear Hapart.
  enough (Hgen : exists a2 a21, for_loop (agg_item t2) l2 acc = Ok a2
            /\ for_loop (agg_item t1) l1 a2 = Ok a21 /\ same_cells acc12 a21).
  { destruct Hgen as (a2 & a21 & H2 & H21 & Hsame).
    exists a21. rewrite H2. cbn [rbind]. split; [done|]. intros key t.
    by rewrite Hsame. }
  revert acc a1 acc12 Hne H1 H12.
  induction l1 as [|kv1 l1 IH]; intros acc a1 acc12 Hne; cbn [for_loop].
  - intros [= <-] H12. by exists acc12, acc12.
  - intros (a & Ha & Hrest)%rbind_Ok H12.
    destruct (IH a a1 acc12) as (b2 & b21 & Hb2 & Hb21 & Hsame);
      [by intros; apply Hne; [apply list_elem_of_further|]|done|done|].
    destruct (agg_item_across t1 t2 l2 acc a b2 kv1) as (a2 & c & Ha2 & Hc & Hsame');
      [by intros; apply Hne; [apply list_elem_of_here|]|done|done|].
    destruct (agg_items_same_cells t1 l1 b2 c b21 Hsame' Hb21)
      as (a21 & Ha21 & Hsame'').
    exists a2, a21. split; [done|]. rewrite Hc. cbn [rbind]. split; [done|].
    intros key t. by rewrite Hsame, Hsame''.
Qed.
End DisjointCommute.

Lemma results_that_do_not_meet_commute_witness :
  exists acc21,
    (acc2 <-! agg_result [] {| trti := 1; items := [(0, Array [1] [0.3%float])] |} ;;
     agg_result acc2 {| trti := 0; items := [(0, Array [1] [0.1%float])] |})
    = Ok acc21
    /\ acc_lookup acc21 0 1 = Some (Array [1] [0.30000000000000004%float]).
Proof.
  destruct (results_that_do_not_meet_commute (K := nat) [] 
              [(0, [(0, Array [1] [0.09999999999999998%float]);
                    (1, Array [1] [0.30000000000000004%float])])]
              {| trti := 0; items := [(0, Array [1] [0.1%float])] |}
              {| trti := 1; items := [(0, Array [1] [0.3%float])] |})
    as (acc21 & Hrun & Hsame); [done|by vm_compute|].
  exists acc21. split; [exact Hrun|]. by rewrite Hsame.
Defined.

(** ** The edges of epsilon *)

Lemma Qc_of_Z_mul_inv (n : Z) (x : Qc) :
  (0 < n)%Z -> (Qc_of_Z n * (x / Qc_of_Z n))%Qc = x.
Proof.
  intros Hn. apply Qcmult_div_r. intros Heq.
  apply (Qc_of_Z_inj n 0) in Heq. lia.
Qed.

(** X26. The edges of epsilon.  In exact arithmetic, for
    [n = num_epsilon_bins >= 1], [eps_edges] has the [n + 1] values
    [-tl + k * (2 tl / n)], for [k] from [0] to [n]: they start at [-tl],
    end at [tl], are symmetric about zero and, for a positive truncation
    level, strictly increasing.  With no bin there is the single edge
    [-tl], and a number of bins below [-1] raises [ValueError].  On
    doubles, a truncation level of [3] and [6] bins give the edges
    [-3, -2, -1, 0, 1, 2, 3]. *)
Theorem eps_edges_are_evenly_spaced (tl : Qc) (n : Z) :
  let edge := fun k : Z => (- tl + Qc_of_Z k * ((tl + tl) / Qc_of_Z n))%Qc in
  ((1 <= n)%Z ->
   eps_edges tl n = Ok (map edge (seqZ 0 (n + 1)))
   /\ edge 0%Z = (- tl)%Qc /\ edge n = tl
   /\ (forall k, edge (n - k)%Z = (- edge k)%Qc)
   /\ ((0 < tl)%Qc -> forall j k, (j < k)%Z -> (edge j < edge k)%Qc))
  /\ eps_edges tl 0 = Ok [(- tl)%Qc]
  /\ ((n < -1)%Z -> eps_edges tl n = Raise ValueError)
  /\ eps_edges 3%float 6 = Ok [-3; -2; -1; 0; 1; 2; 3]%float.
Proof.
  intros edge. split; [|split; [|split; [|by vm_compute]]].
  - intros Hn.
    assert (Hn0 : Qc_of_Z n <> 0%Qc).
    { intros Heq. apply (Qc_of_Z_inj n 0) in Heq. lia. }
    assert (Hfirst : edge 0%Z = (- tl)%Qc).
    { subst edge. cbv beta. change (Qc_of_Z 0) with 0%Qc. ring. }
    assert (Hlast : edge n = tl).
    { subst edge. cbv beta. rewrite Qc_of_Z_mul_inv by lia. ring. }
    assert (Hmul : forall a b, Qc_of_Z (a - b) = (Qc_of_Z a - Qc_of_Z b)%Qc).
    { intros a b. apply Qc_is_canon. unfold Qcminus, Qcplus, Qcopp.
      rewrite !Qc_of_Z_this. unfold Q2Qc. cbn [this].
      rewrite !Qred_correct. unfold Zminus.
      by rewrite inject_Z_plus, inject_Z_opp. }
    split; [|split; [done|split; [done|split]]].
    + unfold eps_edges, linspace. cbn [neg Qc_negate].
      replace (n + 1 <? 0)%Z with false by (symmetry; apply Z.ltb_ge; lia).
      replace (1 <? n + 1)%Z with true by (symmetry; apply Z.ltb_lt; lia).
      replace (n + 1 - 1)%Z with n by lia. cbv zeta.
      cbn [mul sub div add one zero eqb of_int Qc_arith].
      unfold neg, Qc_negate, arange.
      replace (n + 1 - 0)%Z with (n + 1)%Z by lia.
      set (y := if bool_decide _ then _ else _).
      assert (Hy : y = map (fun k => (Qc_of_Z k * ((tl + tl) / Qc_of_Z n))%Qc)
                         (seqZ 0 (n + 1))).
      { subst y. case_bool_decide as Hstep.
        - assert (Hdelta : (tl * 1 - - tl * 1)%Qc = 0%Qc).
          { unfold Qcdiv in Hstep. apply Qcmult_integral in Hstep as [?|Hinv]; [done|].
            exfalso. apply Hn0. rewrite <- (Qcmult_1_l (Qc_of_Z n)).
            rewrite <- (Qcmult_inv_l (Qc_of_Z n)) by done.
            rewrite Hinv. ring. }
          rewrite map_map. apply map_ext. intros k. rewrite Hdelta.
          replace (tl + tl)%Qc with (tl * 1 - - tl * 1)%Qc by ring.
          rewrite Hdelta. unfold Qcdiv. ring.
        - rewrite map_map. apply map_ext. intros k. do 2 f_equal. ring. }
      rewrite Hy, map_map. f_equal.
      apply list_eq. intros i. rewrite length_map, length_seqZ.
      change (map ?f ?l) with (f <$> l).
      destruct (decide (i = Z.to_nat (n + 1) - 1)) as [->|Hi].
      * rewrite list_lookup_insert_eq by (rewrite length_fmap, length_seqZ; lia).
        rewrite list_lookup_fmap, lookup_seqZ_lt by lia. cbn.
        f_equal. rewrite <- Hlast. subst edge. cbv beta.
        rewrite Qcmult_1_r. do 3 f_equal. lia.
      * rewrite list_lookup_insert_ne by done. rewrite !list_lookup_fmap.
        destruct (seqZ 0 (n + 1) !! i) as [k|]; [|done]. cbn.
        f_equal. subst edge. cbv beta. ring.
    + intros k. subst edge. cbv beta. rewrite Hmul.
      replace ((Qc_of_Z n - Qc_of_Z k) * ((tl + tl) / Qc_of_Z n))%Qc
        with (Qc_of_Z n * ((tl + tl) / Qc_of_Z n)
              - Qc_of_Z k * ((tl + tl) / Qc_of_Z n))%Qc by ring.
      rewrite Qc_of_Z_mul_inv by lia. ring.
    + intros Htl j k Hjk. subst edge. cbv beta.
      apply (proj2 (Qclt_minus_iff _ _)).
      replace (- tl + Qc_of_Z k * ((tl + tl) / Qc_of_Z n)
               + - (- tl + Qc_of_Z j * ((tl + tl) / Qc_of_Z n)))%Qc
        with (((tl + tl) / Qc_of_Z n) * Qc_of_Z k
              + - (((tl + tl) / Qc_of_Z n) * Qc_of_Z j))%Qc by ring.
      apply (proj1 (Qclt_minus_iff _ _)). apply Qc_multiple_lt; [|done].
      unfold Qcdiv. rewrite <- (Qcmult_0_l (/ Qc_of_Z n)).
      apply Qcmult_lt_compat_r.
      * change (0 < Qred (/ this (Qc_of_Z n)))%Q. rewrite Qred_correct.
        apply Qinv_lt_0_compat. rewrite Qc_of_Z_this.
        change 0%Q with (inject_Z 0). rewrite <- Zlt_Qlt. lia.
      * eapply Qclt_trans; [exact Htl|].
        apply (proj2 (Qclt_minus_iff _ _)).
        replace (tl + tl + - tl)%Qc with tl by ring. exact Htl.
  - unfold eps_edges, linspace.
    change (0 + 1 <? 0)%Z with false. change (1 <? 0 + 1)%Z with false.
    cbv zeta iota. change (arange 0 (0 + 1)) with [0%Z]. cbn [map].
    unfold neg, Qc_negate. cbn [mul sub add one of_int Qc_arith].
    change (Qc_of_Z 0) with 0%Qc. do 2 f_equal. ring.
  - intros Hn. unfold eps_edges, linspace.
    by replace (n + 1 <? 0)%Z with true by (symmetry; apply Z.ltb_lt; lia).
Qed.

Lemma eps_edges_are_evenly_spaced_witness :
  exists edges, eps_edges (Q2Qc 3) 6 = Ok edges
    /\ head edges = Some (- Q2Qc 3)%Qc /\ length edges = 7.
Proof.
  destruct (eps_edges_are_evenly_spaced (Q2Qc 3) 6) as [Hrun _].
  destruct Hrun as (Hedges & Hfirst & _); [lia|].
  eexists. split; [exact Hedges|]. split; [|done].
  change (seqZ 0 (6 + 1)) with (0%Z :: seqZ 1 6). cbn [map head].
  exact (f_equal Some Hfirst).
Defined.
